(** * ELFI core: node graph, lazy slice engine and output cache

    A shallow embedding of [elfi/graph.py] (classes [Graph] and [Node]) and of
    the caching engine of [elfi/core.py] (classes [DelayedOutputCache] and
    [Operation] with its leaf kinds).

    Python objects live in a heap: nodes, graphs and stores are addressed by
    natural numbers (object identity), and every method is a state
    transformer that may raise.  A raised exception keeps the mutations made
    before it, as in Python. *)

From Stdlib Require Import ZArith Lia.
From stdpp Require Import base option list gmap strings.

Local Open Scope Z_scope.
Set Warnings "-register-all,-clear-no-such-hyp".

(** ** Exceptions and results *)

Inductive exn :=
| ValueError (msg : string)
| IndexError
| KeyError
| TypeError
| LookupError
| AttributeError
| OutOfFuel.

Inductive result (A : Type) :=
| Ok (a : A)
| Err (e : exn).
Arguments Ok {A} a.
Arguments Err {A} e.

Definition rbind {A B} (r : result A) (k : A → result B) : result B :=
  match r with
  | Ok a => k a
  | Err e => Err e
  end.

Fixpoint rmap {A B} (f : A → result B) (l : list A) : result (list B) :=
  match l with
  | [] => Ok []
  | x :: l' => rbind (f x) (λ y, rbind (rmap f l') (λ ys, Ok (y :: ys)))
  end.

Definition is_ok {A} (r : result A) : bool :=
  match r with Ok _ => true | Err _ => false end.

(** ** Slices

    A Python [slice(start, stop)] with integer bounds. *)

Record slice := Slice { start : Z; stop : Z }.

Global Instance slice_eq_dec : EqDecision slice.
Proof. solve_decision. Defined.

(** Sequence slicing [l[start:stop]] with Python's clamping of bounds and
    its reading of negative bounds from the end. *)
Definition clamp (len i : Z) : Z :=
  if i <? 0 then Z.max 0 (len + i) else Z.min i len.

Definition py_slice {A} (l : list A) (sl : slice) : list A :=
  let len := Z.of_nat (length l) in
  let a := clamp len (start sl) in
  let b := clamp len (stop sl) in
  take (Z.to_nat (b - a)) (drop (Z.to_nat a) l).

(** ** Arrays

    A numpy array is a tree of rows over scalars; floating point entries are
    represented by integers.  [Arr rows] is an array whose first axis ranges
    over [rows]. *)

Inductive scalar :=
| SNum (z : Z)
| SStr (s : string)
| SBool (b : bool).

Inductive arr :=
| Item (x : scalar)
| Arr (rows : list arr).

Definition arr_rows (a : arr) : list arr :=
  match a with
  | Item _ => []
  | Arr rows => rows
  end.

Fixpoint shape (a : arr) : list Z :=
  match a with
  | Item _ => []
  | Arr rows =>
      Z.of_nat (length rows) ::
      match rows with
      | [] => []
      | r :: _ => shape r
      end
  end.

Definition ndim (a : arr) : Z := Z.of_nat (length (shape a)).

(** [data.shape[0]]; indexing the empty shape tuple of a 0-d array raises. *)
Definition shape0 (a : arr) : result Z :=
  match shape a with
  | [] => Err IndexError
  | n :: _ => Ok n
  end.

(** [a[sl]] along the first axis (every caller passes an array of at least
    one dimension). *)
Definition arr_getitem (a : arr) (sl : slice) : arr :=
  Arr (py_slice (arr_rows a) sl).

Definition atleast_1d (a : arr) : arr :=
  match a with
  | Item x => Arr [Item x]
  | Arr _ => a
  end.

Definition atleast_2d (a : arr) : arr :=
  match a with
  | Item x => Arr [Arr [Item x]]
  | Arr rows => if ndim a =? 1 then Arr [a] else a
  end.

(** [np.vstack]: the arrays, made at least two-dimensional, are joined along
    the first axis.  numpy also insists on equal trailing dimensions; that
    check is not represented. *)
Definition np_vstack (l : list arr) : arr :=
  Arr (concat (map (λ a, arr_rows (atleast_2d a)) l)).

(** [data[:, None]] *)
Definition new_axis_inner (a : arr) : arr :=
  Arr (map (λ x, Arr [x]) (arr_rows a)).

(** [data[None, :]] followed by [np.vstack((data, ) * n)] when [n > 1]. *)
Definition replicate_rows (data : arr) (n : Z) : arr :=
  let data := Arr [data] in
  if 1 <? n then np_vstack (replicate (Z.to_nat n) data) else data.

Definition normalize_data (data : arr) (n : Z) : arr :=
  let data :=
    match data with
    | Item (SStr s) => Arr [Arr [Item (SStr s)]]
    | _ => atleast_1d data
    end in
  if ndim data =? 1 then
    if Z.of_nat (length (arr_rows data)) =? n then new_axis_inner data
    else replicate_rows data n
  else
    if negb (Z.of_nat (length (arr_rows data)) =? n) then replicate_rows data n
    else data.

Definition normalize_data_dict (dict : option (gmap string arr)) (n : Z)
  : option (gmap string arr) :=
  match dict with
  | None => None
  | Some d => Some ((λ v, normalize_data v n) <$> d)
  end.

(** ** Keys and slice helpers

    [elfi/utils.py] is not part of the sources at hand; its helpers are
    modelled here. *)

(** Modelled from the spec: [make_key_id] is missing; the identity of an
    operation node is derived from (owning-graph name, node name, version). *)
Record node_id := NodeId { id_task : string; id_name : string; id_version : nat }.

Global Instance node_id_eq_dec : EqDecision node_id.
Proof. solve_decision. Defined.

Definition make_key_id (task_name node_name : string) (version : nat) : node_id :=
  NodeId task_name node_name version.

(** Modelled from the spec: [make_key], [get_key_slice] and
    [reset_key_slice] are missing; a key is derived from (node identity,
    range). *)
Record key := Key { key_id : node_id; key_slice : slice }.

Global Instance key_eq_dec : EqDecision key.
Proof. solve_decision. Defined.

Definition make_key (id : node_id) (sl : slice) : key := Key id sl.
Definition get_key_slice (k : key) : slice := key_slice k.
Definition reset_key_slice (k : key) (sl : slice) : key := Key (key_id k) sl.

(** Modelled from the spec: [slen] is missing; the length of the half-open
    range of a slice. *)
Definition slen (sl : slice) : Z := stop sl - start sl.

(** Modelled from the spec: [slice_intersect] is missing; the common
    sub-range of two slices, shifted down by [offset], and an empty slice
    when they do not overlap. *)
Definition slice_intersect (sl1 sl2 : slice) (offset : Z) : slice :=
  let i := Slice (Z.max (start sl2) (start sl1) - offset)
                 (Z.min (stop sl2) (stop sl1) - offset) in
  if stop i - start i <=? 0 then Slice offset offset else i.

(** ** Input and output dictionaries

    The dictionary handed to an operation has the entries ["data"], ["n"]
    and ["index"], and, from the mixins, ["random_state"] and ["observed"].
    It is parametrised by what ["data"] holds: deferred parent outputs when
    the dictionary is built, arrays when the operation runs. *)

(** Modelled from the spec: [get_substream_state] draws from numpy's
    generator; a sub-stream state is represented by the pair (master seed,
    sub-stream index) that determines it. *)
Definition rstate : Type := Z * nat.

Record pydict (D : Type) := PyDict {
  d_data : D;
  d_n : Z;
  d_index : Z;
  d_random_state : option rstate;
  d_observed : option (list arr)
}.
Arguments PyDict {D}.
Arguments d_data {D}.
Arguments d_n {D}.
Arguments d_index {D}.
Arguments d_random_state {D}.
Arguments d_observed {D}.

(** What a user function returns: a numpy array or some other object. *)
Inductive pyobj :=
| PyArray (a : arr)
| PyOther.

Definition format_error (what : string) : exn :=
  ValueError (what ++ " operation output format incorrect.").
Definition type_error (what : string) : exn :=
  ValueError (what ++ " operation output type incorrect.").

(** [simulator_operation(simulator, vectorized, input_dict)], returning the
    ["data"] entry of its output dictionary. *)
Definition simulator_operation
    (simulator : list arr → Z → rstate → result pyobj)
    (input_dict : pydict (list arr)) : result arr :=
  match d_random_state input_dict with
  | None => Err KeyError
  | Some prng =>
      let n_sim := d_n input_dict in
      rbind (simulator (d_data input_dict) n_sim prng) (λ data,
      match data with
      | PyOther => Err (type_error "Simulation")
      | PyArray data =>
          rbind (shape0 data) (λ s0,
          if negb (s0 =? n_sim) || (ndim data <? 2)
          then Err (format_error "Simulation")
          else Ok data)
      end)
  end.

(** [summary_operation(operation, input)] *)
Definition summary_operation
    (operation : list arr → result pyobj)
    (input : pydict (list arr)) : result arr :=
  rbind (operation (d_data input)) (λ data,
  let vec_len := d_n input in
  match data with
  | PyOther => Err (type_error "Summary")
  | PyArray data =>
      rbind (shape0 data) (λ s0,
      if negb (s0 =? vec_len) || (ndim data <? 2)
      then Err (format_error "Summary")
      else Ok data)
  end).

(** [discrepancy_operation(operation, input)] *)
Definition discrepancy_operation
    (operation : list arr → list arr → result pyobj)
    (input : pydict (list arr)) : result arr :=
  match d_observed input with
  | None => Err KeyError
  | Some observed =>
      rbind (operation (d_data input) observed) (λ data,
      let vec_len := d_n input in
      match data with
      | PyOther => Err (type_error "Discrepancy")
      | PyArray data =>
          if bool_decide (shape data = [vec_len; 1])
          then Ok data
          else Err (format_error "Discrepancy")
      end)
  end.

(** The callable stored in [Operation.operation]. *)
Inductive callable :=
| OpUser (f : pydict (list arr) → result arr)
| OpConstant (v : arr)
| OpSimulator (simulator : list arr → Z → rstate → result pyobj)
| OpSummary (summary : list arr → result pyobj)
| OpDiscrepancy (discrepancy : list arr → list arr → result pyobj).

Definition run_operation (op : callable) (input_dict : pydict (list arr))
  : result arr :=
  match op with
  | OpUser f => f input_dict
  | OpConstant v => Ok v
  | OpSimulator simulator => simulator_operation simulator input_dict
  | OpSummary summary => summary_operation summary input_dict
  | OpDiscrepancy discrepancy => discrepancy_operation discrepancy input_dict
  end.

(** ** Deferred computations

    Modelled from the spec: [delayed] (dask) is an external collaborator; a
    computation description is deferred, building one does not execute it.
    A description is a term, and [compute] further down realises it. *)

Inductive delayed :=
| DEmpty
    (* delayed(np.zeros(shape=(0,0))) *)
| DOutput (k : key) (output : pydict arr)
    (* delayed(output, name=k): a literal output dictionary *)
| DCall (k : key) (op : callable) (input_dict : pydict (list delayed))
    (* delayed(op)(delayed(input_dict, pure=True), dask_key_name=k) *)
| DNamedItem (output : delayed)
    (* get_named_item(output, 'data') *)
| DStored (store : nat) (id : node_id) (sl : slice)
    (* store.read_data(id, sl) *)
| DGetitem (k : key) (data : delayed) (sl : slice)
    (* delayed(operator.getitem)(data, sl, dask_key_name=k) *)
| DVstack (k : key) (outputs : list delayed).
    (* delayed(np.vstack)(tuple(outputs), dask_key_name=k) *)

(** The [key] attribute.  dask names an object built without an explicit
    name by a token of its own; those tokens are not represented, and such an
    object answers with the key of what it was derived from. *)
Fixpoint delayed_key (d : delayed) : key :=
  match d with
  | DEmpty => Key (NodeId "" "" 0) (Slice 0 0)
  | DOutput k _ => k
  | DCall k _ _ => k
  | DNamedItem output => delayed_key output
  | DStored _ id sl => make_key id sl
  | DGetitem k _ _ => k
  | DVstack k _ => k
  end.

(** The value of a realised description: an output dictionary, of which only
    the entry ["data"] is kept, or an array. *)
Inductive value :=
| VDict (data : arr)
| VArr (a : arr).

Definition as_arr (v : value) : result arr :=
  match v with
  | VArr a => Ok a
  | VDict _ => Err TypeError
  end.

(** Modelled from the spec: the store contract of [elfi/storage.py], which
    is missing.  A store holds the persisted outputs by key; [write]
    persists an output, [read_data] gives the data persisted for a node and
    range, [reset] purges all that was persisted for a node. *)
Definition store : Type := list (key * result value).

Definition store_write (st : store) (k : key) (v : result value) : store :=
  st ++ [(k, v)].

Definition store_reset (st : store) (id : node_id) : store :=
  filter (λ e, key_id e.1 ≠ id) st.

Definition store_read_data (st : store) (id : node_id) (sl : slice)
  : result value :=
  match list_find (λ e, e.1 = make_key id sl) st with
  | None => Err KeyError
  | Some (_, (_, v)) =>
      rbind v (λ v,
      match v with
      | VDict data => Ok (VArr data)
      | VArr _ => Err TypeError
      end)
  end.

Section compute.
Variable stores : gmap nat store.

Fixpoint compute (d : delayed) : result value :=
  match d with
  | DEmpty => Ok (VArr (Arr []))
  | DOutput _ output => Ok (VDict (d_data output))
  | DCall _ op input_dict =>
      match input_dict with
      | PyDict data n index random_state observed =>
          rbind
            ((fix go (ds : list delayed) : result (list arr) :=
                match ds with
                | [] => Ok []
                | p :: ds' =>
                    rbind (rbind (compute p) as_arr) (λ a,
                    rbind (go ds') (λ l, Ok (a :: l)))
                end) data)
            (λ data,
             rbind (run_operation op (PyDict data n index random_state observed))
                   (λ out, Ok (VDict out)))
      end
  | DNamedItem output =>
      rbind (compute output) (λ v,
      match v with
      | VDict data => Ok (VArr data)
      | VArr _ => Err IndexError
      end)
  | DStored r id sl => store_read_data (stores !!! r) id sl
  | DGetitem _ data sl =>
      rbind (rbind (compute data) as_arr) (λ a, Ok (VArr (arr_getitem a sl)))
  | DVstack _ outputs =>
      rbind
        ((fix go (ds : list delayed) : result (list arr) :=
            match ds with
            | [] => Ok []
            | p :: ds' =>
                rbind (rbind (compute p) as_arr) (λ a,
                rbind (go ds') (λ l, Ok (a :: l)))
            end) outputs)
        (λ arrs, Ok (VArr (np_vstack arrs)))
  end.
End compute.

(** ** The heap: nodes, graphs, stores *)

(** [DelayedOutputCache] *)
Record cache := Cache {
  c_delayed_outputs : list delayed;
  c_stored_mask : list bool;
  c_store : option nat;
  c_node_id : node_id
}.

(** The class of a node of the model, which selects the method overrides. *)
Inductive node_class :=
| COperation
| CConstant
| CSimulator
| CSummary
| CDiscrepancy.

Global Instance node_class_eq_dec : EqDecision node_class.
Proof. solve_decision. Defined.

(** [Node] with the attributes of [Operation]; [observed] is the attribute
    that [ObservedMixin] sets. *)
Record node := Node {
  name : string;
  parents : list nat;
  children : list nat;
  graph : nat;
  class : node_class;
  operation : callable;
  observed : option arr;
  _generate_index : Z;
  _num_resets : nat;
  _delayed_outputs : cache
}.

(** [Graph], with the seed and sub-stream counter of the inference task. *)
Record graph_obj := GraphObj {
  g_name : string;
  g_nodes : gmap string nat;
  g_seed : Z;
  g_substreams : nat
}.

Record state := State {
  nodes : gmap nat node;
  graphs : gmap nat graph_obj;
  stores : gmap nat store
}.

Global Instance cache_inhabited : Inhabited cache :=
  populate (Cache [] [] None (NodeId "" "" 0)).
Global Instance node_inhabited : Inhabited node :=
  populate (Node "" [] [] 0%nat COperation (OpConstant (Arr [])) None 0 0 inhabitant).
Global Instance graph_inhabited : Inhabited graph_obj :=
  populate (GraphObj "" ∅ 0 0).

(** ** The monad of methods: state passing with exceptions *)

Definition M (A : Type) : Type := state → state * result A.

Global Instance M_ret : MRet M := λ A a s, (s, Ok a).
Global Instance M_bind : MBind M := λ A B f m s,
  match m s with
  | (s', Ok a) => f a s'
  | (s', Err e) => (s', Err e)
  end.

Definition raise {A} (e : exn) : M A := λ s, (s, Err e).
Definition gets {A} (f : state → A) : M A := λ s, (s, Ok (f s)).
Definition modify (f : state → state) : M unit := λ s, (f s, Ok tt).
Definition lift {A} (r : result A) : M A := λ s, (s, r).

Fixpoint forM_ {A} (f : A → M unit) (l : list A) : M unit :=
  match l with
  | [] => mret tt
  | x :: l' => f x;; forM_ f l'
  end.

Definition get_node (i : nat) : M node := gets (λ s, nodes s !!! i).

Definition set_node (i : nat) (nd : node) : M unit :=
  modify (λ s, State (<[i := nd]> (nodes s)) (graphs s) (stores s)).

Definition set_graph (g : nat) (G : graph_obj) : M unit :=
  modify (λ s, State (nodes s) (<[g := G]> (graphs s)) (stores s)).

Definition set_store (r : nat) (st : store) : M unit :=
  modify (λ s, State (nodes s) (graphs s) (<[r := st]> (stores s))).

(** ** [elfi/graph.py] *)

(** The loop [while name_old in self.nodes: name_old += "_old"]. *)
Fixpoint rename_loop (fuel : nat) (nodes : gmap string nat) (name_old : string)
  : result string :=
  if bool_decide (is_Some (nodes !! name_old)) then
    match fuel with
    | O => Err OutOfFuel
    | S fuel => rename_loop fuel nodes (name_old ++ "_old")
    end
  else Ok name_old.

(** [Node.rename] *)
Definition rename (self : nat) (new_name : string) : M unit :=
  nd ← get_node self;
  set_node self
    (Node new_name (parents nd) (children nd) (graph nd) (class nd)
       (operation nd) (observed nd) (_generate_index nd) (_num_resets nd)
       (_delayed_outputs nd)).

(** [Graph.add_node]; [self.nodes[k]] raises [KeyError] on a missing key. *)
Definition dict_get (d : gmap string nat) (k : string) : M nat :=
  match d !! k with
  | Some v => mret v
  | None => raise KeyError
  end.

Definition add_node (fuel : nat) (self : nat) (node : nat) : M unit :=
  G ← gets (λ s, graphs s !!! self);
  if bool_decide (node ∈ (map_to_list (g_nodes G)).*2) then mret tt
  else
    node_name ← gets (λ s, name (nodes s !!! node));
    (if bool_decide (is_Some (g_nodes G !! node_name)) then
       name_old ← lift (rename_loop fuel (g_nodes G) node_name);
       old ← dict_get (g_nodes G) node_name;
       rename old name_old;;
       G ← gets (λ s, graphs s !!! self);
       node_name ← gets (λ s, name (nodes s !!! node));
       old ← dict_get (g_nodes G) node_name;
       set_graph self
         (GraphObj (g_name G) (<[name_old := old]> (g_nodes G)) (g_seed G)
            (g_substreams G))
     else mret tt);;
    G ← gets (λ s, graphs s !!! self);
    node_name ← gets (λ s, name (nodes s !!! node));
    set_graph self
      (GraphObj (g_name G) (<[node_name := node]> (g_nodes G)) (g_seed G)
         (g_substreams G)).

(** The properties [Node.descendants] and [Node.ancestors]: the recursion of
    the source has no cycle guard, the fuel bounds its depth. *)
Definition extend_new (acc : list nat) (l : list nat) : list nat :=
  foldl (λ acc m, if bool_decide (m ∈ acc) then acc else acc ++ [m]) acc l.

Fixpoint descendants (fuel : nat) (s : state) (self : nat) : result (list nat) :=
  match fuel with
  | O => Err OutOfFuel
  | S fuel =>
      foldl (λ acc n, rbind acc (λ _descendants,
                      rbind (descendants fuel s n) (λ ds,
                      Ok (extend_new _descendants ds))))
            (Ok (children (nodes s !!! self)))
            (children (nodes s !!! self))
  end.

Fixpoint ancestors (fuel : nat) (s : state) (self : nat) : result (list nat) :=
  match fuel with
  | O => Err OutOfFuel
  | S fuel =>
      foldl (λ acc n, rbind acc (λ _ancestors,
                      rbind (ancestors fuel s n) (λ ds,
                      Ok (extend_new _ancestors ds))))
            (Ok (parents (nodes s !!! self)))
            (parents (nodes s !!! self))
  end.

(** [list.insert(index, x)] *)
Definition py_insert {A} (l : list A) (index : Z) (x : A) : list A :=
  let j := Z.to_nat (clamp (Z.of_nat (length l)) index) in
  take j l ++ x :: drop j l.

Definition index_out_of_bounds : exn := ValueError "Index out of bounds.".
Definition cyclic_structure : exn := ValueError "Cannot have cyclic graph structure.".

(** [Node._add_child] *)
Definition _add_child (self : nat) (node : nat) (index : option Z) : M unit :=
  nd ← get_node self;
  if bool_decide (node ∈ children nd) then mret tt
  else
    index ← match index with
            | None => mret (Z.of_nat (length (children nd)))
            | Some index =>
                if (index <? 0) || (Z.of_nat (length (children nd)) <? index)
                then raise index_out_of_bounds
                else mret index
            end;
    set_node self
      (Node (name nd) (parents nd) (py_insert (children nd) index node)
         (graph nd) (class nd) (operation nd) (observed nd)
         (_generate_index nd) (_num_resets nd) (_delayed_outputs nd)).

(** [Node.add_parent]; the argument [node] is [None] or a node (the
    conversion of other objects to nodes is not represented). *)
Definition add_parent (fuel : nat) (self : nat) (node : option nat)
    (index index_child : option Z) : M unit :=
  match node with
  | None => mret tt
  | Some node =>
      ds ← (λ s, (s, descendants fuel s self));
      if bool_decide (node ∈ ds) then raise cyclic_structure
      else
        nd ← get_node self;
        (if bool_decide (node ∈ parents nd) then mret tt
         else
           index ← match index with
                   | None => mret (Z.of_nat (length (parents nd)))
                   | Some index =>
                       if (index <? 0) || (Z.of_nat (length (parents nd)) <? index)
                       then raise index_out_of_bounds
                       else mret index
                   end;
           set_node self
             (Node (name nd) (py_insert (parents nd) index node) (children nd)
                (graph nd) (class nd) (operation nd) (observed nd)
                (_generate_index nd) (_num_resets nd) (_delayed_outputs nd)));;
        _add_child node self index_child
  end.

(** ** [elfi/core.py]: the output cache *)

(** [DelayedOutputCache.__len__] *)
Definition cache_len (c : cache) : Z :=
  foldl (λ l o, l + slen (get_key_slice (delayed_key o))) 0 (c_delayed_outputs c).

Definition non_matching_slice : exn := ValueError "Appending a non matching slice".

(** [DelayedOutputCache.append], on the cache of node [self].  The write to
    the store persists the realised output; the completion callback
    [_set_stored] is a separate step. *)
Definition append (self : nat) (output : delayed) : M unit :=
  nd ← get_node self;
  let c := _delayed_outputs nd in
  if negb (cache_len c =? start (get_key_slice (delayed_key output)))
  then raise non_matching_slice
  else
    set_node self
      (Node (name nd) (parents nd) (children nd) (graph nd) (class nd)
         (operation nd) (observed nd) (_generate_index nd) (_num_resets nd)
         (Cache (c_delayed_outputs c ++ [output]) (c_stored_mask c ++ [false])
            (c_store c) (c_node_id c)));;
    match c_store c with
    | None => mret tt
    | Some r =>
        st ← gets stores;
        set_store r (store_write (st !!! r) (delayed_key output) (compute st output))
    end.

(** [DelayedOutputCache.reset] *)
Definition cache_reset (self : nat) (new_node_id : node_id) : M unit :=
  nd ← get_node self;
  let c := _delayed_outputs nd in
  set_node self
    (Node (name nd) (parents nd) (children nd) (graph nd) (class nd)
       (operation nd) (observed nd) (_generate_index nd) (_num_resets nd)
       (Cache [] [] (c_store c) (c_node_id c)));;
  match c_store c with
  | None => mret tt
  | Some r =>
      st ← gets stores;
      set_store r (store_reset (st !!! r) (c_node_id c))
  end;;
  nd ← get_node self;
  let c := _delayed_outputs nd in
  set_node self
    (Node (name nd) (parents nd) (children nd) (graph nd) (class nd)
       (operation nd) (observed nd) (_generate_index nd) (_num_resets nd)
       (Cache (c_delayed_outputs c) (c_stored_mask c) (c_store c) new_node_id)).

(** [DelayedOutputCache._get_output_datalist] *)
Fixpoint datalist_from (c : cache) (sl : slice) (i : nat) (outputs : list delayed)
  : result (list delayed) :=
  match outputs with
  | [] => Ok []
  | output :: outputs' =>
      let output_sl := get_key_slice (delayed_key output) in
      let intsect_sl := slice_intersect output_sl sl 0 in
      if slen intsect_sl =? 0 then datalist_from c sl (S i) outputs'
      else
        rbind (match c_stored_mask c !! i with
               | None => Err IndexError
               | Some true =>
                   match c_store c with
                   | None => Err AttributeError
                   | Some r => Ok (DStored r (c_node_id c) output_sl)
                   end
               | Some false => Ok (DNamedItem output)
               end) (λ output_data,
        let output_data :=
          if negb (slen intsect_sl =? slen output_sl) then
            let intsect_key := reset_key_slice (delayed_key output_data) intsect_sl in
            let sub_sl := slice_intersect intsect_sl intsect_sl (start output_sl) in
            DGetitem intsect_key output_data sub_sl
          else output_data in
        rbind (datalist_from c sl (S i) outputs') (λ data_list,
        Ok (output_data :: data_list)))
  end.

Definition _get_output_datalist (c : cache) (sl : slice) : result (list delayed) :=
  datalist_from c sl 0 (c_delayed_outputs c).

(** [DelayedOutputCache.__getitem__] *)
Definition cache_getitem (c : cache) (sl : slice) : result delayed :=
  rbind (_get_output_datalist c sl) (λ outputs,
  match outputs with
  | [] => Ok DEmpty
  | [output] => Ok output
  | first :: _ => Ok (DVstack (reset_key_slice (delayed_key first) sl) outputs)
  end).

(** [DelayedOutputCache._set_stored] *)
Definition _set_stored (self : nat) (k : key) : M unit :=
  nd ← get_node self;
  let c := _delayed_outputs nd in
  match filter (λ io, delayed_key io.2 = k) (imap (λ i o, (i, o)) (c_delayed_outputs c)) with
  | [(i, _)] =>
      if decide (i < length (c_stored_mask c))%nat then
        set_node self
          (Node (name nd) (parents nd) (children nd) (graph nd) (class nd)
             (operation nd) (observed nd) (_generate_index nd) (_num_resets nd)
             (Cache (c_delayed_outputs c) (<[i := true]> (c_stored_mask c))
                (c_store c) (c_node_id c)))
      else raise IndexError
  | _ => raise LookupError
  end.

(** ** [elfi/core.py]: [Operation] *)

(** The properties [Operation.version] and [Operation.id]. *)
Definition version (nd : node) : nat := _num_resets nd.

Definition id (s : state) (self : nat) : node_id :=
  let nd := nodes s !!! self in
  make_key_id (g_name (graphs s !!! graph nd)) (name nd) (version nd).

(** [Operation.__getitem__] *)
Definition getitem (self : nat) (sl : slice) : M delayed :=
  nd ← get_node self;
  lift (cache_getitem (_delayed_outputs nd) sl).

(** [to_output_dict(input_dict, data=data)] *)
Definition to_output_dict {D} (input_dict : pydict D) (data : arr) : pydict arr :=
  PyDict data (d_n input_dict) (d_index input_dict)
    (d_random_state input_dict) (d_observed input_dict).

(** Modelled from the spec: [InferenceTask.new_substream_index] is missing;
    it claims the next value of a monotonic sub-stream counter. *)
Definition new_substream_index (g : nat) : M nat :=
  G ← gets (λ s, graphs s !!! g);
  set_graph g (GraphObj (g_name G) (g_nodes G) (g_seed G) (S (g_substreams G)));;
  mret (g_substreams G).

(** [RandomStateMixin._get_random_state] *)
Definition _get_random_state (self : nat) : M rstate :=
  nd ← get_node self;
  G ← gets (λ s, graphs s !!! graph nd);
  i ← new_substream_index (graph nd);
  mret (g_seed G, i).

(** [_create_input_dict], with the overrides of [RandomStateMixin] (class
    [Simulator]) and of [Discrepancy]; [get_slice_rec] is the method
    [get_slice] of the parents. *)
Definition _create_input_dict
    (get_slice_rec : nat → slice → option (gmap string arr) → M delayed)
    (self : nat) (sl : slice) (with_values : option (gmap string arr))
  : M (pydict (list delayed)) :=
  let n := stop sl - start sl in
  nd ← get_node self;
  input_data ← mapM (λ p, get_slice_rec p sl with_values) (parents nd);
  let dct := PyDict input_data n (start sl) None None in
  match class nd with
  | CSimulator =>
      random_state ← _get_random_state self;
      mret (PyDict (d_data dct) (d_n dct) (d_index dct) (Some random_state)
              (d_observed dct))
  | CDiscrepancy =>
      nd ← get_node self;
      observed ← mapM (λ p, p ← get_node p;
                            match observed p with
                            | Some o => mret o
                            | None => raise AttributeError
                            end) (parents nd);
      mret (PyDict (d_data dct) (d_n dct) (d_index dct) (d_random_state dct)
              (Some observed))
  | _ => mret dct
  end.

(** [Operation._create_delayed_output] *)
Definition _create_delayed_output (self : nat) (sl : slice)
    (input_dict : pydict (list delayed)) (with_values : option (gmap string arr))
  : M delayed :=
  let with_values := default ∅ with_values in
  self_id ← gets (λ s, id s self);
  let dask_key := make_key self_id sl in
  nd ← get_node self;
  match with_values !! name nd with
  | Some v => mret (DOutput dask_key (to_output_dict input_dict v))
  | None => mret (DCall dask_key (operation nd) input_dict)
  end.

(** [Operation.get_slice]; the fuel bounds the depth of the recursion into
    the parents. *)
Fixpoint get_slice (fuel : nat) (self : nat) (sl : slice)
    (with_values : option (gmap string arr)) : M delayed :=
  match fuel with
  | O => raise OutOfFuel
  | S fuel =>
      nd ← get_node self;
      (if cache_len (_delayed_outputs nd) <? stop sl then
         let with_values :=
           normalize_data_dict with_values
             (stop sl - cache_len (_delayed_outputs nd)) in
         let new_sl := Slice (cache_len (_delayed_outputs nd)) (stop sl) in
         new_input ← _create_input_dict (get_slice fuel) self new_sl with_values;
         new_output ← _create_delayed_output self new_sl new_input with_values;
         append self new_output
       else mret tt);;
      getitem self sl
  end.

Definition set_generate_index (self : nat) (b : Z) : M unit :=
  nd ← get_node self;
  set_node self
    (Node (name nd) (parents nd) (children nd) (graph nd) (class nd)
       (operation nd) (observed nd) b (_num_resets nd) (_delayed_outputs nd)).

(** The loop of [Operation.generate]; its fuel bounds the number of
    batches. *)
Fixpoint generate_loop (loop_fuel fuel : nat) (self : nat) (a b batch_size : Z)
    (with_values : option (gmap string arr)) : M unit :=
  nd ← get_node self;
  let l := cache_len (_delayed_outputs nd) in
  if l <? b then
    match loop_fuel with
    | O => raise OutOfFuel
    | S loop_fuel =>
        let n_batch := Z.min (b - l) batch_size in
        let batch_sl := Slice l (l + n_batch) in
        let batch_values :=
          match with_values with
          | None => None
          | Some d =>
              Some ((λ v, arr_getitem v (Slice (l - a) (l - a + n_batch))) <$> d)
          end in
        get_slice fuel self batch_sl batch_values;;
        generate_loop loop_fuel fuel self a b batch_size with_values
    end
  else mret tt.

(** [Operation.generate] *)
Definition generate (loop_fuel fuel : nat) (self : nat) (n : Z)
    (batch_size : option Z) (with_values : option (gmap string arr)) : M delayed :=
  nd ← get_node self;
  let a := _generate_index nd in
  let b := a + n in
  let batch_size :=
    match batch_size with
    | None => n
    | Some bs => if bs =? 0 then n else bs
    end in
  let with_values := normalize_data_dict with_values n in
  generate_loop loop_fuel fuel self a b batch_size with_values;;
  set_generate_index self b;;
  getitem self (Slice a b).

(** [Operation.acquire] *)
Definition acquire (loop_fuel fuel : nat) (self : nat) (n starting : Z)
    (batch_size : option Z) (with_values : option (gmap string arr)) : M delayed :=
  let sl := Slice starting (starting + n) in
  nd ← get_node self;
  (if _generate_index nd <? stop sl then
     generate loop_fuel fuel self (stop sl - _generate_index nd) batch_size
       with_values;;
     mret tt
   else mret tt);;
  get_slice fuel self sl None.

(** [Operation.reset]; the fuel bounds the depth of the recursion into the
    children. *)
Fixpoint reset (fuel : nat) (self : nat) (propagate : bool) : M unit :=
  match fuel with
  | O => raise OutOfFuel
  | S fuel =>
      (if propagate then
         nd ← get_node self;
         forM_ (λ c, reset fuel c true) (children nd)
       else mret tt);;
      set_generate_index self 0;;
      nd ← get_node self;
      set_node self
        (Node (name nd) (parents nd) (children nd) (graph nd) (class nd)
           (operation nd) (observed nd) (_generate_index nd) (S (_num_resets nd))
           (_delayed_outputs nd));;
      new_id ← gets (λ s, id s self);
      cache_reset self new_id
  end.

(** The node object that [Constant.__init__] builds for an inference task
    (its registration with the graph is [add_node]). *)
Definition Constant (s : state) (task : nat) (name : string) (value : arr) : node :=
  let value :=
    match value with
    | Arr rows => normalize_data value (Z.of_nat (length rows))
    | Item _ => normalize_data value 1
    end in
  Node name [] [] task CConstant (OpConstant value) (Some (normalize_data value 1))
    0 0 (Cache [] [] None (make_key_id (g_name (graphs s !!! task)) name 0)).

(** ** [elfi/graph.py]: removal of edges and nodes *)

(** What a method that may also raise the plain [Exception] does: it
    returns, raises one of the exceptions of [exn], or raises
    [Exception(msg)]. *)
Inductive outcome (A : Type) :=
| Return (a : A)
| Raise (e : exn)
| RaiseException (msg : string).
Arguments Return {A} a.
Arguments Raise {A} e.
Arguments RaiseException {A} msg.

(** [Graph.remove_node] *)
Definition remove_node (self : nat) (node : nat) : M unit :=
  G ← gets (λ s, graphs s !!! self);
  node_name ← gets (λ s, name (nodes s !!! node));
  if bool_decide (is_Some (g_nodes G !! node_name)) then
    set_graph self
      (GraphObj (g_name G) (delete node_name (g_nodes G)) (g_seed G) (g_substreams G))
  else raise IndexError.

(** The position that [l[index]] and [del l[index]] address in a list of
    length [len]: negative indices count from the end, and an index outside
    of the list raises [IndexError]. *)
Definition py_index (len index : Z) : option nat :=
  if (0 <=? index) && (index <? len) then Some (Z.to_nat index)
  else if (- len <=? index) && (index <? 0) then Some (Z.to_nat (len + index))
  else None.

(** The argument of [remove_parent]: a node or an integer. *)
Inductive parent_or_index :=
| ByNode (parent : nat)
| ByIndex (index : Z).

(** The loop [for i, p in enumerate(self.parents)] that looks for the node. *)
Fixpoint find_parent (node : nat) (i : Z) (ps : list nat) : option Z :=
  match ps with
  | [] => None
  | p :: ps' => if bool_decide (p = node) then Some i else find_parent node (i + 1) ps'
  end.

(** [list.remove(x)]: the first occurrence goes. *)
Fixpoint list_remove_first (x : nat) (l : list nat) : option (list nat) :=
  match l with
  | [] => None
  | y :: l' =>
      if bool_decide (y = x) then Some l'
      else match list_remove_first x l' with
           | Some l'' => Some (y :: l'')
           | None => None
           end
  end.

Definition not_in_list : exn := ValueError "list.remove(x): x not in list".

(** [Node.remove_parent] *)
Definition remove_parent (self : nat) (arg : parent_or_index)
  : state → state * outcome Z :=
  λ s,
  let nd := nodes s !!! self in
  let index :=
    match arg with
    | ByNode node => find_parent node 0 (parents nd)
    | ByIndex index => Some index
    end in
  match index with
  | None => (s, RaiseException "Could not find a parent")
  | Some index =>
      match py_index (Z.of_nat (length (parents nd))) index with
      | None => (s, Raise IndexError)
      | Some j =>
          let parent := default 0%nat (parents nd !! j) in
          let s1 :=
            State (<[self := Node (name nd) (delete j (parents nd)) (children nd)
                               (graph nd) (class nd) (operation nd) (observed nd)
                               (_generate_index nd) (_num_resets nd)
                               (_delayed_outputs nd)]> (nodes s))
              (graphs s) (stores s) in
          let pd := nodes s1 !!! parent in
          match list_remove_first self (children pd) with
          | None => (s1, Raise not_in_list)
          | Some children' =>
              (State (<[parent := Node (name pd) (parents pd) children' (graph pd)
                                    (class pd) (operation pd) (observed pd)
                                    (_generate_index pd) (_num_resets pd)
                                    (_delayed_outputs pd)]> (nodes s1))
                 (graphs s1) (stores s1),
               Return index)
          end
      end
  end.

(** [Node.remove]; the fuel bounds the loop
    [while len(self.parents) > 0: self.remove_parent(0)]. *)
Fixpoint remove_parents_loop (fuel : nat) (self : nat) : state → state * outcome unit :=
  λ s,
  if 0 <? Z.of_nat (length (parents (nodes s !!! self))) then
    match fuel with
    | O => (s, Raise OutOfFuel)
    | S fuel =>
        match remove_parent self (ByIndex 0) s with
        | (s1, Return _) => remove_parents_loop fuel self s1
        | (s1, Raise e) => (s1, Raise e)
        | (s1, RaiseException msg) => (s1, RaiseException msg)
        end
    end
  else (s, Return tt).

Fixpoint remove_from_children (self : nat) (cs : list nat)
  : state → state * outcome unit :=
  λ s,
  match cs with
  | [] => (s, Return tt)
  | c :: cs' =>
      match remove_parent c (ByNode self) s with
      | (s1, Return _) => remove_from_children self cs' s1
      | (s1, Raise e) => (s1, Raise e)
      | (s1, RaiseException msg) => (s1, RaiseException msg)
      end
  end.

Definition remove (fuel : nat) (self : nat) (keep_parents keep_children : bool)
  : state → state * outcome unit :=
  λ s,
  match (if keep_parents then (s, Return tt) else remove_parents_loop fuel self s) with
  | (s1, Return _) =>
      if keep_children then (s1, Return tt)
      else remove_from_children self (children (nodes s1 !!! self)) s1
  | (s1, Raise e) => (s1, Raise e)
  | (s1, RaiseException msg) => (s1, RaiseException msg)
  end.

(** [Node.is_root], [Node.is_leaf] and the property [Node.component]. *)
Definition is_root (s : state) (self : nat) : bool :=
  bool_decide (length (parents (nodes s !!! self)) = 0%nat).

Definition is_leaf (s : state) (self : nat) : bool :=
  bool_decide (length (children (nodes s !!! self)) = 0%nat).

Definition component (fuel : nat) (s : state) (self : nat) : result (list nat) :=
  rbind (ancestors fuel s self) (λ a,
  rbind (descendants fuel s self) (λ d, Ok ([self] ++ a ++ d))).

(** ** Notions used to state the properties *)

(** [reach edges n m]: [m] is reached from [n] along one or more edges. *)
Inductive reach (edges : nat → list nat) : nat → nat → Prop :=
| reach_edge n m : m ∈ edges n → reach edges n m
| reach_step n k m : k ∈ edges n → reach edges k m → reach edges n m.

Definition child_edges (s : state) (i : nat) : list nat := children (nodes s !!! i).
Definition parent_edges (s : state) (i : nat) : list nat := parents (nodes s !!! i).

(** The traversal that [descendants] and [ancestors] share. *)
Fixpoint traverse (edges : nat → list nat) (fuel : nat) (self : nat)
  : result (list nat) :=
  match fuel with
  | O => Err OutOfFuel
  | S fuel =>
      foldl (λ acc n, rbind acc (λ acc,
                      rbind (traverse edges fuel n) (λ ds,
                      Ok (extend_new acc ds))))
            (Ok (edges self)) (edges self)
  end.

(** One step of the traversal: the nodes reached from [n] are added to the
    list. *)
Definition traverse_step (trav : nat → result (list nat))
    (acc : result (list nat)) (n : nat) : result (list nat) :=
  rbind acc (λ acc, rbind (trav n) (λ ds, Ok (extend_new acc ds))).

(** Parent and child lists mirror each other. *)
Definition consistent (s : state) : Prop :=
  ∀ i j, j ∈ parents (nodes s !!! i) ↔ i ∈ children (nodes s !!! j).

(** [suffixed name k]: [name] followed by [k] copies of ["_old"]. *)
Fixpoint suffixed (name : string) (k : nat) : string :=
  match k with
  | O => name
  | S k => suffixed (name ++ "_old") k
  end.

(** The registered names at least as long as [name]. *)
Definition names_from (nodes : gmap string nat) (name : string) : gset string :=
  filter (λ k, (String.length name ≤ String.length k)%nat) (dom nodes).

(** The output that [_create_delayed_output] builds in state [s]. *)
Definition new_output (s : state) (self : nat) (sl : slice)
    (input_dict : pydict (list delayed)) (with_values : option (gmap string arr))
  : delayed :=
  let nd := nodes s !!! self in
  match default ∅ with_values !! name nd with
  | Some v => DOutput (make_key (id s self) sl) (to_output_dict input_dict v)
  | None => DCall (make_key (id s self) sl) (operation nd) input_dict
  end.

(** The tuple [p.observed for p in parents]. *)
Fixpoint observed_tuple (s : state) (ps : list nat) : result (list arr) :=
  match ps with
  | [] => Ok []
  | p :: ps' =>
      match observed (nodes s !!! p) with
      | Some o => rbind (observed_tuple s ps') (λ os, Ok (o :: os))
      | None => Err AttributeError
      end
  end.

(** The state after [new_substream_index] on graph [g]. *)
Definition bump_substream (g : nat) (s : state) : state :=
  let G := graphs s !!! g in
  State (nodes s)
    (<[g := GraphObj (g_name G) (g_nodes G) (g_seed G) (S (g_substreams G))]> (graphs s))
    (stores s).

(** The range of a cached output. *)
Definition output_slice (o : delayed) : slice := get_key_slice (delayed_key o).

(** The state after a successful [append] of [output] to the cache of
    [self]. *)
Definition appended (self : nat) (output : delayed) (s : state) : state :=
  let nd := nodes s !!! self in
  let c := _delayed_outputs nd in
  let nodes' :=
    <[self := Node (name nd) (parents nd) (children nd) (graph nd) (class nd)
                (operation nd) (observed nd) (_generate_index nd) (_num_resets nd)
                (Cache (c_delayed_outputs c ++ [output]) (c_stored_mask c ++ [false])
                   (c_store c) (c_node_id c))]> (nodes s) in
  match c_store c with
  | None => State nodes' (graphs s) (stores s)
  | Some r =>
      State nodes' (graphs s)
        (<[r := store_write (stores s !!! r) (delayed_key output)
                  (compute (stores s) output)]> (stores s))
  end.

(** Chunks that follow one another from index [a] on, each of positive
    length: contiguous and non-overlapping. *)
Fixpoint contiguous_from (a : Z) (outputs : list delayed) : Prop :=
  match outputs with
  | [] => True
  | o :: outputs' =>
      start (output_slice o) = a ∧ a < stop (output_slice o) ∧
      contiguous_from (stop (output_slice o)) outputs'
  end.

(** The invariant of the output cache of a node: its chunks are contiguous
    from 0, every chunk has its stored flag, which is set only in the
    presence of a store, and the generated length does not exceed the cached
    length. *)
Definition node_ok (nd : node) : Prop :=
  contiguous_from 0 (c_delayed_outputs (_delayed_outputs nd)) ∧
  length (c_stored_mask (_delayed_outputs nd))
    = length (c_delayed_outputs (_delayed_outputs nd)) ∧
  (c_store (_delayed_outputs nd) = None →
   Forall (λ b, b = false) (c_stored_mask (_delayed_outputs nd))) ∧
  _generate_index nd ≤ cache_len (_delayed_outputs nd).

Definition caches_ok (s : state) : Prop := ∀ i, node_ok (nodes s !!! i).

(** [x] lies in the range of chunk [o]. *)
Definition in_chunk (o : delayed) (x : Z) : Prop :=
  start (output_slice o) ≤ x < stop (output_slice o).

(** The ranges of the chunks are pairwise disjoint and their union is
    exactly the interval from 0 to [L]. *)
Definition partition_of (outputs : list delayed) (L : Z) : Prop :=
  (∀ x, 0 ≤ x < L ↔ ∃ o, o ∈ outputs ∧ in_chunk o x) ∧
  (∀ j j' o o' x, outputs !! j = Some o → outputs !! j' = Some o' →
                  in_chunk o x → in_chunk o' x → j = j').

(** What [get_slice] leaves alone: it only appends chunks (and persisted
    outputs) and claims sub-stream indices. *)
Definition cache_extends (c c' : cache) : Prop :=
  c_delayed_outputs c `prefix_of` c_delayed_outputs c' ∧
  c_stored_mask c `prefix_of` c_stored_mask c' ∧
  c_store c' = c_store c ∧ c_node_id c' = c_node_id c.

Definition node_extends (nd nd' : node) : Prop :=
  name nd' = name nd ∧ parents nd' = parents nd ∧ children nd' = children nd ∧
  graph nd' = graph nd ∧ class nd' = class nd ∧ operation nd' = operation nd ∧
  observed nd' = observed nd ∧ _generate_index nd' = _generate_index nd ∧
  _num_resets nd' = _num_resets nd ∧
  cache_extends (_delayed_outputs nd) (_delayed_outputs nd').

Definition graph_extends (G G' : graph_obj) : Prop :=
  g_name G' = g_name G ∧ g_nodes G' = g_nodes G ∧ g_seed G' = g_seed G ∧
  (g_substreams G ≤ g_substreams G')%nat.

Definition extends (s s' : state) : Prop :=
  (∀ i, node_extends (nodes s !!! i) (nodes s' !!! i)) ∧
  (∀ g, graph_extends (graphs s !!! g) (graphs s' !!! g)) ∧
  (∀ r, stores s !!! r `prefix_of` stores s' !!! r).

(** Total length of a list of chunks, counted from [a]. *)
Definition chunks_len (a : Z) (outputs : list delayed) : Z :=
  foldl (λ l o, l + slen (output_slice o)) a outputs.

(** The state after [self._generate_index = b]. *)
Definition with_generate_index (self : nat) (b : Z) (s : state) : state :=
  let nd := nodes s !!! self in
  State (<[self := Node (name nd) (parents nd) (children nd) (graph nd) (class nd)
                     (operation nd) (observed nd) b (_num_resets nd)
                     (_delayed_outputs nd)]> (nodes s))
    (graphs s) (stores s).

(** [batch_size or n] *)
Definition batch_size_or (batch_size : option Z) (n : Z) : Z :=
  match batch_size with
  | None => n
  | Some bs => if bs =? 0 then n else bs
  end.

(** The graph is acyclic: [rank] decreases from a node to its parents. *)
Definition ranked (rank : nat → nat) (s : state) : Prop :=
  ∀ i p, p ∈ parents (nodes s !!! i) → (rank p < rank i)%nat.

(** The nodes of rank at least [bound] are the same in [s] and [s']. *)
Definition above (rank : nat → nat) (bound : nat) (s s' : state) : Prop :=
  ∀ j, (bound ≤ rank j)%nat → nodes s' !!! j = nodes s !!! j.

(** The parents of a discrepancy node carry an observed value. *)
Definition observed_ok (s : state) : Prop :=
  ∀ i p, class (nodes s !!! i) = CDiscrepancy → p ∈ parents (nodes s !!! i) →
         is_Some (observed (nodes s !!! p)).

(** Decidable forms of the conditions above, for a given heap. *)
Definition fresh_node (nd : node) : Prop :=
  length (c_delayed_outputs (_delayed_outputs nd)) = 0%nat ∧
  length (c_stored_mask (_delayed_outputs nd)) = 0%nat ∧
  _generate_index nd = 0.

Definition fresh_heap (s : state) : Prop :=
  map_Forall (λ _ nd, fresh_node nd) (nodes s).

Definition ranked_heap (rank : nat → nat) (s : state) : Prop :=
  map_Forall (λ i nd, Forall (λ p, rank p < rank i)%nat (parents nd)) (nodes s).

Definition no_discrepancy (s : state) : Prop :=
  map_Forall (λ _ nd, class nd ≠ CDiscrepancy) (nodes s).

(** A call [node.generate(n, batch_size, with_values)] with the fuel of its
    run, and the state after a sequence of such calls (a call that raises
    leaves the state it reached). *)
Record generate_call := GenerateCall {
  gc_node : nat;
  gc_n : Z;
  gc_batch_size : option Z;
  gc_with_values : option (gmap string arr);
  gc_loop_fuel : nat;
  gc_fuel : nat
}.

Fixpoint run_generates (calls : list generate_call) (s : state) : state :=
  match calls with
  | [] => s
  | c :: calls' =>
      run_generates calls'
        (generate (gc_loop_fuel c) (gc_fuel c) (gc_node c) (gc_n c)
           (gc_batch_size c) (gc_with_values c) s).1
  end.

(** ** Example states *)

Definition ex_task : graph_obj := GraphObj "task" {[ "c" := 0%nat; "s" := 1%nat ]} 0 0.

Definition ex_graphs : gmap nat graph_obj := {[ 0%nat := ex_task ]}.

(** A constant node [c] holding 3, on its own. *)
Definition ex_constant : state :=
  State {[ 0%nat := Constant (State ∅ ex_graphs ∅) 0 "c" (Item (SNum 3)) ]} ex_graphs ∅.

(** The constant [c] with a child [s], an operation that hands on its
    parent's rows. *)
Definition ex_first_parent : callable :=
  OpUser (λ input_dict, match d_data input_dict with
                        | a :: _ => Ok a
                        | [] => Err IndexError
                        end).

Definition ex_chain : state :=
  let c := Constant (State ∅ ex_graphs ∅) 0 "c" (Item (SNum 3)) in
  State {[ 0%nat := Node (name c) (parents c) [1%nat] (graph c) (class c)
                      (operation c) (observed c) 0 0 (_delayed_outputs c);
           1%nat := Node "s" [0%nat] [] 0%nat COperation ex_first_parent None 0 0
                      (Cache [] [] None (make_key_id "task" "s" 0)) ]}
    ex_graphs ∅.

(** The state after the own part of [reset] on [self]: counters, cache and
    store. *)
Definition reset_self (self : nat) (s : state) : state :=
  let nd := nodes s !!! self in
  let c := _delayed_outputs nd in
  let new_id :=
    make_key_id (g_name (graphs s !!! graph nd)) (name nd) (S (_num_resets nd)) in
  State
    (<[self := Node (name nd) (parents nd) (children nd) (graph nd) (class nd)
                 (operation nd) (observed nd) 0 (S (_num_resets nd))
                 (Cache [] [] (c_store c) new_id)]> (nodes s))
    (graphs s)
    (match c_store c with
     | None => stores s
     | Some r => <[r := store_reset (stores s !!! r) (c_node_id c)]> (stores s)
     end).

(** Node [i] has been reset between [s] and [s']. *)
Definition reset_at (s s' : state) (i : nat) : Prop :=
  let nd := nodes s !!! i in
  let nd' := nodes s' !!! i in
  _generate_index nd' = 0 ∧
  c_delayed_outputs (_delayed_outputs nd') = [] ∧
  c_stored_mask (_delayed_outputs nd') = [] ∧
  (_num_resets nd < _num_resets nd')%nat ∧
  c_node_id (_delayed_outputs nd') = id s' i ∧
  ∀ r, c_store (_delayed_outputs nd) = Some r →
       ∀ e, e ∈ stores s' !!! r → key_id e.1 ≠ c_node_id (_delayed_outputs nd).

(** What [reset] leaves alone. *)
Definition same_structure (nd nd' : node) : Prop :=
  name nd' = name nd ∧ parents nd' = parents nd ∧ children nd' = children nd ∧
  graph nd' = graph nd ∧ class nd' = class nd ∧ operation nd' = operation nd ∧
  observed nd' = observed nd ∧
  c_store (_delayed_outputs nd') = c_store (_delayed_outputs nd).

Definition resets (s s' : state) : Prop :=
  (∀ i, same_structure (nodes s !!! i) (nodes s' !!! i)) ∧
  graphs s' = graphs s ∧
  (∀ r e, e ∈ stores s' !!! r → e ∈ stores s !!! r) ∧
  (∀ i, nodes s' !!! i = nodes s !!! i ∨ reset_at s s' i).

(** An array of [m] rows that are arrays themselves: what [normalize_data]
    returns for [m] samples, and leaves as it is. *)
Definition normal (m : Z) (v : arr) : Prop :=
  Z.of_nat (length (arr_rows v)) = m ∧ ∀ r, r ∈ arr_rows v → 1 ≤ ndim r.

(** The rows of a numpy array have one shape. *)
Definition rows_alike (v : arr) : Prop :=
  ∀ r r', r ∈ arr_rows v → r' ∈ arr_rows v → shape r = shape r'.

(** Between [s0] and [s] the cache of node [i] has grown by one chunk for the
    range from [l] to [e]: the literal value that [with_values] has for the
    node's name, or else a call of the node's own operation. *)
Definition extended_by (with_values : gmap string arr) (l e : Z)
    (s0 s : state) (i : nat) : Prop :=
  let nd0 := nodes s0 !!! i in
  let nd := nodes s !!! i in
  ∃ o, c_delayed_outputs (_delayed_outputs nd)
         = c_delayed_outputs (_delayed_outputs nd0) ++ [o] ∧
       c_stored_mask (_delayed_outputs nd)
         = c_stored_mask (_delayed_outputs nd0) ++ [false] ∧
       output_slice o = Slice l e ∧
       match with_values !! name nd0 with
       | Some v => ∃ k out, o = DOutput k out ∧ d_data out = v
       | None => ∃ k input_dict, o = DCall k (operation nd0) input_dict
       end.

(** The invariant of one batch [get_slice(slice(l, e), with_values)] from a
    state [s0] in which the nodes of the set [inS] all have cached length
    [l]: each of them is as in [s0] or has grown by the chunk of the batch,
    and a node that has grown has parents that have grown. *)
Definition sync_inv (with_values : gmap string arr) (l e : Z) (s0 : state)
    (inS : nat → Prop) (s : state) : Prop :=
  extends s0 s ∧
  (∀ i, inS i →
        nodes s !!! i = nodes s0 !!! i ∨ extended_by with_values l e s0 s i) ∧
  (∀ i p, inS i → extended_by with_values l e s0 s i →
          p ∈ parents (nodes s0 !!! i) → extended_by with_values l e s0 s p).

(** Two constants [X] and [Y] with a common child [Z]. *)
Definition ex_siblings_task : gmap nat graph_obj :=
  {[ 0%nat := GraphObj "task" {[ "X" := 0%nat; "Y" := 1%nat; "Z" := 2%nat ]} 0 0 ]}.

Definition ex_siblings : state :=
  let x := Constant (State ∅ ex_siblings_task ∅) 0 "X" (Item (SNum 3)) in
  let y := Constant (State ∅ ex_siblings_task ∅) 0 "Y" (Item (SNum 5)) in
  State {[ 0%nat := Node (name x) (parents x) [2%nat] (graph x) (class x)
                      (operation x) (observed x) 0 0 (_delayed_outputs x);
           1%nat := Node (name y) (parents y) [2%nat] (graph y) (class y)
                      (operation y) (observed y) 0 0 (_delayed_outputs y);
           2%nat := Node "Z" [0%nat; 1%nat] [] 0%nat COperation ex_first_parent None
                      0 0 (Cache [] [] None (make_key_id "task" "Z" 0)) ]}
    ex_siblings_task ∅.

Definition ex_override : gmap string arr :=
  {[ "X" := Arr [Item (SNum 7); Item (SNum 8)] ]}.

(** The realised inputs of a call: every parent output, as an array. *)
Definition compute_all (stores : gmap nat store) (ds : list delayed)
  : result (list arr) :=
  rmap (λ p, rbind (compute stores p) as_arr) ds.

(** What the user function of a simulator, summary or discrepancy returns on
    an input dictionary. *)
Definition user_output (op : callable) (input : pydict (list arr))
  : option (result pyobj) :=
  match op with
  | OpSimulator simulator =>
      (λ prng, simulator (d_data input) (d_n input) prng) <$> d_random_state input
  | OpSummary summary => Some (summary (d_data input))
  | OpDiscrepancy discrepancy =>
      (λ obs, discrepancy (d_data input) obs) <$> d_observed input
  | _ => None
  end.

(** The output is not an array of at least two dimensions with [n] rows. *)
Definition violates (n : Z) (out : pyobj) : Prop :=
  match out with
  | PyOther => True
  | PyArray a => ¬ (shape0 a = Ok n ∧ 2 ≤ ndim a)
  end.

(** The errors by which the leaf operations report a broken contract. *)
Definition contract_error (e : exn) : Prop :=
  (∃ what, e = type_error what) ∨ (∃ what, e = format_error what) ∨ e = IndexError.

(** A simulator whose function returns a one-dimensional array. *)
Definition ex_bad_simulator : state :=
  State {[ 0%nat := Node "sim" [] [] 0%nat CSimulator
                      (OpSimulator (λ _ _ _, Ok (PyArray (Arr [Item (SNum 1); Item (SNum 1)]))))
                      (Some (Arr [Arr [Item (SNum 1)]])) 0 0
                      (Cache [] [] None (make_key_id "task" "sim" 0)) ]}
    {[ 0%nat := GraphObj "task" {[ "sim" := 0%nat ]} 0 0 ]} ∅.

(** The value that a call hands back, once realised in the state that the
    call leaves. *)
Definition realise (run : state * result delayed) : result value :=
  rbind run.2 (compute (stores run.1)).

(** A root node of class [Constant] without a store. *)
Definition constant_node (v : arr) (nd : node) : Prop :=
  parents nd = [] ∧ class nd = CConstant ∧ operation nd = OpConstant v ∧
  c_store (_delayed_outputs nd) = None.

(** The chunk that a constant node appends for [m] samples from index [l]. *)
Definition constant_chunk (id : node_id) (v : arr) (l m : Z) : delayed :=
  DCall (make_key id (Slice l (l + m))) (OpConstant v) (PyDict [] m l None None).

Definition child_ranked_heap (rank : nat → nat) (s : state) : Prop :=
  map_Forall (λ i nd, Forall (λ c, rank c < rank i)%nat (children nd)) (nodes s).

Definition consistent_heap (s : state) : Prop :=
  map_Forall (λ i nd, Forall (λ p, i ∈ children (nodes s !!! p)) (parents nd) ∧
                      Forall (λ c, i ∈ parents (nodes s !!! c)) (children nd))
    (nodes s).

Definition rows_alike_dict (with_values : gmap string arr) : Prop :=
  map_Forall (λ _ v, Forall (λ r, shape r = shape (default v (head (arr_rows v))))
                       (arr_rows v)) with_values.

(** The chain, with a second node named ["c"] that is not registered. *)
Definition ex_collision : state :=
  State (<[5%nat := Constant ex_chain 0 "c" (Item (SNum 4))]> (nodes ex_chain))
    (graphs ex_chain) (stores ex_chain).

(** The chain with a store behind the child [s], after three samples. *)
Definition ex_stored : state :=
  let nd := nodes ex_chain !!! 1%nat in
  let s := State (<[1%nat := Node (name nd) (parents nd) (children nd) (graph nd)
                               (class nd) (operation nd) (observed nd) 0 0
                               (Cache [] [] (Some 0%nat) (make_key_id "task" "s" 0))]>
                    (nodes ex_chain))
             (graphs ex_chain) (stores ex_chain) in
  (generate 3 2 1%nat 3 None None s).1.

(** Unfolding of the monad of methods. *)
Ltac munfold :=
  unfold mbind, M_bind, mret, M_ret, raise, gets, modify, lift, get_node,
    set_node, set_graph, set_store in *.

(** ** Further notions *)

(** No node reaches itself along child edges. *)
Definition acyclic (s : state) : Prop := ∀ n, ¬ reach (child_edges s) n n.

(** Two states hold the same objects: every node, graph and store reads the
    same. *)
Definition same_heap (s s' : state) : Prop :=
  (∀ i, nodes s' !!! i = nodes s !!! i) ∧
  (∀ g, graphs s' !!! g = graphs s !!! g) ∧
  (∀ r, stores s' !!! r = stores s !!! r).

(** The state in which node [self] has the parent list [ps]. *)
Definition with_parents (self : nat) (ps : list nat) (s : state) : state :=
  let nd := nodes s !!! self in
  State (<[self := Node (name nd) ps (children nd) (graph nd) (class nd)
                     (operation nd) (observed nd) (_generate_index nd)
                     (_num_resets nd) (_delayed_outputs nd)]> (nodes s))
    (graphs s) (stores s).

(** The state in which node [self] has the child list [cs]. *)
Definition with_children (self : nat) (cs : list nat) (s : state) : state :=
  let nd := nodes s !!! self in
  State (<[self := Node (name nd) (parents nd) cs (graph nd) (class nd)
                     (operation nd) (observed nd) (_generate_index nd)
                     (_num_resets nd) (_delayed_outputs nd)]> (nodes s))
    (graphs s) (stores s).

(** No node lists a parent or a child twice. *)
Definition no_repeats (s : state) : Prop :=
  ∀ i, NoDup (parents (nodes s !!! i)) ∧ NoDup (children (nodes s !!! i)).

Definition no_repeats_heap (s : state) : Prop :=
  map_Forall (λ _ nd, NoDup (parents nd) ∧ NoDup (children nd)) (nodes s).

(** The chain after its child [s] was made a parent of itself. *)
Definition ex_self_loop : state :=
  (add_parent 2 1%nat (Some 1%nat) None None ex_chain).1.

(** The chain with a store behind the child [s], in which a second node
    named ["s"] is then registered with the graph (the child is renamed),
    after three samples were generated from the child. *)
Definition ex_renamed : state :=
  let nd := nodes ex_chain !!! 1%nat in
  let s0 :=
    State (<[1%nat := Node (name nd) (parents nd) (children nd) (graph nd)
                        (class nd) (operation nd) (observed nd) 0 0
                        (Cache [] [] (Some 0%nat) (make_key_id "task" "s" 0))]>
             (<[5%nat := Constant ex_chain 0 "s" (Item (SNum 4))]> (nodes ex_chain)))
      (graphs ex_chain) (stores ex_chain) in
  let s1 := (add_node 3 0%nat 5%nat s0).1 in
  (generate 3 2 1%nat 3 None None s1).1.

(** [s'] is [s] without the link between [self] and its parent [p]. *)
Definition unlinked (self p : nat) (s s' : state) : Prop :=
  (∀ i k, k ∈ parents (nodes s' !!! i) ↔
          k ∈ parents (nodes s !!! i) ∧ ¬ (i = self ∧ k = p)) ∧
  (∀ i k, k ∈ children (nodes s' !!! i) ↔
          k ∈ children (nodes s !!! i) ∧ ¬ (i = p ∧ k = self)) ∧
  no_repeats s'.

(** Two constants and their common child after
    [X.add_parent(Y, index_child=5)], which raises after the parent was
    inserted: [X] lists [Y] as parent, [Y] does not list [X] as child. *)
Definition ex_half_edge : state :=
  (add_parent 2 0%nat (Some 1%nat) None (Some 5) ex_siblings).1.

(** * Properties of the graph layer *)

Lemma elem_of_extend_new acc l m :
  m ∈ extend_new acc l ↔ m ∈ acc ∨ m ∈ l.
Proof.
  unfold extend_new. revert acc.
  induction l as [|x l IH]; intros acc; simpl.
  - rewrite elem_of_nil. tauto.
  - rewrite IH, elem_of_cons. case_bool_decide.
    + split; [intros [?|?]; auto | intros [?|[->|?]]; auto].
    + rewrite elem_of_app, list_elem_of_singleton. tauto.
Qed.

Lemma descendants_traverse fuel s self :
  descendants fuel s self = traverse (child_edges s) fuel self.
Proof.
  revert self. induction fuel as [|fuel IH]; intros self; [reflexivity|].
  simpl. unfold child_edges.
  generalize (Ok (children (nodes s !!! self)) : result (list nat)).
  generalize (children (nodes s !!! self)) as l.
  induction l as [|c l IHl]; intros acc; simpl.
  - reflexivity.
  - rewrite IH. apply IHl.
Qed.

Lemma ancestors_traverse fuel s self :
  ancestors fuel s self = traverse (parent_edges s) fuel self.
Proof.
  revert self. induction fuel as [|fuel IH]; intros self; [reflexivity|].
  simpl. unfold parent_edges.
  generalize (Ok (parents (nodes s !!! self)) : result (list nat)).
  generalize (parents (nodes s !!! self)) as l.
  induction l as [|c l IHl]; intros acc; simpl.
  - reflexivity.
  - rewrite IH. apply IHl.
Qed.

Section traverse_facts.
Variable edges : nat → list nat.


Lemma traverse_fold_err fuel e l : foldl (traverse_step (traverse edges fuel)) (Err e) l = Err e.
Proof. induction l; simpl; auto. Qed.

Lemma traverse_fold_ok fuel l acc r :
  foldl (traverse_step (traverse edges fuel)) (Ok acc) l = Ok r →
  (∀ n, n ∈ l → ∃ ds, traverse edges fuel n = Ok ds) ∧
  (∀ m, m ∈ r ↔ m ∈ acc ∨ ∃ n ds, n ∈ l ∧ traverse edges fuel n = Ok ds ∧ m ∈ ds).
Proof.
  revert acc. induction l as [|x l IH]; intros acc; simpl.
  - intros [= <-]. split.
    + intros n Hn. by apply elem_of_nil in Hn.
    + intros m. split; [auto|]. intros [?|(n & ds & Hn & _)]; [done|].
      by apply elem_of_nil in Hn.
  - destruct (traverse edges fuel x) as [ds|e] eqn:Hx; simpl.
    2: { rewrite traverse_fold_err. done. }
    intros Hr. apply IH in Hr as [Hall Hmem]. split.
    + intros n [->|Hn]%elem_of_cons; eauto.
    + intros m. rewrite Hmem, elem_of_extend_new. split.
      * intros [[?|?]|(n & ds' & Hn & Hd & Hm)]; auto.
        -- right. exists x, ds. rewrite elem_of_cons. auto.
        -- right. exists n, ds'. rewrite elem_of_cons. auto.
      * intros [?|(n & ds' & [->|Hn]%elem_of_cons & Hd & Hm)]; auto.
        -- rewrite Hx in Hd. injection Hd as <-. auto.
        -- right. eauto.
Qed.

Lemma traverse_sound fuel n l m :
  traverse edges fuel n = Ok l → m ∈ l → reach edges n m.
Proof.
  revert n l m. induction fuel as [|fuel IH]; intros n l m; simpl; [done|].
  intros H Hm. apply traverse_fold_ok in H as [_ Hmem].
  apply Hmem in Hm as [Hm|(k & ds & Hk & Hd & Hm)].
  - by apply reach_edge.
  - eapply reach_step; eauto.
Qed.

Lemma traverse_complete fuel n l m :
  traverse edges fuel n = Ok l → reach edges n m → m ∈ l.
Proof.
  revert n l m. induction fuel as [|fuel IH]; intros n l m; simpl; [done|].
  intros H Hreach. apply traverse_fold_ok in H as [Hall Hmem].
  apply Hmem. destruct Hreach as [n m Hm|n k m Hk Hkm]; [auto|].
  right. destruct (Hall k Hk) as [ds Hds]. exists k, ds. eauto.
Qed.
End traverse_facts.

Lemma reach_flip s n m :
  consistent s → reach (parent_edges s) n m → reach (child_edges s) m n.
Proof.
  intros Hc. induction 1 as [n m Hm|n k m Hk Hkm IH].
  - apply reach_edge. by apply Hc.
  - clear Hkm. induction IH as [m k' Hk'| m j k' Hj Hjk IH'].
    + eapply reach_step; [exact Hk'|]. apply reach_edge. by apply Hc.
    + eapply reach_step; [exact Hj|]. by apply IH'.
Qed.
Lemma traverse_fold_total edges fuel l acc :
  (∀ n, n ∈ l → ∃ ds, traverse edges fuel n = Ok ds) →
  ∃ r, foldl (λ acc n, rbind acc (λ acc, rbind (traverse edges fuel n)
                       (λ ds, Ok (extend_new acc ds)))) (Ok acc) l = Ok r.
Proof.
  revert acc. induction l as [|x l IH]; intros acc Hall; simpl; [eauto|].
  destruct (Hall x) as [ds ->]; [left|]. simpl. apply IH.
  intros n Hn. apply Hall. by right.
Qed.

Lemma traverse_terminates edges (rank : nat → nat) fuel n :
  (∀ i c, c ∈ edges i → (rank c < rank i)%nat) →
  (rank n < fuel)%nat →
  ∃ l, traverse edges fuel n = Ok l.
Proof.
  intros Hrank. revert n. induction fuel as [|fuel IH]; intros n Hn; [lia|].
  simpl. apply traverse_fold_total. intros c Hc. apply IH.
  specialize (Hrank n c Hc). lia.
Qed.

Lemma add_parent_unfold fuel self node index index_child s ds :
  descendants fuel s self = Ok ds →
  add_parent fuel self (Some node) index index_child s =
  if bool_decide (node ∈ ds) then (s, Err cyclic_structure)
  else
    let nd := nodes s !!! self in
    if bool_decide (node ∈ parents nd) then _add_child node self index_child s
    else
      match index with
      | Some index =>
          if (index <? 0) || (Z.of_nat (length (parents nd)) <? index)
          then (s, Err index_out_of_bounds)
          else
            _add_child node self index_child
              (State (<[self := Node (name nd) (py_insert (parents nd) index node)
                                  (children nd) (graph nd) (class nd) (operation nd)
                                  (observed nd) (_generate_index nd) (_num_resets nd)
                                  (_delayed_outputs nd)]> (nodes s))
                 (graphs s) (stores s))
      | None =>
          _add_child node self index_child
            (State (<[self := Node (name nd)
                                (py_insert (parents nd) (Z.of_nat (length (parents nd))) node)
                                (children nd) (graph nd) (class nd) (operation nd)
                                (observed nd) (_generate_index nd) (_num_resets nd)
                                (_delayed_outputs nd)]> (nodes s))
               (graphs s) (stores s))
      end.
Proof.
  intros Hds. unfold add_parent, mbind, M_bind. rewrite Hds.
  case_bool_decide; [done|].
  unfold get_node, gets. simpl.
  case_bool_decide; [done|].
  destruct index as [index|]; simpl; [|done].
  destruct ((index <? 0) || _); done.
Qed.





Lemma string_length_append (a b : string) :
  String.length (a +:+ b) = (String.length a + String.length b)%nat.
Proof. induction a as [|c a IH]; simpl; [done|]. by rewrite IH. Qed.

Lemma rename_loop_finds fuel (nodes : gmap string nat) name :
  (size (names_from nodes name) ≤ fuel)%nat →
  ∃ k, rename_loop fuel nodes name = Ok (suffixed name k) ∧
       nodes !! suffixed name k = None ∧
       (is_Some (nodes !! name) → (0 < k)%nat).
Proof.
  revert name. induction fuel as [|fuel IH]; intros name Hsize.
  - exists 0%nat. simpl. case_bool_decide as Hin.
    + exfalso. assert (name ∈ names_from nodes name) as Hmem.
      { apply elem_of_filter. split; [lia|]. by apply elem_of_dom. }
      assert (size (names_from nodes name) = 0)%nat as H0 by lia.
      apply size_empty_iff in H0. set_solver.
    + split; [done|]. split; [|intros; done].
      by apply eq_None_not_Some.
  - simpl. case_bool_decide as Hin.
    + destruct (IH (name +:+ "_old")) as (k & Hk & Hnone & _).
      { assert (names_from nodes (name +:+ "_old") ⊂ names_from nodes name) as Hsub.
        { assert (name ∈ names_from nodes name) as Hmem.
          { apply elem_of_filter. split; [lia|]. by apply elem_of_dom. }
          assert (name ∉ names_from nodes (name +:+ "_old")) as Hnot.
          { intros [Hlen _]%elem_of_filter. rewrite string_length_append in Hlen.
            simpl in Hlen. lia. }
          assert (names_from nodes (name +:+ "_old") ⊆ names_from nodes name) as Hle.
          { intros x [Hlen Hx]%elem_of_filter. apply elem_of_filter. split; [|done].
            rewrite string_length_append in Hlen. lia. }
          set_solver. }
        apply subset_size in Hsub. lia. }
      exists (S k). simpl. split; [done|]. split; [done|]. intros; lia.
    + exists 0%nat. simpl. split; [done|]. split; [|intros; done].
      by apply eq_None_not_Some.
Qed.

Lemma names_from_size (nodes : gmap string nat) name :
  (size (names_from nodes name) ≤ size nodes)%nat.
Proof.
  rewrite <- size_dom. apply subseteq_size.
  intros x [_ Hx]%elem_of_filter. done.
Qed.



(** * Properties of the lazy slice engine *)


Lemma getitem_unfold self sl s :
  getitem self sl s = (s, cache_getitem (_delayed_outputs (nodes s !!! self)) sl).
Proof. reflexivity. Qed.

Lemma create_delayed_output_unfold self sl input_dict with_values s :
  _create_delayed_output self sl input_dict with_values s
  = (s, Ok (new_output s self sl input_dict with_values)).
Proof.
  unfold _create_delayed_output, new_output. munfold. simpl.
  by destruct (default ∅ with_values !! name (nodes s !!! self)).
Qed.

Lemma observed_mapM s ps :
  mapM (λ p, p ← get_node p;
             match observed p with
             | Some o => mret o
             | None => raise AttributeError
             end) ps s
  = (s, observed_tuple s ps).
Proof.
  induction ps as [|p ps IH]; simpl; [done|].
  munfold. simpl. destruct (observed (nodes s !!! p)); [|done].
  munfold. rewrite IH. by destruct (observed_tuple s ps).
Qed.

Lemma create_input_dict_unfold rec self sl with_values s :
  _create_input_dict rec self sl with_values s =
  let nd := nodes s !!! self in
  match mapM (λ p, rec p sl with_values) (parents nd) s with
  | (s1, Err e) => (s1, Err e)
  | (s1, Ok input_data) =>
      let n := stop sl - start sl in
      match class nd with
      | CSimulator =>
          let g := graph (nodes s1 !!! self) in
          (bump_substream g s1,
           Ok (PyDict input_data n (start sl)
                 (Some (g_seed (graphs s1 !!! g), g_substreams (graphs s1 !!! g)))
                 None))
      | CDiscrepancy =>
          (s1, rbind (observed_tuple s1 (parents (nodes s1 !!! self))) (λ obs,
               Ok (PyDict input_data n (start sl) None (Some obs))))
      | _ => (s1, Ok (PyDict input_data n (start sl) None None))
      end
  end.
Proof.
  unfold _create_input_dict. munfold. simpl.
  destruct (mapM (M:=M) _ _ s) as [s1 [input_data|e]]; [|done].
  destruct (class (nodes s !!! self)); try done.
  unfold mbind. rewrite observed_mapM.
  by destruct (observed_tuple s1 _).
Qed.

Lemma get_slice_unfold fuel self sl with_values s :
  get_slice (S fuel) self sl with_values s =
  let len := cache_len (_delayed_outputs (nodes s !!! self)) in
  if len <? stop sl then
    let with_values := normalize_data_dict with_values (stop sl - len) in
    let new_sl := Slice len (stop sl) in
    match _create_input_dict (get_slice fuel) self new_sl with_values s with
    | (s1, Err e) => (s1, Err e)
    | (s1, Ok new_input) =>
        match append self (new_output s1 self new_sl new_input with_values) s1 with
        | (s2, Err e) => (s2, Err e)
        | (s2, Ok _) => getitem self sl s2
        end
    end
  else getitem self sl s.
Proof.
  simpl. munfold. simpl.
  destruct (_ <? _); [|done].
  destruct (_create_input_dict _ _ _ _ s) as [s1 [new_input|e]]; [|done].
  rewrite create_delayed_output_unfold.
  by destruct (append _ _ s1) as [s2 [[]|e]].
Qed.

Lemma append_unfold self output s :
  append self output s =
  if cache_len (_delayed_outputs (nodes s !!! self)) =? start (output_slice output)
  then (appended self output s, Ok tt)
  else (s, Err non_matching_slice).
Proof.
  unfold append, appended, output_slice. munfold. simpl.
  destruct (_ =? _); simpl; [|done].
  by destruct (c_store (_delayed_outputs (nodes s !!! self))).
Qed.

Lemma output_slice_new_output s self sl input_dict with_values :
  output_slice (new_output s self sl input_dict with_values) = sl.
Proof.
  unfold new_output, output_slice.
  by destruct (default ∅ with_values !! name (nodes s !!! self)).
Qed.

Section get_slice_preserves.
Variable R : state → state → Prop.
Hypothesis R_refl : ∀ s, R s s.
Hypothesis R_trans : ∀ s1 s2 s3, R s1 s2 → R s2 s3 → R s1 s3.
Hypothesis R_substream : ∀ s g, R s (bump_substream g s).
Hypothesis R_append : ∀ s self sl input_dict with_values,
  start sl = cache_len (_delayed_outputs (nodes s !!! self)) →
  start sl < stop sl →
  R s (appended self (new_output s self sl input_dict with_values) s).

Lemma mapM_preserves {A B} (f : A → M B) l s s' r :
  (∀ x s s' r, f x s = (s', r) → R s s') →
  mapM f l s = (s', r) → R s s'.
Proof.
  intros Hf. revert s s' r. induction l as [|x l IH]; intros s s' r; simpl.
  - munfold. intros [= <- _]. apply R_refl.
  - munfold. destruct (f x s) as [s1 [y|e]] eqn:Hx.
    + destruct (mapM f l s1) as [s2 [ys|e]] eqn:Hl; intros [= <- _];
        (eapply R_trans; [eapply Hf, Hx | eapply IH, Hl]).
    + intros [= <- _]. eapply Hf, Hx.
Qed.

Lemma create_input_dict_preserves rec self sl with_values s s' r :
  (∀ p sl wv s s' r, rec p sl wv s = (s', r) → R s s') →
  _create_input_dict rec self sl with_values s = (s', r) → R s s'.
Proof.
  intros Hrec. rewrite create_input_dict_unfold. simpl.
  destruct (mapM (M:=M) _ _ s) as [s1 [input_data|e]] eqn:Hm.
  - assert (R s s1) as H1.
    { eapply mapM_preserves; [|exact Hm]. intros x s0 s0' r0. apply Hrec. }
    destruct (class (nodes s !!! self)); intros [= <- _]; try done.
    eapply R_trans; [exact H1|apply R_substream].
  - intros [= <- _]. eapply mapM_preserves; [|exact Hm].
    intros x s0 s0' r0. apply Hrec.
Qed.

Lemma get_slice_preserves fuel self sl with_values s s' r :
  get_slice fuel self sl with_values s = (s', r) → R s s'.
Proof.
  revert self sl with_values s s' r.
  induction fuel as [|fuel IH]; intros self sl with_values s s' r.
  - intros [= <- _]. apply R_refl.
  - rewrite get_slice_unfold. simpl.
    destruct (Z.ltb_spec (cache_len (_delayed_outputs (nodes s !!! self))) (stop sl))
      as [Hlt|Hge].
    2: { rewrite getitem_unfold. intros [= <- _]. apply R_refl. }
    destruct (_create_input_dict _ _ _ _ s) as [s1 [new_input|e]] eqn:Hin.
    2: { intros [= <- _]. eapply create_input_dict_preserves; [|exact Hin].
         intros p sl0 wv0 s0 s0' r0. apply IH. }
    assert (R s s1) as H1.
    { eapply create_input_dict_preserves; [|exact Hin].
      intros p sl0 wv0 s0 s0' r0. apply IH. }
    rewrite append_unfold, output_slice_new_output. simpl.
    destruct (Z.eqb_spec (cache_len (_delayed_outputs (nodes s1 !!! self)))
                (cache_len (_delayed_outputs (nodes s !!! self)))) as [Heq|Hne].
    + rewrite getitem_unfold. intros [= <- _].
      eapply R_trans; [exact H1|]. apply R_append; simpl; [done|lia].
    + intros [= <- _]. done.
Qed.

Lemma generate_loop_preserves loop_fuel fuel self a b batch_size with_values s s' r :
  generate_loop loop_fuel fuel self a b batch_size with_values s = (s', r) →
  R s s'.
Proof.
  revert s s' r. induction loop_fuel as [|loop_fuel IH]; intros s s' r; simpl;
    munfold; simpl.
  - destruct (_ <? _); intros [= <- _]; apply R_refl.
  - destruct (_ <? _); [|intros [= <- _]; apply R_refl].
    destruct (get_slice _ _ _ _ s) as [s1 [d|e]] eqn:Hgs.
    + intros Hl. eapply R_trans; [eapply get_slice_preserves, Hgs|eapply IH, Hl].
    + intros [= <- _]. eapply get_slice_preserves, Hgs.
Qed.
End get_slice_preserves.

Lemma chunks_len_shift a outputs :
  chunks_len a outputs = a + chunks_len 0 outputs.
Proof.
  unfold chunks_len. revert a. induction outputs as [|o outputs IH]; intros a; simpl.
  - lia.
  - rewrite IH, (IH (0 + _)). lia.
Qed.

Lemma chunks_len_cons a o outputs :
  start (output_slice o) = a →
  chunks_len a (o :: outputs) = chunks_len (stop (output_slice o)) outputs.
Proof. intros <-. unfold chunks_len. simpl. f_equal. unfold slen. lia. Qed.

Lemma cache_len_app c o :
  chunks_len 0 (c ++ [o]) = chunks_len 0 c + slen (output_slice o).
Proof. unfold chunks_len. by rewrite foldl_app. Qed.

Lemma contiguous_end a outputs :
  contiguous_from a outputs → a ≤ chunks_len a outputs.
Proof.
  revert a. induction outputs as [|o outputs IH]; intros a; cbn [contiguous_from].
  - unfold chunks_len. simpl. lia.
  - intros (Hs & Hlt & Hrest). rewrite chunks_len_cons by done.
    specialize (IH _ Hrest). lia.
Qed.

Lemma contiguous_snoc a outputs o :
  contiguous_from a outputs →
  start (output_slice o) = chunks_len a outputs →
  start (output_slice o) < stop (output_slice o) →
  contiguous_from a (outputs ++ [o]).
Proof.
  revert a. induction outputs as [|o1 outputs IH]; intros a; cbn [contiguous_from].
  - unfold chunks_len. simpl. intros _ -> ?. done.
  - intros (Hs & Hlt & Hrest) Hstart Hpos. split; [done|]. split; [done|].
    apply IH; [done| |done]. by rewrite Hstart, chunks_len_cons.
Qed.

Lemma contiguous_lower a outputs o :
  contiguous_from a outputs → o ∈ outputs → a ≤ start (output_slice o).
Proof.
  revert a. induction outputs as [|o1 outputs IH]; intros a; cbn [contiguous_from].
  - intros _ H. by apply elem_of_nil in H.
  - intros (Hs & Hlt & Hrest) [->|Hin]%elem_of_cons; [lia|].
    specialize (IH _ Hrest Hin). lia.
Qed.

Lemma contiguous_union a outputs x :
  contiguous_from a outputs →
  a ≤ x < chunks_len a outputs ↔ ∃ o, o ∈ outputs ∧ in_chunk o x.
Proof.
  revert a. induction outputs as [|o1 outputs IH]; intros a; cbn [contiguous_from].
  - intros _. unfold chunks_len. simpl. split; [lia|].
    intros (o & H & _). by apply elem_of_nil in H.
  - intros (Hs & Hlt & Hrest).
    assert (chunks_len a (o1 :: outputs) = chunks_len (stop (output_slice o1)) outputs) as Hlen.
    { by apply chunks_len_cons. }
    rewrite Hlen. pose proof (contiguous_end _ _ Hrest) as Hend.
    specialize (IH _ Hrest). split.
    + intros Hx. destruct (Z.lt_ge_cases x (stop (output_slice o1))) as [Hlo|Hhi].
      * exists o1. split; [left|]. unfold in_chunk. lia.
      * destruct IH as [IH _]. destruct IH as (o & Ho & Hin); [lia|].
        exists o. split; [by right|done].
    + intros (o & [->|Ho]%elem_of_cons & Hin).
      * unfold in_chunk in Hin. lia.
      * destruct IH as [_ IH]. pose proof (IH (ex_intro _ o (conj Ho Hin))). lia.
Qed.

Lemma contiguous_disjoint a outputs j j' o o' x :
  contiguous_from a outputs →
  outputs !! j = Some o → outputs !! j' = Some o' →
  in_chunk o x → in_chunk o' x → j = j'.
Proof.
  revert a j j'. induction outputs as [|o1 outputs IH]; intros a j j'; cbn [contiguous_from].
  - intros _ H. done.
  - intros (Hs & Hlt & Hrest) Hj Hj' Hx Hx'.
    destruct j as [|j], j' as [|j']; simpl in *.
    + done.
    + injection Hj as <-. apply list_elem_of_lookup_2 in Hj'.
      pose proof (contiguous_lower _ _ _ Hrest Hj'). unfold in_chunk in *. lia.
    + injection Hj' as <-. apply list_elem_of_lookup_2 in Hj.
      pose proof (contiguous_lower _ _ _ Hrest Hj). unfold in_chunk in *. lia.
    + f_equal. eapply IH; eauto.
Qed.

Lemma contiguous_partition c :
  contiguous_from 0 (c_delayed_outputs c) →
  partition_of (c_delayed_outputs c) (cache_len c).
Proof.
  intros Hc. split.
  - intros x. by apply (contiguous_union 0).
  - intros j j' o o' x. by apply (contiguous_disjoint 0).
Qed.

Lemma node_extends_refl nd : node_extends nd nd.
Proof. unfold node_extends, cache_extends. naive_solver. Qed.

Lemma node_extends_trans nd1 nd2 nd3 :
  node_extends nd1 nd2 → node_extends nd2 nd3 → node_extends nd1 nd3.
Proof.
  unfold node_extends, cache_extends.
  intros (?&?&?&?&?&?&?&?&?&?&?&?&?) (?&?&?&?&?&?&?&?&?&?&?&?&?).
  repeat split; try congruence; by etrans.
Qed.

Lemma extends_refl s : extends s s.
Proof.
  split; [|split].
  - intros i. apply node_extends_refl.
  - intros g. unfold graph_extends. naive_solver.
  - done.
Qed.

Lemma extends_trans s1 s2 s3 : extends s1 s2 → extends s2 s3 → extends s1 s3.
Proof.
  intros (Hn1 & Hg1 & Hs1) (Hn2 & Hg2 & Hs2). split; [|split].
  - intros i. eapply node_extends_trans; eauto.
  - intros g. specialize (Hg1 g). specialize (Hg2 g). unfold graph_extends in *.
    destruct Hg1 as (?&?&?&?), Hg2 as (?&?&?&?). repeat split; try congruence. lia.
  - intros r. etrans; [apply Hs1|apply Hs2].
Qed.

Lemma extends_substream s g : extends s (bump_substream g s).
Proof.
  split; [|split]; simpl.
  - intros i. apply node_extends_refl.
  - intros g'. unfold graph_extends. destruct (decide (g' = g)) as [->|Hne].
    + rewrite lookup_total_insert_eq. simpl. repeat split; lia.
    + rewrite lookup_total_insert_ne by done. repeat split; lia.
  - done.
Qed.

Lemma nodes_appended self o s i :
  nodes (appended self o s) !!! i =
  if decide (i = self) then
    let nd := nodes s !!! self in
    let c := _delayed_outputs nd in
    Node (name nd) (parents nd) (children nd) (graph nd) (class nd)
      (operation nd) (observed nd) (_generate_index nd) (_num_resets nd)
      (Cache (c_delayed_outputs c ++ [o]) (c_stored_mask c ++ [false])
         (c_store c) (c_node_id c))
  else nodes s !!! i.
Proof.
  unfold appended. destruct (c_store _); simpl; case_decide; subst;
    by rewrite ?lookup_total_insert_eq, ?lookup_total_insert_ne by done.
Qed.

Lemma graphs_appended self o s : graphs (appended self o s) = graphs s.
Proof. unfold appended. by destruct (c_store _). Qed.

Lemma extends_appended s self o : extends s (appended self o s).
Proof.
  split; [|split].
  - intros i. rewrite nodes_appended. case_decide; [subst|apply node_extends_refl].
    unfold node_extends, cache_extends. simpl.
    repeat split; by apply prefix_app_r.
  - intros g. rewrite graphs_appended. unfold graph_extends. naive_solver.
  - intros r. unfold appended. destruct (c_store _) as [r'|]; simpl; [|done].
    destruct (decide (r = r')) as [->|Hne].
    + rewrite lookup_total_insert_eq. unfold store_write. by apply prefix_app_r.
    + by rewrite lookup_total_insert_ne.
Qed.

Lemma get_slice_extends fuel self sl with_values s s' r :
  get_slice fuel self sl with_values s = (s', r) → extends s s'.
Proof.
  apply get_slice_preserves.
  - apply extends_refl.
  - apply extends_trans.
  - apply extends_substream.
  - intros. apply extends_appended.
Qed.

Lemma cache_len_chunks c : cache_len c = chunks_len 0 (c_delayed_outputs c).
Proof. reflexivity. Qed.

Lemma node_ok_appended nd o :
  node_ok nd →
  start (output_slice o) = cache_len (_delayed_outputs nd) →
  start (output_slice o) < stop (output_slice o) →
  node_ok (Node (name nd) (parents nd) (children nd) (graph nd) (class nd)
             (operation nd) (observed nd) (_generate_index nd) (_num_resets nd)
             (Cache (c_delayed_outputs (_delayed_outputs nd) ++ [o])
                (c_stored_mask (_delayed_outputs nd) ++ [false])
                (c_store (_delayed_outputs nd)) (c_node_id (_delayed_outputs nd)))).
Proof.
  intros (Hc & Hm & Hst & Hg) Hstart Hpos. unfold node_ok. simpl.
  split; [|split; [|split]].
  - by apply contiguous_snoc.
  - rewrite !length_app, Hm. done.
  - intros Hnone. apply Forall_app. split; [auto|]. by apply Forall_singleton.
  - rewrite !cache_len_chunks in *. simpl. rewrite cache_len_app. unfold slen. lia.
Qed.

Lemma caches_ok_appended s self sl input_dict with_values :
  start sl = cache_len (_delayed_outputs (nodes s !!! self)) →
  start sl < stop sl →
  caches_ok s →
  caches_ok (appended self (new_output s self sl input_dict with_values) s).
Proof.
  intros Hstart Hpos Hok i. rewrite nodes_appended. case_decide; [subst|apply Hok].
  apply node_ok_appended; rewrite ?output_slice_new_output; auto.
Qed.

Lemma get_slice_caches_ok fuel self sl with_values s s' r :
  get_slice fuel self sl with_values s = (s', r) → caches_ok s → caches_ok s'.
Proof.
  apply (get_slice_preserves (λ s s', caches_ok s → caches_ok s')); auto.
  intros. by apply caches_ok_appended.
Qed.

Lemma generate_loop_caches_ok loop_fuel fuel self a b batch_size with_values s s' r :
  generate_loop loop_fuel fuel self a b batch_size with_values s = (s', r) →
  caches_ok s → caches_ok s'.
Proof.
  apply (generate_loop_preserves (λ s s', caches_ok s → caches_ok s')); auto.
  intros. by apply caches_ok_appended.
Qed.

Lemma generate_loop_extends loop_fuel fuel self a b batch_size with_values s s' r :
  generate_loop loop_fuel fuel self a b batch_size with_values s = (s', r) →
  extends s s'.
Proof.
  apply generate_loop_preserves.
  - apply extends_refl.
  - apply extends_trans.
  - apply extends_substream.
  - intros. apply extends_appended.
Qed.

Lemma nodes_with_generate_index self b s i :
  nodes (with_generate_index self b s) !!! i =
  if decide (i = self) then
    let nd := nodes s !!! self in
    Node (name nd) (parents nd) (children nd) (graph nd) (class nd)
      (operation nd) (observed nd) b (_num_resets nd) (_delayed_outputs nd)
  else nodes s !!! i.
Proof.
  unfold with_generate_index. simpl. case_decide; subst;
    by rewrite ?lookup_total_insert_eq, ?lookup_total_insert_ne by done.
Qed.

Lemma generate_unfold loop_fuel fuel self n batch_size with_values s :
  generate loop_fuel fuel self n batch_size with_values s =
  let a := _generate_index (nodes s !!! self) in
  let b := a + n in
  match generate_loop loop_fuel fuel self a b (batch_size_or batch_size n)
          (normalize_data_dict with_values n) s with
  | (s1, Err e) => (s1, Err e)
  | (s1, Ok _) => getitem self (Slice a b) (with_generate_index self b s1)
  end.
Proof.
  unfold generate. munfold. simpl. unfold batch_size_or.
  by destruct (generate_loop _ _ _ _ _ _ _ s) as [s1 [[]|e]].
Qed.

Lemma get_slice_ok fuel self sl with_values s s' d :
  get_slice fuel self sl with_values s = (s', Ok d) →
  cache_len (_delayed_outputs (nodes s' !!! self))
  = Z.max (cache_len (_delayed_outputs (nodes s !!! self))) (stop sl) ∧
  cache_getitem (_delayed_outputs (nodes s' !!! self)) sl = Ok d ∧
  (stop sl ≤ cache_len (_delayed_outputs (nodes s !!! self)) → s' = s).
Proof.
  destruct fuel as [|fuel]; [done|]. rewrite get_slice_unfold. simpl.
  destruct (Z.ltb_spec (cache_len (_delayed_outputs (nodes s !!! self))) (stop sl))
    as [Hlt|Hge].
  - destruct (_create_input_dict _ _ _ _ s) as [s1 [new_input|e]]; [|done].
    rewrite append_unfold, output_slice_new_output. simpl.
    destruct (Z.eqb_spec (cache_len (_delayed_outputs (nodes s1 !!! self)))
                (cache_len (_delayed_outputs (nodes s !!! self)))) as [Heq|Hne]; [|done].
    rewrite getitem_unfold. intros [= <- Hd]. split; [|split; [done|lia]].
    rewrite nodes_appended. rewrite decide_True by done. simpl.
    rewrite !cache_len_chunks in *. simpl. rewrite cache_len_app.
    rewrite output_slice_new_output. unfold slen. simpl. lia.
  - rewrite getitem_unfold. intros [= <- Hd]. split; [lia|]. done.
Qed.

Lemma generate_loop_ok loop_fuel fuel self a b batch_size with_values s s' :
  generate_loop loop_fuel fuel self a b batch_size with_values s = (s', Ok tt) →
  b ≤ cache_len (_delayed_outputs (nodes s' !!! self)) ∧
  ((cache_len (_delayed_outputs (nodes s !!! self)) < b → 0 < batch_size) →
   cache_len (_delayed_outputs (nodes s !!! self)) ≤ b →
   cache_len (_delayed_outputs (nodes s' !!! self)) = b).
Proof.
  revert s s'. induction loop_fuel as [|loop_fuel IH]; intros s s'; simpl;
    munfold; simpl.
  - destruct (Z.ltb_spec (cache_len (_delayed_outputs (nodes s !!! self))) b); [done|].
    intros [= <-]. split; [done|lia].
  - destruct (Z.ltb_spec (cache_len (_delayed_outputs (nodes s !!! self))) b) as [Hlt|Hge].
    2: { intros [= <-]. split; [done|lia]. }
    destruct (get_slice _ _ _ _ s) as [s1 [d|e]] eqn:Hgs; [|done].
    intros Hl. apply IH in Hl as [Hb Hexact]. split; [done|].
    intros Hbs _. specialize (Hbs Hlt). apply Hexact; [done|].
    apply get_slice_ok in Hgs as (Hlen & _). simpl in Hlen. lia.
Qed.



Lemma generate_decompose loop_fuel fuel self n batch_size with_values s s' r :
  generate loop_fuel fuel self n batch_size with_values s = (s', r) →
  ∃ s1, extends s s1 ∧ (caches_ok s → caches_ok s1) ∧
        ((s' = s1 ∧ ∃ e, r = Err e) ∨
         (s' = with_generate_index self (_generate_index (nodes s !!! self) + n) s1 ∧
          _generate_index (nodes s !!! self) + n
            ≤ cache_len (_delayed_outputs (nodes s1 !!! self)) ∧
          ((cache_len (_delayed_outputs (nodes s !!! self))
              < _generate_index (nodes s !!! self) + n →
            0 < batch_size_or batch_size n) →
           cache_len (_delayed_outputs (nodes s !!! self))
             ≤ _generate_index (nodes s !!! self) + n →
           cache_len (_delayed_outputs (nodes s1 !!! self))
             = _generate_index (nodes s !!! self) + n))).
Proof.
  rewrite generate_unfold. simpl.
  destruct (generate_loop _ _ _ _ _ _ _ s) as [s1 [[]|e]] eqn:Hl.
  - rewrite getitem_unfold. intros [= <- _]. exists s1.
    split; [eapply generate_loop_extends, Hl|].
    split; [eapply generate_loop_caches_ok, Hl|]. right.
    apply generate_loop_ok in Hl as [Hb Hexact]. auto.
  - intros [= <- <-]. exists s1.
    split; [eapply generate_loop_extends, Hl|].
    split; [eapply generate_loop_caches_ok, Hl|]. left. eauto.
Qed.

Lemma caches_ok_with_generate_index self b s :
  b ≤ cache_len (_delayed_outputs (nodes s !!! self)) →
  caches_ok s → caches_ok (with_generate_index self b s).
Proof.
  intros Hb Hok i. rewrite nodes_with_generate_index.
  case_decide; [subst|apply Hok].
  destruct (Hok self) as (Hc & Hm & Hst & _). by repeat split.
Qed.

Lemma generate_caches_ok loop_fuel fuel self n batch_size with_values s s' r :
  generate loop_fuel fuel self n batch_size with_values s = (s', r) →
  caches_ok s → caches_ok s'.
Proof.
  intros (s1 & _ & Hok & [[-> _]|(-> & Hb & _)])%generate_decompose Hs; [auto|].
  apply caches_ok_with_generate_index; auto.
Qed.

Lemma run_generates_caches_ok calls s :
  caches_ok s → caches_ok (run_generates calls s).
Proof.
  revert s. induction calls as [|c calls IH]; intros s Hok; simpl; [done|].
  apply IH. destruct (generate _ _ _ _ _ _ s) as [s1 r] eqn:Hg. simpl.
  eapply generate_caches_ok; eauto.
Qed.

Lemma append_mismatch self output s :
  start (output_slice output) ≠ cache_len (_delayed_outputs (nodes s !!! self)) →
  append self output s = (s, Err non_matching_slice).
Proof.
  intros Hne. rewrite append_unfold.
  destruct (Z.eqb_spec (cache_len (_delayed_outputs (nodes s !!! self)))
              (start (output_slice output))); [congruence|done].
Qed.

Lemma generate_exact loop_fuel fuel self n batch_size with_values s s' d :
  generate loop_fuel fuel self n batch_size with_values s = (s', Ok d) →
  cache_len (_delayed_outputs (nodes s !!! self)) = _generate_index (nodes s !!! self) →
  0 ≤ n → (∀ k, batch_size = Some k → 0 ≤ k) →
  _generate_index (nodes s' !!! self) = _generate_index (nodes s !!! self) + n ∧
  cache_len (_delayed_outputs (nodes s' !!! self)) = _generate_index (nodes s' !!! self).
Proof.
  intros (s1 & _ & _ & [[_ [e [=]]]|(-> & Hb & Hexact)])%generate_decompose Hsync Hn Hbs.
  rewrite nodes_with_generate_index, decide_True by done. simpl. split; [done|].
  apply Hexact; [|lia]. intros Hlt. unfold batch_size_or.
  destruct batch_size as [k|]; [|lia].
  specialize (Hbs k eq_refl). destruct (Z.eqb_spec k 0); lia.
Qed.

Lemma datalist_from_ok c sl i outputs :
  (∀ k, (k < length outputs)%nat →
        ∃ b, c_stored_mask c !! (i + k)%nat = Some b ∧
             (b = true → is_Some (c_store c))) →
  ∃ l, datalist_from c sl i outputs = Ok l.
Proof.
  revert i. induction outputs as [|o outputs IH]; intros i Hmask; simpl; [eauto|].
  destruct (IH (S i)) as [l Hl].
  { intros k Hk. destruct (Hmask (S k)) as (b & Hb & Hs); [simpl; lia|].
    exists b. split; [|done]. by replace (S i + k)%nat with (i + S k)%nat by lia. }
  destruct (slen _ =? 0); [eauto|].
  destruct (Hmask 0%nat) as (b & Hb & Hs); [simpl; lia|].
  rewrite Nat.add_0_r in Hb. rewrite Hb.
  destruct b.
  - destruct Hs as [r ->]; [done|]. simpl. rewrite Hl. simpl. eauto.
  - simpl. rewrite Hl. simpl. eauto.
Qed.

Lemma cache_getitem_ok nd sl :
  node_ok nd → ∃ d, cache_getitem (_delayed_outputs nd) sl = Ok d.
Proof.
  intros (_ & Hm & Hst & _). unfold cache_getitem, _get_output_datalist.
  destruct (datalist_from_ok (_delayed_outputs nd) sl 0
              (c_delayed_outputs (_delayed_outputs nd))) as [l ->].
  { intros k Hk. simpl. rewrite <- Hm in Hk.
    destruct (lookup_lt_is_Some_2 _ _ Hk) as [b Hb]. exists b. split; [done|].
    intros ->. destruct (c_store (_delayed_outputs nd)) eqn:Hs; [eauto|].
    specialize (Hst eq_refl). rewrite Forall_forall in Hst.
    apply list_elem_of_lookup_2 in Hb. by apply Hst in Hb. }
  simpl. destruct l as [|d [|d' l]]; eauto.
Qed.

Lemma observed_tuple_ok s ps :
  (∀ p, p ∈ ps → is_Some (observed (nodes s !!! p))) →
  ∃ obs, observed_tuple s ps = Ok obs.
Proof.
  induction ps as [|p ps IH]; intros Hall; simpl; [eauto|].
  destruct (Hall p) as [o ->]; [left|].
  destruct IH as [obs ->]; [intros q Hq; apply Hall; by right|]. simpl. eauto.
Qed.

Lemma ranked_extends rank s s' : extends s s' → ranked rank s → ranked rank s'.
Proof.
  intros (Hn & _) Hr i p. destruct (Hn i) as (_ & -> & _). apply Hr.
Qed.

Lemma observed_ok_extends s s' : extends s s' → observed_ok s → observed_ok s'.
Proof.
  intros (Hn & _) Hr i p.
  destruct (Hn i) as (_ & -> & _ & _ & -> & _).
  destruct (Hn p) as (_ & _ & _ & _ & _ & _ & -> & _). apply Hr.
Qed.

Lemma create_input_dict_ok
    (rec : nat → slice → option (gmap string arr) → M delayed)
    self sl with_values s s1 ds :
  mapM (λ p, rec p sl with_values) (parents (nodes s !!! self)) s = (s1, Ok ds) →
  (class (nodes s !!! self) = CDiscrepancy →
   ∀ p, p ∈ parents (nodes s1 !!! self) → is_Some (observed (nodes s1 !!! p))) →
  ∃ s2 input_dict,
    _create_input_dict rec self sl with_values s = (s2, Ok input_dict) ∧
    nodes s2 = nodes s1.
Proof.
  intros Hds Hobs. rewrite create_input_dict_unfold. simpl. rewrite Hds.
  destruct (class (nodes s !!! self)) eqn:Hclass; eauto.
  destruct (observed_tuple_ok s1 (parents (nodes s1 !!! self))) as [obs ->]; [auto|].
  simpl. eauto.
Qed.

Section termination.
Variable rank : nat → nat.

Lemma mapM_get_slice_ok fuel sl with_values bound ps s :
  (∀ p s, (rank p < bound)%nat → caches_ok s → ranked rank s → observed_ok s →
          ∃ s' d, get_slice fuel p sl with_values s = (s', Ok d) ∧
                  above rank bound s s') →
  (∀ p, p ∈ ps → (rank p < bound)%nat) →
  caches_ok s → ranked rank s → observed_ok s →
  ∃ s' ds, mapM (λ p, get_slice fuel p sl with_values) ps s = (s', Ok ds) ∧
           above rank bound s s'.
Proof.
  intros Hgs. revert s. induction ps as [|p ps IH]; intros s Hps Hok Hr Hobs; simpl.
  - exists s, []. split; [done|]. by intros j _.
  - destruct (Hgs p s) as (s1 & d & Hd & Hab1); auto.
    { apply Hps. left. }
    destruct (IH s1) as (s2 & ds & Hds & Hab2).
    { intros q Hq. apply Hps. by right. }
    { eapply get_slice_caches_ok; eauto. }
    { eapply ranked_extends; [eapply get_slice_extends|]; eauto. }
    { eapply observed_ok_extends; [eapply get_slice_extends|]; eauto. }
    exists s2, (d :: ds). munfold. rewrite Hd, Hds. split; [done|].
    intros j Hj. rewrite Hab2, Hab1; auto.
Qed.

Lemma get_slice_terminates fuel self sl with_values s :
  caches_ok s → ranked rank s → observed_ok s →
  (rank self < fuel)%nat →
  ∃ s' d, get_slice fuel self sl with_values s = (s', Ok d) ∧
          above rank (S (rank self)) s s'.
Proof.
  revert self sl with_values s.
  induction fuel as [|fuel IH]; intros self sl with_values s Hok Hr Hobs Hfuel; [lia|].
  rewrite get_slice_unfold. simpl.
  destruct (Z.ltb_spec (cache_len (_delayed_outputs (nodes s !!! self))) (stop sl))
    as [Hlt|Hge].
  2: { rewrite getitem_unfold. destruct (cache_getitem_ok (nodes s !!! self) sl) as [d ->];
         [apply Hok|]. exists s, d. split; [done|]. by intros j _. }
  set (wv := normalize_data_dict with_values _).
  set (new_sl := Slice _ _).
  destruct (mapM_get_slice_ok fuel new_sl wv (rank self) (parents (nodes s !!! self)) s)
    as (s1 & ds & Hds & Hab); auto.
  { intros p s0 Hp Hok0 Hr0 Hobs0.
    destruct (IH p new_sl wv s0) as (s' & d & Hd & Hab); auto; [lia|].
    exists s', d. split; [done|]. intros j Hj. apply Hab. lia. }
  assert (extends s s1) as Hext.
  { eapply (mapM_preserves extends); [apply extends_refl|apply extends_trans| |exact Hds].
    intros x s0 s0' r0. apply get_slice_extends. }
  assert (caches_ok s1) as Hok1.
  { eapply (mapM_preserves (λ s s', caches_ok s → caches_ok s')); [..|exact Hds|exact Hok];
      auto. intros x s0 s0' r0. apply get_slice_caches_ok. }
  pose proof (Hab self (Nat.le_refl _)) as Hself.
  destruct (create_input_dict_ok (get_slice fuel) self new_sl wv s s1 ds Hds)
    as (s2 & new_input & -> & Hn2).
  { intros Hclass p Hp. eapply (observed_ok_extends s s1 Hext Hobs self p).
    - by rewrite Hself.
    - done. }
  rewrite append_unfold, output_slice_new_output. simpl.
  rewrite Hn2, Hself, Z.eqb_refl. rewrite getitem_unfold.
  set (o := new_output _ _ _ _ _).
  assert (caches_ok (appended self o s2)) as Hok2.
  { intros i. rewrite nodes_appended, Hn2. case_decide; [subst|apply Hok1].
    apply node_ok_appended; [apply Hok1| |].
    all: unfold o, new_sl.
    all: rewrite output_slice_new_output.
    all: simpl.
    - by rewrite Hself.
    - lia. }
  destruct (cache_getitem_ok (nodes (appended self o s2) !!! self) sl) as [d ->];
    [apply Hok2|].
  exists (appended self o s2), d. split; [done|].
  intros j Hj. assert (j ≠ self) as Hne by (intros ->; lia).
  rewrite nodes_appended, decide_False by done. rewrite Hn2. apply Hab. lia.
Qed.
End termination.

Lemma generate_loop_terminates rank loop_fuel fuel self a b batch_size with_values s :
  caches_ok s → ranked rank s → observed_ok s →
  (rank self < fuel)%nat → 0 < batch_size →
  b - cache_len (_delayed_outputs (nodes s !!! self)) ≤ Z.of_nat loop_fuel →
  ∃ s', generate_loop loop_fuel fuel self a b batch_size with_values s = (s', Ok tt).
Proof.
  intros Hok Hr Hobs Hfuel Hbs. revert s Hok Hr Hobs.
  induction loop_fuel as [|loop_fuel IH]; intros s Hok Hr Hobs Hlen; simpl;
    munfold; simpl.
  - destruct (Z.ltb_spec (cache_len (_delayed_outputs (nodes s !!! self))) b); [lia|eauto].
  - destruct (Z.ltb_spec (cache_len (_delayed_outputs (nodes s !!! self))) b) as [Hlt|Hge];
      [|eauto].
    match goal with
    | |- context [get_slice ?f ?i ?sl ?wv ?s] =>
        destruct (get_slice_terminates rank f i sl wv s) as (s1 & d & Hd & _); auto
    end.
    rewrite Hd. apply IH.
    + eapply get_slice_caches_ok; eauto.
    + eapply ranked_extends; [eapply get_slice_extends|]; eauto.
    + eapply observed_ok_extends; [eapply get_slice_extends|]; eauto.
    + apply get_slice_ok in Hd as (Hl & _). simpl in Hl. lia.
Qed.

Lemma generate_terminates rank loop_fuel fuel self n batch_size with_values s :
  caches_ok s → ranked rank s → observed_ok s →
  (rank self < fuel)%nat →
  0 ≤ n → (∀ k, batch_size = Some k → 0 ≤ k) →
  n ≤ Z.of_nat loop_fuel →
  ∃ s' d, generate loop_fuel fuel self n batch_size with_values s = (s', Ok d).
Proof.
  intros Hok Hr Hobs Hfuel Hn Hbs Hloop. rewrite generate_unfold. simpl.
  assert (∃ s1, generate_loop loop_fuel fuel self (_generate_index (nodes s !!! self))
                  (_generate_index (nodes s !!! self) + n) (batch_size_or batch_size n)
                  (normalize_data_dict with_values n) s = (s1, Ok tt)) as [s1 Hl].
  { destruct (decide (n = 0)) as [->|Hn0].
    - destruct loop_fuel; simpl; munfold; simpl.
      all: destruct (Hok self) as (_ & _ & _ & Hg).
      all: destruct (Z.ltb_spec (cache_len (_delayed_outputs (nodes s !!! self)))
                       (_generate_index (nodes s !!! self) + 0)); [lia|eauto].
    - eapply generate_loop_terminates; eauto.
      + unfold batch_size_or. destruct batch_size as [k|]; [|lia].
        specialize (Hbs k eq_refl). destruct (Z.eqb_spec k 0); lia.
      + destruct (Hok self) as (_ & _ & _ & Hg). lia. }
  rewrite Hl. rewrite getitem_unfold.
  pose proof (generate_loop_caches_ok _ _ _ _ _ _ _ _ _ _ Hl Hok) as Hok1.
  apply generate_loop_ok in Hl as [Hb _].
  destruct (cache_getitem_ok
              (nodes (with_generate_index self (_generate_index (nodes s !!! self) + n) s1)
                 !!! self)
              (Slice (_generate_index (nodes s !!! self))
                 (_generate_index (nodes s !!! self) + n))) as [d ->]; [|eauto].
  by apply caches_ok_with_generate_index.
Qed.

Lemma acquire_unfold loop_fuel fuel self n starting batch_size with_values s :
  acquire loop_fuel fuel self n starting batch_size with_values s =
  let sl := Slice starting (starting + n) in
  if _generate_index (nodes s !!! self) <? stop sl then
    match generate loop_fuel fuel self (stop sl - _generate_index (nodes s !!! self))
            batch_size with_values s with
    | (s1, Err e) => (s1, Err e)
    | (s1, Ok _) => get_slice fuel self sl None s1
    end
  else get_slice fuel self sl None s.
Proof.
  unfold acquire. munfold. simpl.
  destruct (_ <? _); [|done].
  by destruct (generate _ _ _ _ _ _ s) as [s1 [d|e]].
Qed.

Lemma lookup_total_node (s : state) i :
  nodes s !!! i = default inhabitant (nodes s !! i).
Proof. by rewrite lookup_total_alt. Qed.

Lemma fresh_heap_caches_ok s : fresh_heap s → caches_ok s.
Proof.
  intros Hf i. rewrite lookup_total_node.
  destruct (nodes s !! i) as [nd|] eqn:Hi; simpl.
  - destruct (Hf i nd Hi) as (Ho & Hm & Hg).
    apply nil_length_inv in Ho, Hm. unfold node_ok, cache_len.
    rewrite Ho, Hm, Hg. simpl. repeat split; auto; lia.
  - unfold node_ok. simpl. repeat split; auto. unfold cache_len. simpl. lia.
Qed.

Lemma ranked_heap_ranked rank s : ranked_heap rank s → ranked rank s.
Proof.
  intros Hr i p. rewrite lookup_total_node.
  destruct (nodes s !! i) as [nd|] eqn:Hi; simpl.
  - intros Hp. specialize (Hr i nd Hi). simpl in Hr. rewrite Forall_forall in Hr. auto.
  - intros Hp. by apply elem_of_nil in Hp.
Qed.

Lemma no_discrepancy_observed_ok s : no_discrepancy s → observed_ok s.
Proof.
  intros Hn i p. rewrite lookup_total_node.
  destruct (nodes s !! i) as [nd|] eqn:Hi; simpl; [|done].
  intros Hc. by destruct (Hn i nd Hi).
Qed.

Lemma ex_chain_fresh : fresh_heap ex_chain.
Proof. apply (bool_decide_unpack _). vm_compute. reflexivity. Qed.

Lemma ex_chain_ranked : ranked_heap (λ i, i) ex_chain.
Proof. apply (bool_decide_unpack _). vm_compute. reflexivity. Qed.

Lemma ex_chain_no_discrepancy : no_discrepancy ex_chain.
Proof. apply (bool_decide_unpack _). vm_compute. reflexivity. Qed.

(** * Properties of reset *)

Lemma traverse_ext edges edges' fuel n :
  (∀ i, edges i = edges' i) → traverse edges fuel n = traverse edges' fuel n.
Proof.
  intros Hext. revert n. induction fuel as [|fuel IH]; intros n; [done|].
  simpl. rewrite <- Hext.
  generalize (Ok (edges n) : result (list nat)).
  generalize (edges n) as l.
  induction l as [|c l IHl]; intros acc; simpl; [done|].
  rewrite IH. apply IHl.
Qed.

Lemma reset_self_unfold self s :
  (set_generate_index self 0;;
   nd ← get_node self;
   set_node self
     (Node (name nd) (parents nd) (children nd) (graph nd) (class nd)
        (operation nd) (observed nd) (_generate_index nd) (S (_num_resets nd))
        (_delayed_outputs nd));;
   new_id ← gets (λ s, id s self);
   cache_reset self new_id) s = (reset_self self s, Ok tt).
Proof.
  unfold set_generate_index, cache_reset, reset_self, id. munfold. simpl.
  repeat (rewrite lookup_total_insert_eq; simpl).
  destruct (c_store (_delayed_outputs (nodes s !!! self))); munfold; simpl;
    repeat (rewrite lookup_total_insert_eq; simpl);
    by rewrite !insert_insert_eq.
Qed.

Lemma reset_unfold fuel self propagate s :
  reset (S fuel) self propagate s =
  match (if propagate
         then forM_ (λ c, reset fuel c true) (children (nodes s !!! self)) s
         else (s, Ok tt)) with
  | (s1, Err e) => (s1, Err e)
  | (s1, Ok _) => (reset_self self s1, Ok tt)
  end.
Proof.
  cbn [reset]. unfold mbind at 1. unfold M_bind at 1.
  destruct propagate.
  - unfold mbind at 1. unfold M_bind at 1. unfold get_node at 1. unfold gets at 1.
    destruct (forM_ _ _ s) as [s1 [[]|e]]; [|done].
    apply reset_self_unfold.
  - unfold mret at 1. unfold M_ret at 1. apply reset_self_unfold.
Qed.

Lemma same_structure_refl nd : same_structure nd nd.
Proof. unfold same_structure. naive_solver. Qed.

Lemma same_structure_trans nd1 nd2 nd3 :
  same_structure nd1 nd2 → same_structure nd2 nd3 → same_structure nd1 nd3.
Proof.
  unfold same_structure. intros (?&?&?&?&?&?&?&?) (?&?&?&?&?&?&?&?).
  repeat split; congruence.
Qed.

Lemma resets_refl s : resets s s.
Proof.
  split; [|split; [|split]]; auto. intros i. apply same_structure_refl.
Qed.

Lemma id_same s s' i :
  graphs s' = graphs s → nodes s' !!! i = nodes s !!! i → id s' i = id s i.
Proof. unfold id. by intros -> ->. Qed.

(** A reset stays in force through later resets... *)
Lemma reset_at_then s s1 s2 i : reset_at s s1 i → resets s1 s2 → reset_at s s2 i.
Proof.
  intros (Hg & Ho & Hm & Hv & Hid & Hp) (Hst & Hgr & Hsub & Hcase).
  destruct (Hcase i) as [Heq|(Hg' & Ho' & Hm' & Hv' & Hid' & Hp')].
  - unfold reset_at. rewrite Heq. repeat split; auto.
    + rewrite Hid. symmetry. by apply id_same.
    + intros r Hr e He. apply (Hp r Hr e). by apply Hsub.
  - unfold reset_at. repeat split; auto; [lia|].
    intros r Hr e He. apply (Hp r Hr e). by apply Hsub.
Qed.

(** ... and so does one that comes after earlier resets. *)
Lemma reset_at_after s s1 s2 i :
  resets s s1 → resets s1 s2 → reset_at s1 s2 i → reset_at s s2 i.
Proof.
  intros (Hst & Hgr & Hsub & Hcase) (_ & _ & Hsub2 & _) (Hg & Ho & Hm & Hv & Hid & Hp).
  destruct (Hcase i) as [Heq|(Hg' & Ho' & Hm' & Hv' & Hid' & Hp')].
  - unfold reset_at. rewrite <- Heq. repeat split; auto.
  - unfold reset_at. repeat split; auto; [lia|].
    intros r Hr e He. apply (Hp' r Hr e). by apply Hsub2.
Qed.

Lemma resets_trans s1 s2 s3 : resets s1 s2 → resets s2 s3 → resets s1 s3.
Proof.
  intros H12 H23.
  pose proof H12 as (Hst & Hgr & Hsub & Hcase).
  pose proof H23 as (Hst' & Hgr' & Hsub' & Hcase').
  split; [|split; [|split]].
  - intros i. eapply same_structure_trans; eauto.
  - congruence.
  - auto.
  - intros i. destruct (Hcase' i) as [Heq'|Hr'].
    + destruct (Hcase i) as [Heq|Hr]; [left; congruence|].
      right. eapply reset_at_then; eauto.
    + right. eapply reset_at_after; eauto.
Qed.

Lemma resets_reset_self self s : resets s (reset_self self s).
Proof.
  split; [|split; [|split]].
  - intros i. unfold reset_self. simpl. destruct (decide (i = self)) as [->|Hne].
    + rewrite lookup_total_insert_eq. unfold same_structure. simpl. naive_solver.
    + rewrite lookup_total_insert_ne by done. apply same_structure_refl.
  - done.
  - intros r e. unfold reset_self. simpl.
    destruct (c_store _) as [r'|]; [|done].
    destruct (decide (r = r')) as [->|Hne].
    + rewrite lookup_total_insert_eq. unfold store_reset.
      by intros [_ ?]%list_elem_of_filter.
    + by rewrite lookup_total_insert_ne.
  - intros i. destruct (decide (i = self)) as [->|Hne].
    + right. unfold reset_at, reset_self, id. simpl.
      rewrite lookup_total_insert_eq. simpl. repeat split; auto.
      intros r Hr e. rewrite Hr. rewrite lookup_total_insert_eq. unfold store_reset.
      by intros [? _]%list_elem_of_filter.
    + left. unfold reset_self. simpl. by rewrite lookup_total_insert_ne.
Qed.

Lemma forM_preserves {A} (R : state → state → Prop) (f : A → M unit) l s s' r :
  (∀ s, R s s) → (∀ s1 s2 s3, R s1 s2 → R s2 s3 → R s1 s3) →
  (∀ x s s' r, f x s = (s', r) → R s s') →
  forM_ f l s = (s', r) → R s s'.
Proof.
  intros Hrefl Htrans Hf. revert s. induction l as [|x l IH]; intros s; simpl.
  - munfold. intros [= <- _]. apply Hrefl.
  - munfold. destruct (f x s) as [s1 [[]|e]] eqn:Hx.
    + intros Hl. eapply Htrans; [eapply Hf, Hx|eapply IH, Hl].
    + intros [= <- _]. eapply Hf, Hx.
Qed.

Lemma reset_resets fuel self propagate s s' r :
  reset fuel self propagate s = (s', r) → resets s s'.
Proof.
  revert self propagate s s' r.
  induction fuel as [|fuel IH]; intros self propagate s s' r.
  - intros [= <- _]. apply resets_refl.
  - rewrite reset_unfold. destruct propagate.
    + destruct (forM_ _ _ s) as [s1 [[]|e]] eqn:Hf.
      * intros [= <- _]. eapply resets_trans; [|apply resets_reset_self].
        eapply (forM_preserves resets); [apply resets_refl|apply resets_trans| |exact Hf].
        intros x s0 s0' r0. apply IH.
      * intros [= <- _].
        eapply (forM_preserves resets); [apply resets_refl|apply resets_trans| |exact Hf].
        intros x s0 s0' r0. apply IH.
    + intros [= <- _]. apply resets_reset_self.
Qed.

Lemma descendants_resets fuel s s' i :
  resets s s' → descendants fuel s' i = descendants fuel s i.
Proof.
  intros (Hst & _). rewrite !descendants_traverse. apply traverse_ext.
  intros j. unfold child_edges. by destruct (Hst j) as (_ & _ & -> & _).
Qed.

Lemma forM_reset_ok fuel cs t :
  (∀ c s ds, descendants fuel s c = Ok ds →
             ∃ s', reset fuel c true s = (s', Ok tt) ∧
                   ∀ d, d = c ∨ d ∈ ds → reset_at s s' d) →
  (∀ c, c ∈ cs → ∃ dc, descendants fuel t c = Ok dc) →
  ∃ t', forM_ (λ c, reset fuel c true) cs t = (t', Ok tt) ∧ resets t t' ∧
        ∀ c dc d, c ∈ cs → descendants fuel t c = Ok dc → d = c ∨ d ∈ dc →
                  reset_at t t' d.
Proof.
  intros IH. revert t. induction cs as [|c cs IHcs]; intros t Hall; simpl.
  - exists t. split; [done|]. split; [apply resets_refl|].
    intros c dc d Hc. by apply elem_of_nil in Hc.
  - destruct (Hall c) as [dc Hdc]; [left|].
    destruct (IH c t dc Hdc) as (t1 & Hreset & Hat).
    pose proof (reset_resets _ _ _ _ _ _ Hreset) as Hr1.
    destruct (IHcs t1) as (t' & Hrest & Hr2 & Hat').
    { intros c' Hc'. destruct (Hall c') as [dc' Hdc']; [by right|].
      exists dc'. by rewrite (descendants_resets _ t t1). }
    exists t'. munfold. rewrite Hreset, Hrest. split; [done|].
    split; [eapply resets_trans; eauto|].
    intros c' dc' d [->|Hc']%elem_of_cons Hdc' Hd.
    + rewrite Hdc in Hdc'. injection Hdc' as <-.
      eapply reset_at_then; eauto.
    + eapply reset_at_after; [exact Hr1|exact Hr2|].
      eapply Hat'; eauto. by rewrite (descendants_resets _ t t1).
Qed.

Lemma reset_ok fuel self s ds :
  descendants fuel s self = Ok ds →
  ∃ s', reset fuel self true s = (s', Ok tt) ∧
        ∀ d, d = self ∨ d ∈ ds → reset_at s s' d.
Proof.
  revert self s ds. induction fuel as [|fuel IH]; intros self s ds; [done|].
  intros Hds. rewrite reset_unfold.
  rewrite descendants_traverse in Hds. simpl in Hds.
  apply traverse_fold_ok in Hds as [Hall Hmem]. unfold child_edges in Hall, Hmem.
  destruct (forM_reset_ok fuel (children (nodes s !!! self)) s IH) as (s1 & -> & Hr1 & Hat).
  { intros c Hc. destruct (Hall c Hc) as [dc Hdc]. exists dc.
    by rewrite descendants_traverse. }
  exists (reset_self self s1). split; [done|].
  pose proof (resets_reset_self self s1) as Hr2.
  intros d [->|Hd].
  - eapply reset_at_after; [exact Hr1|exact Hr2|].
    destruct Hr2 as (_ & _ & _ & Hcase). destruct (Hcase self) as [Heq|Hreset]; [|done].
    exfalso. apply (f_equal _num_resets) in Heq. unfold reset_self in Heq. simpl in Heq.
    rewrite lookup_total_insert_eq in Heq. simpl in Heq. lia.
  - eapply reset_at_then; [|exact Hr2].
    apply Hmem in Hd as [Hd|(c & dc & Hc & Hdc & Hd)].
    + destruct (Hall d Hd) as [dd Hdd].
      eapply (Hat d dd d); auto. by rewrite descendants_traverse.
    + eapply (Hat c dc d); auto. by rewrite descendants_traverse.
Qed.


(** * Properties of with_values overrides *)

Lemma ndim_Arr_cons r rows : ndim (Arr (r :: rows)) = 1 + ndim r.
Proof. unfold ndim. simpl. lia. Qed.

Lemma ndim_Arr rows : 1 ≤ ndim (Arr rows).
Proof. unfold ndim. simpl. lia. Qed.

Lemma normalize_data_Arr rows m :
  normalize_data (Arr rows) m =
  if ndim (Arr rows) =? 1 then
    if Z.of_nat (length rows) =? m then new_axis_inner (Arr rows)
    else replicate_rows (Arr rows) m
  else
    if negb (Z.of_nat (length rows) =? m) then replicate_rows (Arr rows) m
    else Arr rows.
Proof. reflexivity. Qed.

Lemma normal_normalize m v : 1 ≤ m → normal m v → normalize_data v m = v.
Proof.
  intros Hm [Hlen Hrows]. destruct v as [x|rows]; simpl in *; [lia|].
  destruct rows as [|r rows]; simpl in *; [lia|].
  rewrite normalize_data_Arr, ndim_Arr_cons.
  assert (1 ≤ ndim r) by (apply Hrows; left).
  destruct (Z.eqb_spec (1 + ndim r) 1); [lia|].
  simpl length. by destruct (Z.eqb_spec (Z.of_nat (S (length rows))) m); [|lia].
Qed.

Lemma np_vstack_replicate k data :
  1 ≤ ndim data → np_vstack (replicate k (Arr [data])) = Arr (replicate k data).
Proof.
  intros Hd. unfold np_vstack. f_equal.
  assert (atleast_2d (Arr [data]) = Arr [data]) as H2.
  { unfold atleast_2d. rewrite ndim_Arr_cons.
    by destruct (Z.eqb_spec (1 + ndim data) 1); [lia|]. }
  induction k as [|k IH]; [done|].
  cbn [replicate map concat]. by rewrite IH, H2.
Qed.

Lemma replicate_rows_normal data n :
  1 ≤ n → 1 ≤ ndim data → normal n (replicate_rows data n).
Proof.
  intros Hn Hd. unfold replicate_rows. destruct (Z.ltb_spec 1 n).
  - rewrite np_vstack_replicate by done. split; simpl.
    + rewrite length_replicate. lia.
    + by intros r [-> _]%elem_of_replicate.
  - split; simpl; [lia|]. by intros r ->%list_elem_of_singleton.
Qed.

Lemma normalize_normal n v :
  1 ≤ n → rows_alike v → normal n (normalize_data v n).
Proof.
  intros Hn Halike. destruct v as [x|rows].
  - assert (normal n (normalize_data (Arr [Item x]) n)) as Hnum.
    { rewrite normalize_data_Arr. change (ndim (Arr [Item x]) =? 1) with true.
      cbv iota. simpl length. destruct (Z.eqb_spec (Z.of_nat 1) n).
      - split; simpl; [lia|]. by intros r ->%list_elem_of_singleton.
      - apply replicate_rows_normal; [done|apply ndim_Arr]. }
    destruct x as [z|str|b]; try exact Hnum.
    change (normalize_data (Item (SStr str)) n)
      with (normalize_data (Arr [Arr [Item (SStr str)]]) n).
    rewrite normalize_data_Arr. change (ndim (Arr [Arr [Item (SStr str)]]) =? 1) with false.
    cbv iota. simpl length. destruct (Z.eqb_spec (Z.of_nat 1) n); simpl.
    + split; simpl; [lia|]. by intros r ->%list_elem_of_singleton.
    + apply replicate_rows_normal; [done|apply ndim_Arr].
  - rewrite normalize_data_Arr.
    destruct (Z.eqb_spec (ndim (Arr rows)) 1) as [H1|H1].
    + destruct (Z.eqb_spec (Z.of_nat (length rows)) n) as [Hl|Hl].
      * split; simpl.
        -- rewrite length_map. lia.
        -- intros r (x & -> & _)%list_elem_of_fmap. apply ndim_Arr.
      * apply replicate_rows_normal; [done|apply ndim_Arr].
    + destruct (Z.eqb_spec (Z.of_nat (length rows)) n) as [Hl|Hl]; simpl.
      * split; simpl; [done|]. intros r Hr.
        destruct rows as [|r0 rows]; [by apply elem_of_nil in Hr|].
        rewrite ndim_Arr_cons in H1. pose proof (ndim_Arr_cons r0 rows).
        assert (shape r = shape r0) as Hs by (apply Halike; simpl; [done|left]).
        unfold ndim in *. rewrite Hs. simpl in *. lia.
      * apply replicate_rows_normal; [done|apply ndim_Arr].
Qed.

Lemma py_slice_full {A} (l : list A) :
  py_slice l (Slice 0 (Z.of_nat (length l))) = l.
Proof.
  unfold py_slice, clamp. simpl.
  destruct (Z.ltb_spec (Z.of_nat (length l)) 0); [lia|].
  rewrite Z.min_id, Z.min_l by lia. rewrite Z.sub_0_r, Nat2Z.id. simpl.
  rewrite drop_0. apply firstn_all.
Qed.

Lemma arr_getitem_full n v : 1 ≤ n → normal n v → arr_getitem v (Slice 0 n) = v.
Proof.
  intros Hn [Hlen _]. destruct v as [x|rows]; simpl in *; [lia|].
  unfold arr_getitem. simpl. rewrite <- Hlen. by rewrite py_slice_full.
Qed.

Lemma create_input_dict_inv
    (rec : nat → slice → option (gmap string arr) → M delayed)
    self sl with_values s s2 r :
  _create_input_dict rec self sl with_values s = (s2, r) →
  ∃ s1 r1, mapM (λ p, rec p sl with_values) (parents (nodes s !!! self)) s = (s1, r1) ∧
           nodes s2 = nodes s1 ∧ (is_ok r = true → is_ok r1 = true).
Proof.
  rewrite create_input_dict_unfold. simpl.
  destruct (mapM (M:=M) _ _ s) as [s1 [ds|e]] eqn:Hm.
  - destruct (class (nodes s !!! self)); intros [= <- <-]; exists s1, (Ok ds); auto.
  - intros [= <- <-]. exists s1, (Err e). auto.
Qed.

Lemma extended_by_same_node wv l e s0 s s' i :
  nodes s' !!! i = nodes s !!! i →
  extended_by wv l e s0 s i → extended_by wv l e s0 s' i.
Proof. unfold extended_by. by intros ->. Qed.

Section override.
Variable wv : gmap string arr.
Variables l e : Z.
Hypothesis Hle : l < e.
Hypothesis Hnormal : ∀ k v, wv !! k = Some v → normal (e - l) v.
Variable s0 : state.
Variable inS : nat → Prop.
Hypothesis S_closed : ∀ i p, inS i → p ∈ parents (nodes s0 !!! i) → inS p.
Hypothesis S_sync : ∀ i, inS i → cache_len (_delayed_outputs (nodes s0 !!! i)) = l.

Lemma normalize_dict_normal :
  normalize_data_dict (Some wv) (e - l) = Some wv.
Proof.
  simpl. f_equal. apply map_eq. intros k. rewrite lookup_fmap.
  destruct (wv !! k) as [v|] eqn:Hk; simpl; [|done].
  f_equal. apply normal_normalize; [lia|eauto].
Qed.

Lemma extended_len s i :
  inS i → extended_by wv l e s0 s i →
  cache_len (_delayed_outputs (nodes s !!! i)) = e.
Proof.
  intros Hi (o & Ho & _ & Hsl & _). rewrite cache_len_chunks, Ho, cache_len_app.
  rewrite <- cache_len_chunks, S_sync by done. rewrite Hsl. unfold slen. simpl. lia.
Qed.

Lemma extended_mono s s' i :
  inS i → extended_by wv l e s0 s i → extends s s' →
  sync_inv wv l e s0 inS s' → extended_by wv l e s0 s' i.
Proof.
  intros Hi Hext (Hn & _) (_ & Halt & _).
  destruct (Halt i Hi) as [Heq|]; [|done]. exfalso.
  destruct Hext as (o & Ho & _).
  destruct (Hn i) as (_ & _ & _ & _ & _ & _ & _ & _ & _ & Hpre & _).
  rewrite Heq, Ho in Hpre. apply prefix_length in Hpre.
  rewrite length_app in Hpre. simpl in Hpre. lia.
Qed.

Lemma mapM_get_slice_sync fuel ps s s' r :
  (∀ i s s' r, inS i → sync_inv wv l e s0 inS s →
     get_slice fuel i (Slice l e) (Some wv) s = (s', r) →
     sync_inv wv l e s0 inS s' ∧
     (is_ok r = true → extended_by wv l e s0 s' i)) →
  (∀ p, p ∈ ps → inS p) → sync_inv wv l e s0 inS s →
  mapM (λ p, get_slice fuel p (Slice l e) (Some wv)) ps s = (s', r) →
  sync_inv wv l e s0 inS s' ∧
  (is_ok r = true → ∀ p, p ∈ ps → extended_by wv l e s0 s' p).
Proof.
  intros IH. revert s s' r. induction ps as [|p ps IHps]; intros s s' r Hps Hinv; simpl.
  - munfold. intros [= <- <-]. split; [done|]. intros _ p Hp. by apply elem_of_nil in Hp.
  - munfold. destruct (get_slice fuel p _ _ s) as [s1 [d|err]] eqn:Hp.
    + destruct (IH p s s1 (Ok d)) as [Hinv1 Hext1]; auto. { apply Hps. left. }
      destruct (mapM (M:=M) _ ps s1) as [s2 [ds|err]] eqn:Hrest.
      * intros [= <- <-].
        destruct (IHps s1 s2 (Ok ds)) as [Hinv2 Hext2]; auto.
        { intros q Hq. apply Hps. by right. }
        split; [done|]. intros _ q [->|Hq]%elem_of_cons; [|by apply Hext2].
        eapply extended_mono; [apply Hps; left|by apply Hext1| |done].
        eapply (mapM_preserves extends); [apply extends_refl|apply extends_trans|
                                          |exact Hrest].
        intros x t t' rt. apply get_slice_extends.
      * intros [= <- <-].
        destruct (IHps s1 s2 (Err err)) as [Hinv2 _]; auto.
        { intros q Hq. apply Hps. by right. }
        split; [done|]. intros [=].
    + intros [= <- <-]. destruct (IH p s s1 (Err err)) as [Hinv1 _]; auto.
      { apply Hps. left. }
      split; [done|]. intros [=].
Qed.

Lemma get_slice_sync fuel i s s' r :
  inS i → sync_inv wv l e s0 inS s →
  get_slice fuel i (Slice l e) (Some wv) s = (s', r) →
  sync_inv wv l e s0 inS s' ∧
  (is_ok r = true → extended_by wv l e s0 s' i).
Proof.
  revert i s s' r. induction fuel as [|fuel IH]; intros i s s' r Hi Hinv.
  { intros [= <- <-]. split; [done|]. intros [=]. }
  intros Hgs. pose proof (get_slice_extends _ _ _ _ _ _ _ Hgs) as Hss'.
  revert Hgs. rewrite get_slice_unfold. cbn [stop start]. cbv zeta.
  pose proof Hinv as (Hext0 & Halt & Hclosed).
  destruct (Halt i Hi) as [Hsame|Hdone].
  2: { (* the chunk is there already *)
    rewrite (extended_len s i Hi Hdone).
    destruct (Z.ltb_spec e e); [lia|]. rewrite getitem_unfold.
    intros [= <- <-]. done. }
  rewrite Hsame, S_sync by done.
  destruct (Z.ltb_spec l e); [|lia]. rewrite normalize_dict_normal.
  destruct (_create_input_dict _ _ _ _ s) as [s2 [new_input|err]] eqn:Hin.
  2: { intros [= <- <-]. split; [|intros [=]].
       apply create_input_dict_inv in Hin as (s1 & r1 & Hm & Hn2 & _).
       destruct (mapM_get_slice_sync fuel (parents (nodes s !!! i)) s s1 r1 IH) as [(_ & Halt1 & Hcl1) _]; auto.
       { rewrite Hsame. intros p Hp. eapply S_closed; eauto. }
       split; [eapply extends_trans; [exact Hext0|exact Hss']|]. split.
       - intros j Hj. rewrite Hn2. destruct (Halt1 j Hj) as [?|?]; [by left|right].
         eapply extended_by_same_node; [|done]. by rewrite Hn2.
       - intros j p Hj Hjx Hp.
         eapply extended_by_same_node; [by rewrite Hn2|].
         eapply Hcl1; eauto. eapply extended_by_same_node; [|exact Hjx]. by rewrite Hn2. }
  apply create_input_dict_inv in Hin as (s1 & r1 & Hm & Hn2 & Hok1).
  destruct (mapM_get_slice_sync fuel (parents (nodes s !!! i)) s s1 r1 IH) as [(Hext1 & Halt1 & Hcl1) Hparents];
    auto.
  { rewrite Hsame. intros p Hp. eapply S_closed; eauto. }
  specialize (Hparents (Hok1 eq_refl)). rewrite Hsame in Hparents.
  rewrite append_unfold, output_slice_new_output. cbn [start].
  assert (nodes s2 !!! i = nodes s1 !!! i) as Hi2 by (by rewrite Hn2).
  destruct (Z.eqb_spec (cache_len (_delayed_outputs (nodes s2 !!! i))) l) as [Hl|Hl].
  - (* the chunk is appended *)
    assert (nodes s1 !!! i = nodes s0 !!! i) as Hi1.
    { destruct (Halt1 i Hi) as [?|Hx]; [done|].
      apply extended_len in Hx; [|done]. rewrite Hi2 in Hl. lia. }
    rewrite getitem_unfold. intros [= <- <-].
    set (o := new_output s2 i (Slice l e) new_input (Some wv)).
    assert (extended_by wv l e s0 (appended i o s2) i) as Hnew.
    { unfold extended_by. rewrite nodes_appended, decide_True by done.
      rewrite Hi2, Hi1. cbn. exists o. split; [done|]. split; [done|].
      split; [apply output_slice_new_output|].
      unfold o, new_output. rewrite Hi2, Hi1. cbn.
      destruct (wv !! name (nodes s0 !!! i)); eauto. }
    assert (∀ j, j ≠ i → nodes (appended i o s2) !!! j = nodes s1 !!! j) as Hother.
    { intros j Hj. rewrite nodes_appended, decide_False by done. by rewrite Hn2. }
    split; [|done]. split; [eapply extends_trans; [exact Hext0|exact Hss']|]. split.
    + intros j Hj. destruct (decide (j = i)) as [->|Hne]; [by right|].
      rewrite Hother by done. destruct (Halt1 j Hj) as [?|?]; [by left|right].
      eapply extended_by_same_node; [|done]. by rewrite Hother.
    + intros j p Hj Hjx Hp. destruct (decide (p = i)) as [->|Hpi]; [done|].
      eapply extended_by_same_node; [by rewrite Hother|].
      destruct (decide (j = i)) as [->|Hji]; [by apply Hparents|].
      eapply Hcl1; eauto. eapply extended_by_same_node; [|exact Hjx]. by rewrite Hother.
  - intros [= <- <-]. split; [|intros [=]].
    split; [eapply extends_trans; [exact Hext0|exact Hss']|]. split.
    + intros j Hj. rewrite Hn2. destruct (Halt1 j Hj) as [?|?]; [by left|right].
      eapply extended_by_same_node; [|done]. by rewrite Hn2.
    + intros j p Hj Hjx Hp.
      eapply extended_by_same_node; [by rewrite Hn2|].
      eapply Hcl1; eauto. eapply extended_by_same_node; [|exact Hjx]. by rewrite Hn2.
Qed.
End override.

Lemma reach_snoc edges n k m : reach edges n k → m ∈ edges k → reach edges n m.
Proof.
  induction 1 as [n k Hk|n j k Hj Hjk IH]; intros Hm.
  - eapply reach_step; [exact Hk|]. by apply reach_edge.
  - eapply reach_step; [exact Hj|]. by apply IH.
Qed.

Lemma contiguous_upper a outputs o :
  contiguous_from a outputs → o ∈ outputs →
  stop (output_slice o) ≤ chunks_len a outputs.
Proof.
  revert a. induction outputs as [|o1 outputs IH]; intros a; cbn [contiguous_from].
  - intros _ H. by apply elem_of_nil in H.
  - intros (Hs & Hlt & Hrest) Hin. rewrite chunks_len_cons by done.
    apply elem_of_cons in Hin as [->|Hin]; [|by apply IH].
    by apply contiguous_end.
Qed.

Lemma datalist_from_skip c sl i outputs rest :
  (∀ o, o ∈ outputs → stop (output_slice o) ≤ start sl) →
  datalist_from c sl i (outputs ++ rest)
  = datalist_from c sl (i + length outputs) rest.
Proof.
  revert i. induction outputs as [|o outputs IH]; intros i Hstop; simpl.
  - by rewrite Nat.add_0_r.
  - assert (slen (slice_intersect (get_key_slice (delayed_key o)) sl 0) = 0) as ->.
    { specialize (Hstop o). unfold output_slice in Hstop.
      unfold slice_intersect. simpl.
      destruct (Z.leb_spec
                  (Z.min (stop sl) (stop (get_key_slice (delayed_key o))) - 0
                   - (Z.max (start sl) (start (get_key_slice (delayed_key o))) - 0)) 0)
        as [Hle|Hgt]; [done|].
      assert (stop (get_key_slice (delayed_key o)) ≤ start sl) by (apply Hstop; left).
      lia. }
    simpl. rewrite IH.
    + f_equal. lia.
    + intros o' Ho'. apply Hstop. by right.
Qed.

Lemma cache_getitem_last c outputs mask o a n :
  c_delayed_outputs c = outputs ++ [o] →
  c_stored_mask c = mask ++ [false] →
  length mask = length outputs →
  contiguous_from 0 outputs → chunks_len 0 outputs = a →
  output_slice o = Slice a (a + n) → 1 ≤ n →
  cache_getitem c (Slice a (a + n)) = Ok (DNamedItem o).
Proof.
  intros Ho Hm Hlen Hc Ha Hsl Hn. unfold cache_getitem, _get_output_datalist.
  rewrite Ho, datalist_from_skip.
  2: { intros o' Ho'. simpl. rewrite <- Ha. by apply contiguous_upper. }
  simpl. fold (output_slice o). rewrite Hsl. unfold slice_intersect. simpl.
  rewrite Z.max_id, Z.min_id.
  destruct (Z.leb_spec (a + n - 0 - (a - 0)) 0) as [Hl|Hl]; [lia|].
  unfold slen. simpl.
  destruct (Z.eqb_spec (a + n - 0 - (a - 0)) 0); [lia|].
  rewrite Hm, <- Hlen. rewrite lookup_app_r by lia.
  replace (length mask - length mask)%nat with 0%nat by lia. simpl.
  destruct (Z.eqb_spec (a + n - 0 - (a - 0)) (a + n - a)); [done|lia].
Qed.

Lemma generate_loop_done loop_fuel fuel self a b batch_size with_values s :
  b ≤ cache_len (_delayed_outputs (nodes s !!! self)) →
  generate_loop loop_fuel fuel self a b batch_size with_values s = (s, Ok tt).
Proof.
  intros Hb. destruct loop_fuel; simpl; munfold; simpl;
    by destruct (Z.ltb_spec (cache_len (_delayed_outputs (nodes s !!! self))) b); [lia|].
Qed.

Lemma generate_loop_single loop_fuel fuel self a n wv s :
  cache_len (_delayed_outputs (nodes s !!! self)) = a → 1 ≤ n →
  (∀ k v, wv !! k = Some v → normal n v) →
  generate_loop (S loop_fuel) fuel self a (a + n) n (Some wv) s =
  match get_slice fuel self (Slice a (a + n)) (Some wv) s with
  | (s1, Ok _) => generate_loop loop_fuel fuel self a (a + n) n (Some wv) s1
  | (s1, Err e) => (s1, Err e)
  end.
Proof.
  intros Ha Hn Hnormal. cbn [generate_loop]. munfold. unfold gets. cbn beta iota zeta. rewrite Ha.
  destruct (Z.ltb_spec a (a + n)); [|lia].
  replace (Z.min (a + n - a) n) with n by lia.
  replace (a - a) with 0 by lia.
  assert ((λ v, arr_getitem v (Slice 0 (0 + n))) <$> wv = wv) as ->.
  { apply map_eq. intros k. rewrite lookup_fmap.
    destruct (wv !! k) as [v|] eqn:Hk; simpl; [|done].
    f_equal. apply arr_getitem_full; eauto. }
  by destruct (get_slice _ _ _ _ s) as [s1 [d|e]].
Qed.

Lemma not_extended_by_self wv l e s i : ¬ extended_by wv l e s s i.
Proof.
  intros (o & Ho & _). apply (f_equal length) in Ho. rewrite length_app in Ho.
  simpl in Ho. lia.
Qed.

Lemma sync_inv_init wv l e s inS : sync_inv wv l e s inS s.
Proof.
  split; [apply extends_refl|]. split; [auto|].
  intros i p _ Hx. by apply not_extended_by_self in Hx.
Qed.

Lemma extended_reach wv l e s0 inS s n m :
  (∀ i p, inS i → p ∈ parents (nodes s0 !!! i) → inS p) →
  sync_inv wv l e s0 inS s →
  inS n → extended_by wv l e s0 s n → reach (parent_edges s0) n m →
  extended_by wv l e s0 s m.
Proof.
  intros Hclosed (_ & _ & Hk) Hn Hx Hreach.
  induction Hreach as [n m Hm|n k m Hk' Hkm IH].
  - eapply Hk; eauto.
  - apply IH; [eapply Hclosed; eauto|eapply Hk; eauto].
Qed.

(** A batch of [n] samples from a state in which [Z] and its ancestors have
    the cached length [a]. *)
Lemma generate_single_batch s rank loop_fuel fuel Z wv n :
  caches_ok s → ranked rank s → observed_ok s →
  (rank Z < fuel)%nat → 1 ≤ n →
  (∀ k v, wv !! k = Some v → rows_alike v) →
  (∀ j, j = Z ∨ reach (parent_edges s) Z j →
        cache_len (_delayed_outputs (nodes s !!! j)) = _generate_index (nodes s !!! Z)) →
  let a := _generate_index (nodes s !!! Z) in
  let wv' := (λ v, normalize_data v n) <$> wv in
  ∃ s1 d,
    generate (S loop_fuel) fuel Z n None (Some wv) s
    = (with_generate_index Z (a + n) s1, Ok d) ∧
    caches_ok s1 ∧ extends s s1 ∧
    ∀ j, j = Z ∨ reach (parent_edges s) Z j → extended_by wv' a (a + n) s s1 j.
Proof.
  intros Hok Hr Hobs Hfuel Hn Halike Hsync a wv'.
  set (inS := λ j, j = Z ∨ reach (parent_edges s) Z j).
  assert (∀ k v, wv' !! k = Some v → normal n v) as Hnormal.
  { intros k v. unfold wv'. rewrite lookup_fmap.
    destruct (wv !! k) as [v0|] eqn:Hk; simpl; [|done].
    intros [= <-]. apply normalize_normal; eauto. }
  assert (∀ i p, inS i → p ∈ parents (nodes s !!! i) → inS p) as Hclosed.
  { intros i p [->|Hi] Hp; right; [by apply reach_edge|by eapply reach_snoc]. }
  destruct (get_slice_terminates rank fuel Z (Slice a (a + n)) (Some wv') s)
    as (s1 & d1 & Hgs & _); auto.
  pose proof (get_slice_caches_ok _ _ _ _ _ _ _ Hgs Hok) as Hok1.
  pose proof (get_slice_extends _ _ _ _ _ _ _ Hgs) as Hext1.
  destruct (get_slice_sync wv' a (a + n) ltac:(lia)
              ltac:(intros k v Hk; replace (a + n - a) with n by lia; eauto)
              s inS Hclosed Hsync fuel Z s s1 (Ok d1)) as [Hinv HZ]; auto.
  { by left. }
  { apply sync_inv_init. }
  specialize (HZ eq_refl).
  assert (cache_len (_delayed_outputs (nodes s1 !!! Z)) = a + n) as Hlen1.
  { eapply (extended_len wv' a (a + n) s inS); eauto. by left. }
  rewrite generate_unfold. fold a. cbn [batch_size_or normalize_data_dict]. fold wv'.
  rewrite generate_loop_single; auto.
  rewrite Hgs, generate_loop_done by lia. rewrite getitem_unfold.
  destruct (cache_getitem_ok (nodes (with_generate_index Z (a + n) s1) !!! Z)
              (Slice a (a + n))) as [d ->].
  { apply caches_ok_with_generate_index; [lia|done]. }
  exists s1, d. split; [done|]. split; [done|]. split; [done|].
  intros j [->|Hj]; [done|].
  eapply extended_reach; eauto. by left.
Qed.

Lemma cache_with_generate_index self b s i :
  _delayed_outputs (nodes (with_generate_index self b s) !!! i)
  = _delayed_outputs (nodes s !!! i).
Proof. rewrite nodes_with_generate_index. by case_decide; subst. Qed.

Lemma acquire_cached loop_fuel fuel X n a o outputs mask t :
  caches_ok t →
  c_delayed_outputs (_delayed_outputs (nodes t !!! X)) = outputs ++ [o] →
  c_stored_mask (_delayed_outputs (nodes t !!! X)) = mask ++ [false] →
  length mask = length outputs →
  contiguous_from 0 outputs → chunks_len 0 outputs = a →
  output_slice o = Slice a (a + n) → 1 ≤ n →
  ∃ t', acquire loop_fuel (S fuel) X n a None None t = (t', Ok (DNamedItem o)) ∧
        stores t' = stores t.
Proof.
  intros Hok Ho Hm Hlen Hc Ha Hsl Hn.
  assert (cache_len (_delayed_outputs (nodes t !!! X)) = a + n) as Hcl.
  { rewrite cache_len_chunks, Ho, cache_len_app, Ha, Hsl. unfold slen. simpl. lia. }
  assert (∀ t1, _delayed_outputs (nodes t1 !!! X) = _delayed_outputs (nodes t !!! X) →
                get_slice (S fuel) X (Slice a (a + n)) None t1
                = (t1, Ok (DNamedItem o))) as Hcached.
  { intros t1 Hsame. rewrite get_slice_unfold. cbn [stop]. cbv zeta. rewrite Hsame, Hcl.
    destruct (Z.ltb_spec (a + n) (a + n)); [lia|]. rewrite getitem_unfold, Hsame.
    f_equal. eapply cache_getitem_last; eauto. }
  rewrite acquire_unfold. cbn [stop]. cbv zeta.
  destruct (Z.ltb_spec (_generate_index (nodes t !!! X)) (a + n)) as [Hlt|Hge].
  - rewrite generate_unfold. cbv zeta.
    replace (_generate_index (nodes t !!! X) + (a + n - _generate_index (nodes t !!! X)))
      with (a + n) by lia.
    rewrite generate_loop_done by lia. rewrite getitem_unfold.
    destruct (cache_getitem_ok (nodes (with_generate_index X (a + n) t) !!! X)
                (Slice (_generate_index (nodes t !!! X)) (a + n))) as [d ->].
    { apply caches_ok_with_generate_index; [lia|done]. }
    rewrite Hcached by apply cache_with_generate_index. eauto.
  - rewrite Hcached by done. eauto.
Qed.


(** * Properties of the leaf operations *)

Lemma compute_DCall st k op input_dict :
  compute st (DCall k op input_dict) =
  rbind (compute_all st (d_data input_dict)) (λ data,
  rbind (run_operation op (PyDict data (d_n input_dict) (d_index input_dict)
                             (d_random_state input_dict) (d_observed input_dict)))
        (λ out, Ok (VDict out))).
Proof.
  destruct input_dict as [data n index rs obs]. simpl. f_equal.
  unfold compute_all. induction data as [|p data IH]; simpl; [done|]. by rewrite IH.
Qed.

Lemma contract_violation op input out :
  user_output op input = Some (Ok out) → violates (d_n input) out →
  ∃ e, run_operation op input = Err e ∧ contract_error e.
Proof.
  destruct op as [f|v|f|f|f]; simpl; try done.
  - unfold simulator_operation. destruct (d_random_state input) as [prng|]; [|done].
    simpl. intros [= ->]. simpl. destruct out as [a|]; simpl.
    + intros Hv. destruct (shape0 a) as [s0|e] eqn:Hs; simpl.
      * destruct (Z.eqb_spec s0 (d_n input)) as [->|Hne]; simpl.
        -- destruct (Z.ltb_spec (ndim a) 2); [|by destruct Hv].
           eexists. split; [done|]. right. left. eauto.
        -- eexists. split; [done|]. right. left. eauto.
      * unfold shape0 in Hs. destruct (shape a); [|done]. injection Hs as <-.
        eexists. split; [done|]. right. by right.
    + intros _. eexists. split; [done|]. left. eauto.
  - unfold summary_operation. intros [= ->]. simpl. destruct out as [a|]; simpl.
    + intros Hv. destruct (shape0 a) as [s0|e] eqn:Hs; simpl.
      * destruct (Z.eqb_spec s0 (d_n input)) as [->|Hne]; simpl.
        -- destruct (Z.ltb_spec (ndim a) 2); [|by destruct Hv].
           eexists. split; [done|]. right. left. eauto.
        -- eexists. split; [done|]. right. left. eauto.
      * unfold shape0 in Hs. destruct (shape a); [|done]. injection Hs as <-.
        eexists. split; [done|]. right. by right.
    + intros _. eexists. split; [done|]. left. eauto.
  - unfold discrepancy_operation. destruct (d_observed input) as [obs|]; [|done].
    simpl. intros [= ->]. simpl. destruct out as [a|]; simpl.
    + intros Hv. case_bool_decide as Hshape.
      * exfalso. apply Hv. unfold shape0, ndim. rewrite Hshape. simpl. split; [done|lia].
      * eexists. split; [done|]. right. left. eauto.
    + intros _. eexists. split; [done|]. left. eauto.
Qed.

Lemma get_slice_constant fuel self sl s v :
  parents (nodes s !!! self) = [] →
  class (nodes s !!! self) = CConstant →
  operation (nodes s !!! self) = OpConstant v →
  c_store (_delayed_outputs (nodes s !!! self)) = None →
  cache_len (_delayed_outputs (nodes s !!! self)) < stop sl →
  let l := cache_len (_delayed_outputs (nodes s !!! self)) in
  let o := DCall (make_key (id s self) (Slice l (stop sl))) (OpConstant v)
             (PyDict [] (stop sl - l) l None None) in
  get_slice (S fuel) self sl None s
  = (appended self o s,
     cache_getitem (_delayed_outputs (nodes (appended self o s) !!! self)) sl).
Proof.
  intros Hp Hc Hop Hst Hlt l o. rewrite get_slice_unfold. cbv zeta. fold l.
  destruct (Z.ltb_spec l (stop sl)); [|lia].
  rewrite create_input_dict_unfold. cbv zeta. rewrite Hp, Hc. cbn [mapM].
  unfold mret, M_ret. cbn [start stop].
  rewrite append_unfold, output_slice_new_output. cbn [start]. fold l.
  rewrite Z.eqb_refl. rewrite getitem_unfold.
  unfold new_output. cbn [normalize_data_dict default]. rewrite lookup_empty, Hop.
  reflexivity.
Qed.

Lemma id_appended self o s i : id (appended self o s) i = id s i.
Proof.
  unfold id. rewrite graphs_appended, nodes_appended. by case_decide; subst.
Qed.

Lemma constant_appended v self o s :
  constant_node v (nodes s !!! self) →
  constant_node v (nodes (appended self o s) !!! self).
Proof. rewrite nodes_appended, decide_True by done. by intros (? & ? & ? & ?). Qed.

Lemma generate_loop_constant_step loop_fuel fuel self a b batch_size s v :
  constant_node v (nodes s !!! self) →
  node_ok (nodes s !!! self) →
  let l := cache_len (_delayed_outputs (nodes s !!! self)) in
  let m := Z.min (b - l) batch_size in
  l < b → 0 < m →
  let s1 := appended self (constant_chunk (id s self) v l m) s in
  generate_loop (S loop_fuel) (S fuel) self a b batch_size None s
  = generate_loop loop_fuel (S fuel) self a b batch_size None s1 ∧
  node_ok (nodes s1 !!! self) ∧
  cache_len (_delayed_outputs (nodes s1 !!! self)) = l + m ∧
  c_delayed_outputs (_delayed_outputs (nodes s1 !!! self))
  = c_delayed_outputs (_delayed_outputs (nodes s !!! self))
    ++ [constant_chunk (id s self) v l m] ∧
  c_stored_mask (_delayed_outputs (nodes s1 !!! self))
  = c_stored_mask (_delayed_outputs (nodes s !!! self)) ++ [false].
Proof.
  intros Hconst Hok l m Hlt Hm s1.
  assert (node_ok (nodes s1 !!! self)) as Hok1.
  { unfold s1. rewrite nodes_appended, decide_True by done.
    apply node_ok_appended; [done|by simpl|simpl; lia]. }
  split; [|split; [done|]].
  - destruct Hconst as (Hp & Hc & Hop & Hst).
    cbn [generate_loop]. munfold. unfold gets. cbn beta iota zeta. fold l.
    destruct (Z.ltb_spec l b); [|lia].
    rewrite (get_slice_constant fuel self (Slice l (l + Z.min (b - l) batch_size)) s v);
      auto; [|cbn [stop]; fold l m; lia].
    cbn [stop]. fold l m. replace (l + m - l) with m by lia.
    fold (constant_chunk (id s self) v l m). fold s1.
    by destruct (cache_getitem_ok (nodes s1 !!! self) (Slice l (l + m)) Hok1) as [d ->].
  - unfold s1. rewrite nodes_appended, decide_True by done.
    cbn [_delayed_outputs c_delayed_outputs c_stored_mask]. split; [|done].
    rewrite cache_len_chunks. cbn [c_delayed_outputs]. rewrite cache_len_app.
    rewrite <- cache_len_chunks. fold l.
    unfold constant_chunk, output_slice, slen. simpl. lia.
Qed.

(** When [get_slice] has to generate for a node that is not overridden and
    returns, the last chunk of the cache is the deferred call of the node's
    operation for the missing range, and realising it checks the contract of
    the user function. *)
Lemma get_slice_appends_call fuel self sl with_values s s' d :
  get_slice fuel self sl with_values s = (s', Ok d) →
  cache_len (_delayed_outputs (nodes s !!! self)) < stop sl →
  default ∅ with_values !! name (nodes s !!! self) = None →
  ∃ k input_dict,
    last (c_delayed_outputs (_delayed_outputs (nodes s' !!! self)))
    = Some (DCall k (operation (nodes s !!! self)) input_dict) ∧
    output_slice (DCall k (operation (nodes s !!! self)) input_dict)
    = Slice (cache_len (_delayed_outputs (nodes s !!! self))) (stop sl) ∧
    d_n input_dict = stop sl - cache_len (_delayed_outputs (nodes s !!! self)) ∧
    cache_len (_delayed_outputs (nodes s' !!! self)) = stop sl ∧
    (caches_ok s → caches_ok s') ∧
    ∀ st data out,
      compute_all st (d_data input_dict) = Ok data →
      user_output (operation (nodes s !!! self))
        (PyDict data (d_n input_dict) (d_index input_dict)
           (d_random_state input_dict) (d_observed input_dict)) = Some (Ok out) →
      violates (d_n input_dict) out →
      ∃ e, compute st (DCall k (operation (nodes s !!! self)) input_dict) = Err e ∧
           contract_error e.
Proof.
  intros Hgs Hlt Hname.
  pose proof (get_slice_caches_ok _ _ _ _ _ _ _ Hgs) as Hok.
  pose proof (get_slice_ok _ _ _ _ _ _ _ Hgs) as (Hlen & _).
  destruct fuel as [|fuel]; [done|].
  revert Hgs. rewrite get_slice_unfold. cbv zeta.
  destruct (Z.ltb_spec (cache_len (_delayed_outputs (nodes s !!! self))) (stop sl));
    [|lia].
  destruct (_create_input_dict _ _ _ _ s) as [s1 [new_input|e]] eqn:Hin; [|done].
  assert (extends s s1) as (Hn1 & _).
  { eapply (create_input_dict_preserves extends); [apply extends_refl|apply extends_trans|
      apply extends_substream| |exact Hin].
    intros p sl0 wv0 t t' r. apply get_slice_extends. }
  assert (d_n new_input = stop sl - cache_len (_delayed_outputs (nodes s !!! self))) as Hdn.
  { revert Hin. rewrite create_input_dict_unfold. cbv zeta.
    destruct (mapM (M:=M) _ _ s) as [t [ds|e]]; [|done].
    destruct (class (nodes s !!! self)); try (by intros [= _ <-]).
    destruct (observed_tuple _ _); [|done]. by intros [= _ <-]. }
  rewrite append_unfold, output_slice_new_output. cbn [start].
  destruct (Z.eqb_spec (cache_len (_delayed_outputs (nodes s1 !!! self)))
              (cache_len (_delayed_outputs (nodes s !!! self)))); [|done].
  rewrite getitem_unfold. intros [= <- _].
  destruct (Hn1 self) as (Hnm & _ & _ & _ & _ & Hop & _).
  assert (new_output s1 self
            (Slice (cache_len (_delayed_outputs (nodes s !!! self))) (stop sl)) new_input
            (normalize_data_dict with_values
               (stop sl - cache_len (_delayed_outputs (nodes s !!! self))))
          = DCall (make_key (id s1 self)
                     (Slice (cache_len (_delayed_outputs (nodes s !!! self))) (stop sl)))
              (operation (nodes s !!! self)) new_input) as Hnew.
  { unfold new_output. rewrite Hnm, Hop.
    assert (default ∅ (normalize_data_dict with_values
                         (stop sl - cache_len (_delayed_outputs (nodes s !!! self))))
              !! name (nodes s !!! self) = None) as ->; [|done].
    destruct with_values as [wv|]; simpl in *; [|done].
    by rewrite lookup_fmap, Hname. }
  rewrite Hnew in *. eexists _, new_input. split; [|split; [|split; [|split; [|split]]]].
  - rewrite nodes_appended, decide_True by done. simpl. by rewrite last_snoc.
  - done.
  - done.
  - rewrite Hlen. lia.
  - done.
  - intros st data out Hdata Hout Hviol. rewrite compute_DCall, Hdata. simpl.
    destruct (contract_violation _ _ _ Hout Hviol) as (err & -> & He). simpl. eauto.
Qed.

(** * Facts about the example states *)

Lemma child_ranked_heap_ranked rank s :
  child_ranked_heap rank s →
  ∀ i c, c ∈ children (nodes s !!! i) → (rank c < rank i)%nat.
Proof.
  intros Hr i c. rewrite lookup_total_node.
  destruct (nodes s !! i) as [nd|] eqn:Hi; simpl.
  - intros Hc. specialize (Hr i nd Hi). simpl in Hr. rewrite Forall_forall in Hr. auto.
  - intros Hc. by apply elem_of_nil in Hc.
Qed.

Lemma consistent_heap_consistent s : consistent_heap s → consistent s.
Proof.
  intros Hc i j. split.
  - rewrite (lookup_total_node s i).
    destruct (nodes s !! i) as [nd|] eqn:Hi; simpl.
    + intros Hj. destruct (Hc i nd Hi) as [Hp _]. rewrite Forall_forall in Hp. auto.
    + intros Hj. by apply elem_of_nil in Hj.
  - rewrite (lookup_total_node s j).
    destruct (nodes s !! j) as [nd|] eqn:Hj; simpl.
    + intros Hi. destruct (Hc j nd Hj) as [_ Hch]. rewrite Forall_forall in Hch. auto.
    + intros Hi. by apply elem_of_nil in Hi.
Qed.

Lemma rows_alike_dict_alike wv :
  rows_alike_dict wv → ∀ k v, wv !! k = Some v → rows_alike v.
Proof.
  intros Hd k v Hk r r' Hr Hr'. specialize (Hd k v Hk). simpl in Hd.
  rewrite Forall_forall in Hd. by rewrite (Hd r Hr), (Hd r' Hr').
Qed.

Lemma fresh_heap_sync s j :
  fresh_heap s →
  cache_len (_delayed_outputs (nodes s !!! j)) = 0 ∧ _generate_index (nodes s !!! j) = 0.
Proof.
  intros Hf. rewrite lookup_total_node.
  destruct (nodes s !! j) as [nd|] eqn:Hj; simpl; [|done].
  destruct (Hf j nd Hj) as (Ho & _ & Hg). apply nil_length_inv in Ho.
  unfold cache_len. by rewrite Ho.
Qed.

Lemma ex_chain_consistent : consistent_heap ex_chain.
Proof. apply (bool_decide_unpack _). by vm_compute. Qed.

Lemma ex_chain_child_ranked : child_ranked_heap (λ i, 1 - i)%nat ex_chain.
Proof. apply (bool_decide_unpack _). by vm_compute. Qed.

Lemma ex_siblings_fresh : fresh_heap ex_siblings.
Proof. apply (bool_decide_unpack _). by vm_compute. Qed.

Lemma ex_siblings_ranked : ranked_heap (λ i, i) ex_siblings.
Proof. apply (bool_decide_unpack _). by vm_compute. Qed.

Lemma ex_siblings_no_discrepancy : no_discrepancy ex_siblings.
Proof. apply (bool_decide_unpack _). by vm_compute. Qed.

Lemma ex_override_alike : rows_alike_dict ex_override.
Proof. apply (bool_decide_unpack _). by vm_compute. Qed.

(** * Further properties of the graph layer *)

Lemma py_insert_end {A} (l : list A) x : py_insert l (Z.of_nat (length l)) x = l ++ [x].
Proof.
  unfold py_insert, clamp.
  destruct (Z.ltb_spec (Z.of_nat (length l)) 0); [lia|].
  rewrite Z.min_id, Nat2Z.id, firstn_all, drop_all. done.
Qed.

Lemma elem_of_py_insert {A} (l : list A) index x y :
  y ∈ py_insert l index x ↔ y = x ∨ y ∈ l.
Proof.
  unfold py_insert. cbn zeta. rewrite elem_of_app, elem_of_cons.
  set (j := Z.to_nat (clamp (Z.of_nat (length l)) index)).
  assert (y ∈ l ↔ y ∈ take j l ∨ y ∈ drop j l) as ->; [|tauto].
  by rewrite <- elem_of_app, take_drop.
Qed.

Lemma NoDup_py_insert {A} (l : list A) index x :
  x ∉ l → NoDup l → NoDup (py_insert l index x).
Proof.
  intros Hx Hl. unfold py_insert. cbn zeta.
  rewrite <- (take_drop (Z.to_nat (clamp (Z.of_nat (length l)) index)) l) in Hx, Hl.
  revert Hx Hl. generalize (take (Z.to_nat (clamp (Z.of_nat (length l)) index)) l).
  generalize (drop (Z.to_nat (clamp (Z.of_nat (length l)) index)) l).
  intros d t Hx Hl. apply NoDup_app in Hl as (Ht & Htd & Hd).
  rewrite elem_of_app in Hx.
  apply NoDup_app. split; [done|]. split.
  - intros y Hy [->|Hyd]%elem_of_cons; [tauto|]. by eapply Htd.
  - apply NoDup_cons. tauto.
Qed.

Lemma add_child_unfold self node index s :
  _add_child self node index s =
  let nd := nodes s !!! self in
  if bool_decide (node ∈ children nd) then (s, Ok tt)
  else
    match index with
    | None => (with_children self (children nd ++ [node]) s, Ok tt)
    | Some index =>
        if (index <? 0) || (Z.of_nat (length (children nd)) <? index)
        then (s, Err index_out_of_bounds)
        else (with_children self (py_insert (children nd) index node) s, Ok tt)
    end.
Proof.
  unfold _add_child. munfold. unfold gets, modify. cbn beta iota zeta.
  case_bool_decide as Hin; rewrite ?bool_decide_true by done;
    rewrite ?bool_decide_false by done; [done|].
  destruct index as [index|]; simpl.
  - destruct ((index <? 0) || _); done.
  - by rewrite py_insert_end.
Qed.

Lemma nodes_with_parents self ps s i :
  nodes (with_parents self ps s) !!! i =
  if decide (i = self) then
    let nd := nodes s !!! self in
    Node (name nd) ps (children nd) (graph nd) (class nd)
                     (operation nd) (observed nd) (_generate_index nd)
                     (_num_resets nd) (_delayed_outputs nd)
  else nodes s !!! i.
Proof.
  unfold with_parents. simpl. destruct (decide (i = self)) as [->|Hne].
  - by rewrite lookup_total_insert_eq.
  - by rewrite lookup_total_insert_ne.
Qed.

Lemma nodes_with_children self cs s i :
  nodes (with_children self cs s) !!! i =
  if decide (i = self) then
    let nd := nodes s !!! self in
    Node (name nd) (parents nd) cs (graph nd) (class nd)
                     (operation nd) (observed nd) (_generate_index nd)
                     (_num_resets nd) (_delayed_outputs nd)
  else nodes s !!! i.
Proof.
  unfold with_children. simpl. destruct (decide (i = self)) as [->|Hne].
  - by rewrite lookup_total_insert_eq.
  - by rewrite lookup_total_insert_ne.
Qed.

(** The effect of a successful [add_parent] on the edge lists. *)
Lemma add_parent_edges fuel self node index index_child s s' :
  add_parent fuel self (Some node) index index_child s = (s', Ok tt) →
  (∃ ds, descendants fuel s self = Ok ds ∧ node ∉ ds) ∧
  (∀ i j, j ∈ parents (nodes s' !!! i) ↔
          j ∈ parents (nodes s !!! i) ∨ (i = self ∧ j = node)) ∧
  (∀ i j, j ∈ children (nodes s' !!! i) ↔
          j ∈ children (nodes s !!! i) ∨ (i = node ∧ j = self)) ∧
  (no_repeats s → no_repeats s').
Proof.
  intros H.
  destruct (descendants fuel s self) as [ds|e] eqn:Hds.
  2: { unfold add_parent in H. munfold. by rewrite Hds in H. }
  rewrite (add_parent_unfold _ _ _ _ _ _ _ Hds) in H.
  case_bool_decide as Hcyc; [done|].
  split; [eauto|]. cbn zeta in H.
  set (nd := nodes s !!! self) in *.
  assert (∃ ps, (∀ j, j ∈ ps ↔ j ∈ parents nd ∨ j = node) ∧
                (NoDup (parents nd) → NoDup ps) ∧
                _add_child node self index_child (with_parents self ps s) = (s', Ok tt))
    as (ps & Hps & Hnd & Hc).
  { case_bool_decide as Hin.
    - exists (parents nd). split; [|split; [done|]].
      + intros j. split; [auto|]. intros [?| ->]; done.
      + rewrite <- H. f_equal. unfold with_parents. fold nd.
        destruct s as [ns gs ss]. simpl. f_equal.
        apply map_eq. intros i. destruct (decide (i = self)) as [->|Hne].
        * rewrite lookup_insert_eq. subst nd. simpl.
          rewrite lookup_total_alt in Hin |- *. simpl in *.
          destruct (ns !! self) as [[]|] eqn:Hs; simpl in *; [done|].
          by apply elem_of_nil in Hin.
        * by rewrite lookup_insert_ne.
    - destruct index as [index|].
      + destruct ((index <? 0) || _); [done|].
        exists (py_insert (parents nd) index node). split; [|split; [|done]].
        * intros j. rewrite elem_of_py_insert. tauto.
        * by apply NoDup_py_insert.
      + exists (py_insert (parents nd) (Z.of_nat (length (parents nd))) node).
        split; [|split; [|done]].
        * intros j. rewrite elem_of_py_insert. tauto.
        * by apply NoDup_py_insert. }
  clear H. rewrite add_child_unfold in Hc. cbn zeta in Hc.
  set (s1 := with_parents self ps s) in *.
  assert (∀ i, children (nodes s1 !!! i) = children (nodes s !!! i)) as Hch1.
  { intros i. unfold s1. rewrite nodes_with_parents. by destruct (decide _) as [->|]. }
  assert (∀ i j, j ∈ parents (nodes s1 !!! i) ↔
                 j ∈ parents (nodes s !!! i) ∨ (i = self ∧ j = node)) as Hp1.
  { intros i j. unfold s1. rewrite nodes_with_parents.
    destruct (decide _) as [->|]; simpl; [rewrite Hps; fold nd; tauto|tauto]. }
  assert (no_repeats s → ∀ i, NoDup (parents (nodes s1 !!! i))) as Hn1.
  { intros Hr i. unfold s1. rewrite nodes_with_parents.
    destruct (decide _) as [->|]; simpl; [apply Hnd|]; apply Hr. }
  assert (∃ cs, (∀ j, j ∈ cs ↔ j ∈ children (nodes s1 !!! node) ∨ j = self) ∧
                (NoDup (children (nodes s1 !!! node)) → NoDup cs) ∧
                (∀ i, nodes s' !!! i =
                      if decide (i = node) then
                        let nd := nodes s1 !!! node in
                        Node (name nd) (parents nd) cs (graph nd) (class nd)
                          (operation nd) (observed nd) (_generate_index nd)
                          (_num_resets nd) (_delayed_outputs nd)
                      else nodes s1 !!! i)) as (cs & Hcs & Hndc & Hs').
  { case_bool_decide as Hin.
    - injection Hc as <-. exists (children (nodes s1 !!! node)).
      split; [|split; [done|]].
      + intros j. split; [auto|]. intros [?| ->]; done.
      + intros i. destruct (decide _) as [->|]; [|done]. by destruct (nodes s1 !!! node).
    - destruct index_child as [ic|].
      + destruct ((ic <? 0) || _); [done|]. injection Hc as <-.
        exists (py_insert (children (nodes s1 !!! node)) ic self).
        split; [|split].
        * intros j. rewrite elem_of_py_insert. tauto.
        * by apply NoDup_py_insert.
        * intros i. apply nodes_with_children.
      + injection Hc as <-.
        exists (children (nodes s1 !!! node) ++ [self]). split; [|split].
        * intros j. rewrite elem_of_app, list_elem_of_singleton. tauto.
        * intros Hn. rewrite <- py_insert_end. by apply NoDup_py_insert.
        * intros i. apply nodes_with_children. }
  split; [|split].
  - intros i j. rewrite Hs'. destruct (decide _) as [->|]; simpl; apply Hp1.
  - intros i j. rewrite Hs'. destruct (decide _) as [->|]; simpl.
    + rewrite Hcs, Hch1. tauto.
    + rewrite Hch1. split; [auto|]. intros [?|[? ?]]; done.
  - intros Hr i. rewrite Hs'. destruct (decide _) as [->|]; simpl.
    + split; [apply Hn1, Hr|]. apply Hndc. rewrite Hch1. apply Hr.
    + split; [apply Hn1, Hr|]. rewrite Hch1. apply Hr.
Qed.

Lemma reach_flip_back s n m :
  consistent s → reach (child_edges s) n m → reach (parent_edges s) m n.
Proof.
  intros Hc. induction 1 as [n m Hm|n k m Hk Hkm IH].
  - apply reach_edge. by apply Hc.
  - eapply reach_snoc; [exact IH|]. by apply Hc.
Qed.

Lemma reach_trans edges a b c : reach edges a b → reach edges b c → reach edges a c.
Proof.
  induction 1 as [a b Hb|a k b Hk Hkb IH]; intros Hc.
  - by eapply reach_step.
  - eapply reach_step; [exact Hk|]. by apply IH.
Qed.

Lemma reach_added_edge (edges edges' : nat → list nat) u v a b :
  (∀ i j, j ∈ edges' i ↔ j ∈ edges i ∨ (i = u ∧ j = v)) →
  reach edges' a b →
  reach edges a b ∨ ((a = u ∨ reach edges a u) ∧ (v = b ∨ reach edges v b)).
Proof.
  intros He. induction 1 as [a b Hb|a k b Hk Hkb IH].
  - apply He in Hb as [Hb|[-> ->]]; [left; by apply reach_edge|right; auto].
  - apply He in Hk as [Hk|[-> ->]].
    + destruct IH as [IH|[Hu Hv]].
      * left. by eapply reach_step.
      * right. split; [|done]. right. destruct Hu as [->|Hu]; [by apply reach_edge|].
        by eapply reach_step.
    + right. split; [by left|]. destruct IH as [IH|[Hu Hv]]; [by right|].
      done.
Qed.

Lemma traverse_err edges fuel n e : traverse edges fuel n = Err e → e = OutOfFuel.
Proof.
  revert n. induction fuel as [|fuel IH]; intros n; simpl; [congruence|].
  generalize (edges n) at 1 as acc. generalize (edges n) as l.
  induction l as [|x l IHl]; intros acc; simpl; [done|].
  destruct (traverse edges fuel x) as [ds|e'] eqn:Hx; simpl.
  - apply IHl.
  - fold (traverse_step (traverse edges fuel)). rewrite traverse_fold_err.
    intros [= <-]. by eapply IH.
Qed.

Lemma traverse_ok_edge edges fuel n l k :
  traverse edges (S fuel) n = Ok l → k ∈ edges n → ∃ l', traverse edges fuel k = Ok l'.
Proof.
  simpl. intros H Hk.
  apply (traverse_fold_ok edges fuel (edges n) (edges n) l) in H as [Hall _]. auto.
Qed.

Lemma traverse_ok_reach edges fuel n l m :
  traverse edges fuel n = Ok l → reach edges n m →
  ∃ fuel' l', (fuel' < fuel)%nat ∧ traverse edges fuel' m = Ok l'.
Proof.
  intros H Hr. revert fuel l H. induction Hr as [n m Hm|n k m Hk Hkm IH]; intros fuel l H.
  - destruct fuel as [|fuel]; [done|].
    destruct (traverse_ok_edge _ _ _ _ _ H Hm) as [l' Hl']. exists fuel, l'. split; [lia|done].
  - destruct fuel as [|fuel]; [done|].
    destruct (traverse_ok_edge _ _ _ _ _ H Hk) as [l' Hl'].
    destruct (IH _ _ Hl') as (fuel' & l'' & Hlt & Hl''). exists fuel', l''. split; [lia|done].
Qed.

Lemma traverse_cycle edges fuel n :
  reach edges n n → traverse edges fuel n = Err OutOfFuel.
Proof.
  intros Hr.
  assert (∀ l, traverse edges fuel n ≠ Ok l) as Hno.
  { induction fuel as [fuel IH] using lt_wf_ind. intros l Hl.
    destruct (traverse_ok_reach _ _ _ _ _ Hl Hr) as (fuel' & l' & Hlt & Hl').
    by eapply IH. }
  destruct (traverse edges fuel n) as [l|e] eqn:Ht; [by destruct (Hno l)|].
  f_equal. by eapply traverse_err.
Qed.

Lemma traverse_reaches_cycle edges fuel n k :
  reach edges n k → reach edges k k → traverse edges fuel n = Err OutOfFuel.
Proof.
  intros Hnk Hkk.
  destruct (traverse edges fuel n) as [l|e] eqn:Ht.
  - destruct (traverse_ok_reach _ _ _ _ _ Ht Hnk) as (fuel' & l' & _ & Hl').
    by rewrite traverse_cycle in Hl'.
  - f_equal. by eapply traverse_err.
Qed.

Lemma no_repeats_heap_no_repeats s : no_repeats_heap s → no_repeats s.
Proof.
  intros Hh i. rewrite lookup_total_node.
  destruct (nodes s !! i) as [nd|] eqn:Hi; simpl.
  - apply (Hh i nd Hi).
  - split; apply NoDup_nil_2.
Qed.

Lemma reach_rank edges (rank : nat → nat) a b :
  (∀ i c, c ∈ edges i → (rank c < rank i)%nat) → reach edges a b → (rank b < rank a)%nat.
Proof.
  intros Hr. induction 1 as [a b Hb|a k b Hk Hkb IH].
  - by apply Hr.
  - specialize (Hr a k Hk). lia.
Qed.

Lemma child_ranked_acyclic rank s : child_ranked_heap rank s → acyclic s.
Proof.
  intros Hr n Hn.
  apply (reach_rank _ rank) in Hn; [lia|].
  intros i c. apply (child_ranked_heap_ranked rank s Hr).
Qed.

Lemma add_parent_default fuel self node s ds :
  descendants fuel s self = Ok ds → node ∉ ds →
  let ps := parents (nodes s !!! self) in
  let s1 := if bool_decide (node ∈ ps) then s else with_parents self (ps ++ [node]) s in
  let cs := children (nodes s1 !!! node) in
  add_parent fuel self (Some node) None None s =
  (if bool_decide (self ∈ cs) then s1 else with_children node (cs ++ [self]) s1, Ok tt).
Proof.
  intros Hds Hn ps s1 cs.
  rewrite (add_parent_unfold _ _ _ _ _ _ _ Hds).
  rewrite bool_decide_false by done. cbn zeta. fold ps.
  rewrite py_insert_end. fold (with_parents self (ps ++ [node]) s).
  assert (_add_child node self None s1 =
          (if bool_decide (self ∈ cs) then s1 else with_children node (cs ++ [self]) s1, Ok tt)) as <-.
  { rewrite add_child_unfold. cbn zeta. fold cs. by case_bool_decide. }
  unfold s1. by case_bool_decide.
Qed.

Lemma edges_consistent s s' u v :
  (∀ i j, j ∈ parents (nodes s' !!! i) ↔
          j ∈ parents (nodes s !!! i) ∨ (i = u ∧ j = v)) →
  (∀ i j, j ∈ children (nodes s' !!! i) ↔
          j ∈ children (nodes s !!! i) ∨ (i = v ∧ j = u)) →
  consistent s → consistent s'.
Proof.
  intros Hp Hc Hs i j. rewrite Hp, Hc, (Hs i j). tauto.
Qed.

Lemma find_parent_None node i ps : find_parent node i ps = None ↔ node ∉ ps.
Proof.
  revert i. induction ps as [|p ps IH]; intros i; simpl.
  - split; [intros _; apply not_elem_of_nil|done].
  - rewrite not_elem_of_cons. case_bool_decide as Hp.
    + split; [done|]. intros [? _]. congruence.
    + rewrite IH. split; [intros ?; split; [congruence|done]|tauto].
Qed.

Lemma find_parent_Some node i ps j :
  find_parent node i ps = Some j →
  ∃ k : nat, j = i + Z.of_nat k ∧ ps !! k = Some node ∧ node ∉ take k ps.
Proof.
  revert i. induction ps as [|p ps IH]; intros i; simpl; [done|].
  case_bool_decide as Hp.
  - intros [= <-]. exists 0%nat. split; [lia|]. split; [by subst|]. simpl. apply not_elem_of_nil.
  - intros H. apply IH in H as (k & -> & Hk & Hn). exists (S k). split; [lia|].
    split; [done|]. simpl. rewrite not_elem_of_cons. split; [congruence|done].
Qed.

Lemma find_parent_NoDup node ps k :
  NoDup ps → ps !! k = Some node → find_parent node 0 ps = Some (Z.of_nat k).
Proof.
  intros Hnd Hk.
  destruct (find_parent node 0 ps) as [j|] eqn:Hf.
  - apply find_parent_Some in Hf as (k' & -> & Hk' & _).
    rewrite (NoDup_lookup ps k k' node Hnd Hk Hk'). f_equal; lia.
  - apply find_parent_None in Hf. destruct Hf. by eapply list_elem_of_lookup_2.
Qed.

Lemma find_parent_app_new node i ps :
  node ∉ ps → find_parent node i (ps ++ [node]) = Some (i + Z.of_nat (length ps)).
Proof.
  revert i. induction ps as [|p ps IH]; intros i Hn; simpl.
  - rewrite bool_decide_true by done. f_equal. lia.
  - apply not_elem_of_cons in Hn as [Hne Hn].
    rewrite bool_decide_false by congruence. rewrite IH by done. f_equal. lia.
Qed.

Lemma list_remove_first_None x l : list_remove_first x l = None ↔ x ∉ l.
Proof.
  induction l as [|y l IH]; simpl.
  - split; [intros _; apply not_elem_of_nil|done].
  - rewrite not_elem_of_cons. case_bool_decide as Hy.
    + split; [done|]. intros [? _]. congruence.
    + destruct (list_remove_first x l) as [l'|].
      * split; [done|]. intros [_ H]. by apply IH in H.
      * split; [intros _|done]. split; [congruence|]. by apply IH.
Qed.

Lemma list_remove_first_app_new x l :
  x ∉ l → list_remove_first x (l ++ [x]) = Some l.
Proof.
  induction l as [|y l IH]; intros Hn; simpl.
  - by rewrite bool_decide_true.
  - apply not_elem_of_cons in Hn as [Hne Hn].
    rewrite bool_decide_false by congruence. by rewrite IH.
Qed.

Lemma list_remove_first_NoDup x l l' :
  NoDup l → list_remove_first x l = Some l' →
  (∀ y, y ∈ l' ↔ y ∈ l ∧ y ≠ x) ∧ NoDup l'.
Proof.
  revert l'. induction l as [|z l IH]; intros l' Hnd; simpl; [done|].
  apply NoDup_cons in Hnd as [Hz Hnd].
  case_bool_decide as Hzx.
  - intros [= <-]. subst z. split; [|done].
    intros y. rewrite elem_of_cons. split.
    + intros Hy. split; [auto|]. intros ->. done.
    + intros [[?|?] ?]; done.
  - destruct (list_remove_first x l) as [l''|] eqn:Hl; [|done].
    intros [= <-]. destruct (IH l'' Hnd eq_refl) as [Hmem Hnd'']. split.
    + intros y. rewrite !elem_of_cons, Hmem. split.
      * intros [->|[? ?]]; auto.
      * intros [[->|?] ?]; auto.
    + apply NoDup_cons. split; [|done]. rewrite Hmem. tauto.
Qed.

Lemma delete_NoDup {A} (l : list A) j x :
  NoDup l → l !! j = Some x →
  (∀ y, y ∈ delete j l ↔ y ∈ l ∧ y ≠ x) ∧ NoDup (delete j l).
Proof.
  revert j. induction l as [|z l IH]; intros j Hnd; [done|].
  apply NoDup_cons in Hnd as [Hz Hnd].
  destruct j as [|j]; simpl.
  - intros [= ->]. split; [|done]. intros y. rewrite elem_of_cons. split.
    + intros Hy. split; [auto|]. intros ->. done.
    + intros [[?|?] ?]; done.
  - intros Hj. destruct (IH j Hnd Hj) as [Hmem Hnd']. split.
    + intros y. rewrite !elem_of_cons, Hmem. split.
      * intros [->|[? ?]]; [|auto]. split; [auto|]. intros ->.
        apply Hz. by eapply list_elem_of_lookup_2.
      * intros [[->|?] ?]; auto.
    + apply NoDup_cons. split; [|done]. rewrite Hmem. tauto.
Qed.

Lemma py_index_nat len (j : nat) : (j < len)%nat → py_index (Z.of_nat len) (Z.of_nat j) = Some j.
Proof.
  intros Hj. unfold py_index.
  destruct (Z.leb_spec 0 (Z.of_nat j)); [|lia].
  destruct (Z.ltb_spec (Z.of_nat j) (Z.of_nat len)); [|lia].
  simpl. by rewrite Nat2Z.id.
Qed.

(** [remove_parent] at a position that holds a parent. *)
Lemma remove_parent_at self s (j : nat) p :
  parents (nodes s !!! self) !! j = Some p →
  remove_parent self (ByIndex (Z.of_nat j)) s =
  let s1 := with_parents self (delete j (parents (nodes s !!! self))) s in
  match list_remove_first self (children (nodes s !!! p)) with
  | None => (s1, Raise not_in_list)
  | Some cs => (with_children p cs s1, Return (Z.of_nat j))
  end.
Proof.
  intros Hj. unfold remove_parent. cbn zeta.
  rewrite py_index_nat by (by eapply lookup_lt_Some).
  rewrite Hj. cbn [default from_option]. change (Datatypes.id p) with p.
  fold (with_parents self (delete j (parents (nodes s !!! self))) s).
  set (s1 := with_parents self _ s).
  assert (children (nodes s1 !!! p) = children (nodes s !!! p)) as ->.
  { unfold s1. rewrite nodes_with_parents. by destruct (decide _) as [->|]. }
  destruct (list_remove_first self (children (nodes s !!! p))); done.
Qed.

Lemma remove_parent_by_node self s node :
  remove_parent self (ByNode node) s =
  match find_parent node 0 (parents (nodes s !!! self)) with
  | None => (s, RaiseException "Could not find a parent")
  | Some index => remove_parent self (ByIndex index) s
  end.
Proof.
  unfold remove_parent. cbn zeta.
  by destruct (find_parent node 0 (parents (nodes s !!! self))).
Qed.

Lemma node_eta (nd : node) :
  Node (name nd) (parents nd) (children nd) (graph nd) (class nd) (operation nd)
    (observed nd) (_generate_index nd) (_num_resets nd) (_delayed_outputs nd) = nd.
Proof. by destruct nd. Qed.

Lemma delete_app_new {A} (l : list A) x : delete (length l) (l ++ [x]) = l.
Proof. induction l as [|y l IH]; simpl; [done|]. by rewrite IH. Qed.

Lemma unlinked_consistent self p s s' : unlinked self p s s' → consistent s → consistent s'.
Proof.
  intros (Hp & Hc & _) Hs i j. rewrite Hp, Hc, (Hs i j). tauto.
Qed.

Lemma remove_parent_index_ok self s (j : nat) p :
  consistent s → no_repeats s →
  parents (nodes s !!! self) !! j = Some p →
  ∃ s', remove_parent self (ByIndex (Z.of_nat j)) s = (s', Return (Z.of_nat j)) ∧
        parents (nodes s' !!! self) = delete j (parents (nodes s !!! self)) ∧
        unlinked self p s s'.
Proof.
  intros Hcon Hnr Hj.
  rewrite (remove_parent_at self s j p Hj). cbn zeta.
  assert (self ∈ children (nodes s !!! p)) as Hin.
  { apply Hcon. by eapply list_elem_of_lookup_2. }
  destruct (list_remove_first self (children (nodes s !!! p))) as [cs|] eqn:Hrm.
  2: { apply list_remove_first_None in Hrm. done. }
  destruct (list_remove_first_NoDup self _ cs (proj2 (Hnr p)) Hrm) as [Hcs Hcsnd].
  destruct (delete_NoDup _ j p (proj1 (Hnr self)) Hj) as [Hps Hpsnd].
  set (ps' := delete j (parents (nodes s !!! self))) in *.
  set (s1 := with_parents self ps' s).
  assert (∀ i, parents (nodes (with_children p cs s1) !!! i) =
               if decide (i = self) then ps' else parents (nodes s !!! i)) as HP.
  { intros i. rewrite nodes_with_children.
    assert (parents (nodes s1 !!! i) = if decide (i = self) then ps' else parents (nodes s !!! i)) as H1.
    { unfold s1. rewrite nodes_with_parents. by destruct (decide (i = self)). }
    destruct (decide (i = p)) as [->|]; [cbn zeta; cbn [parents]; exact H1|exact H1]. }
  assert (∀ i, children (nodes (with_children p cs s1) !!! i) =
               if decide (i = p) then cs else children (nodes s !!! i)) as HC.
  { intros i. rewrite nodes_with_children.
    destruct (decide (i = p)) as [->|]; [done|].
    unfold s1. rewrite nodes_with_parents. by destruct (decide (i = self)) as [->|]. }
  eexists. split; [done|]. split; [by rewrite HP, decide_True|].
  split; [|split].
  - intros i k. rewrite HP. destruct (decide (i = self)) as [->|].
    + rewrite Hps. split; [intros [? ?]; split; [done|]; intros [_ ?]; done|].
      intros [? Hne]. split; [done|]. intros ->. by apply Hne.
    + split; [intros ?; split; [done|]; intros [? _]; done|tauto].
  - intros i k. rewrite HC. destruct (decide (i = p)) as [->|].
    + rewrite Hcs. split; [intros [? ?]; split; [done|]; intros [_ ?]; done|].
      intros [? Hne]. split; [done|]. intros ->. by apply Hne.
    + split; [intros ?; split; [done|]; intros [? _]; done|tauto].
  - intros i. rewrite HP, HC. split.
    + destruct (decide (i = self)); [done|apply Hnr].
    + destruct (decide (i = p)); [done|apply Hnr].
Qed.

Lemma remove_parents_loop_ok fuel self s :
  consistent s → no_repeats s →
  (length (parents (nodes s !!! self)) ≤ fuel)%nat →
  ∃ s', remove_parents_loop fuel self s = (s', Return tt) ∧
        parents (nodes s' !!! self) = [] ∧
        (∀ i k, k ∈ parents (nodes s' !!! i) ↔ k ∈ parents (nodes s !!! i) ∧ i ≠ self) ∧
        (∀ i k, k ∈ children (nodes s' !!! i) ↔ k ∈ children (nodes s !!! i) ∧ k ≠ self) ∧
        consistent s' ∧ no_repeats s'.
Proof.
  revert s. induction fuel as [|fuel IH]; intros s Hcon Hnr Hlen.
  - destruct (parents (nodes s !!! self)) as [|p ps] eqn:Hps; [|simpl in Hlen; lia].
    exists s. simpl. rewrite Hps. simpl. split; [done|]. split; [done|].
    split; [|split; [|done]].
    + intros i k. split; [|tauto]. intros Hk. split; [done|]. intros ->.
      rewrite Hps in Hk. by apply elem_of_nil in Hk.
    + intros i k. split; [|tauto]. intros Hk. split; [done|]. intros ->.
      apply Hcon in Hk. rewrite Hps in Hk. by apply elem_of_nil in Hk.
  - destruct (parents (nodes s !!! self)) as [|p ps] eqn:Hps.
    + exists s. simpl. rewrite Hps. simpl. split; [done|]. split; [done|].
      split; [|split; [|done]].
      * intros i k. split; [|tauto]. intros Hk. split; [done|]. intros ->.
        rewrite Hps in Hk. by apply elem_of_nil in Hk.
      * intros i k. split; [|tauto]. intros Hk. split; [done|]. intros ->.
        apply Hcon in Hk. rewrite Hps in Hk. by apply elem_of_nil in Hk.
    + destruct (remove_parent_index_ok self s 0 p Hcon Hnr) as (s1 & Hrun & Hps1 & Hun).
      { by rewrite Hps. }
      pose proof (unlinked_consistent _ _ _ _ Hun Hcon) as Hcon1.
      destruct Hun as (Hp1 & Hc1 & Hnr1).
      rewrite Hps in Hps1. simpl in Hps1.
      destruct (IH s1 Hcon1 Hnr1) as (s' & Hloop & Hnil & Hp' & Hc' & Hcon' & Hnr').
      { rewrite Hps1. simpl in Hlen. lia. }
      exists s'. split.
      { cbn [remove_parents_loop]. rewrite Hps. cbn [length].
        destruct (Z.ltb_spec 0 (Z.of_nat (S (length ps)))); [|lia].
        change (Z.of_nat 0) with 0 in Hrun. by rewrite Hrun. }
      split; [done|]. split; [|split; [|done]].
      * intros i k. rewrite Hp', Hp1. split; [tauto|]. intros [? ?]. split; [|done].
        split; [done|]. tauto.
      * intros i k. rewrite Hc', Hc1. split; [tauto|]. intros [? ?]. split; [|done].
        split; [done|]. tauto.
Qed.

Lemma remove_from_children_ok self cs s :
  consistent s → no_repeats s → NoDup cs →
  (∀ c, c ∈ cs → self ∈ parents (nodes s !!! c)) →
  ∃ s', remove_from_children self cs s = (s', Return tt) ∧
        (∀ i k, k ∈ parents (nodes s' !!! i) ↔
                k ∈ parents (nodes s !!! i) ∧ ¬ (i ∈ cs ∧ k = self)) ∧
        (∀ i k, k ∈ children (nodes s' !!! i) ↔
                k ∈ children (nodes s !!! i) ∧ ¬ (i = self ∧ k ∈ cs)) ∧
        consistent s' ∧ no_repeats s'.
Proof.
  revert s. induction cs as [|c cs IH]; intros s Hcon Hnr Hnd Hall.
  - exists s. split; [done|]. split; [|split; [|done]].
    + intros i k. split; [|tauto]. intros Hk. split; [done|]. intros [Hi _].
      by apply elem_of_nil in Hi.
    + intros i k. split; [|tauto]. intros Hk. split; [done|]. intros [_ Hi].
      by apply elem_of_nil in Hi.
  - apply NoDup_cons in Hnd as [Hc Hnd].
    assert (self ∈ parents (nodes s !!! c)) as Hself by (apply Hall; left).
    apply list_elem_of_lookup_1 in Hself as [j Hj].
    destruct (remove_parent_index_ok c s j self Hcon Hnr Hj) as (s1 & Hrun & _ & Hun).
    pose proof (unlinked_consistent _ _ _ _ Hun Hcon) as Hcon1.
    destruct Hun as (Hp1 & Hc1 & Hnr1).
    destruct (IH s1 Hcon1 Hnr1 Hnd) as (s' & Hloop & Hp' & Hc' & Hcon' & Hnr').
    { intros c' Hc'. apply Hp1. split; [apply Hall; by right|].
      intros [-> _]. done. }
    exists s'. split.
    { cbn [remove_from_children]. rewrite remove_parent_by_node.
      rewrite (find_parent_NoDup self _ j (proj1 (Hnr c)) Hj). by rewrite Hrun. }
    split; [|split; [|done]].
    + intros i k. rewrite Hp', Hp1, elem_of_cons. split.
      * intros [[? Hn1] Hn2]. split; [done|]. intros [[->|?] ->]; tauto.
      * intros [? Hn]. split; [split; [done|]|]; intros [? ?]; apply Hn; auto.
    + intros i k. rewrite Hc', Hc1, elem_of_cons. split.
      * intros [[? Hn1] Hn2]. split; [done|]. intros [-> [->|?]]; tauto.
      * intros [? Hn]. split; [split; [done|]|]; intros [? ?]; apply Hn; auto.
Qed.

Lemma no_elements {A} (l : list A) : (∀ x, x ∉ l) → l = [].
Proof. destruct l as [|x l]; [done|]. intros H. destruct (H x). left. Qed.

(** * The claims *)

(** C1, counterexample.  In the chain of a constant [c] and its child [s],
    one call [s.generate(2)] succeeds and leaves the parent [c] with the
    chunk of range 0..2 in its cache while its generated length is still 0:
    the chunks of [c] do not partition the interval up to its generated
    length. *)
Lemma parent_cache_exceeds_generated_length :
  let s' := run_generates [GenerateCall 1 2 None None 2 2] ex_chain in
  let parent := nodes s' !!! 0%nat in
  is_ok (generate 2 2 1%nat 2 None None ex_chain).2 = true ∧
  map output_slice (c_delayed_outputs (_delayed_outputs parent)) = [Slice 0 2] ∧
  _generate_index parent = 0 ∧
  ¬ partition_of (c_delayed_outputs (_delayed_outputs parent)) (_generate_index parent).
Proof.
  cbv zeta. split; [by vm_compute|]. split; [by vm_compute|]. split; [by vm_compute|].
  intros [Hunion _]. specialize (Hunion 0).
  destruct Hunion as [_ Hunion].
  assert (0 ≤ 0 < _generate_index (nodes (run_generates [GenerateCall 1 2 None None 2 2]
                                            ex_chain) !!! 0%nat)) as Hx.
  { apply Hunion.
    assert (∃ o, head (c_delayed_outputs (_delayed_outputs
                   (nodes (run_generates [GenerateCall 1 2 None None 2 2] ex_chain)
                      !!! 0%nat))) = Some o ∧ output_slice o = Slice 0 2) as (o & Ho & Hsl).
    { vm_compute. eexists. split; reflexivity. }
    exists o. split.
    - apply head_Some_elem_of. exact Ho.
    - unfold in_chunk. rewrite Hsl. simpl. lia. }
  vm_compute in Hx. destruct Hx as [_ Hx]. discriminate Hx.
Qed.

(** C1, as amended.  From a state whose caches are in order, after any
    sequence of [generate] calls on any nodes, with any sample counts, batch
    sizes and overrides, the chunks of every node are pairwise disjoint and
    their union is exactly the interval from 0 to the cached length, which
    is at least the generated length.  On an acyclic graph a call
    [generate(n)] with [n >= 0] and a positive (or absent) batch size on a
    node whose cached length equals its generated length returns, advances
    the generated length by [n], and leaves the chunks of that node a
    partition of the interval from 0 to the new generated length.
    [DelayedOutputCache.append] raises, and leaves the state as it is, when
    the start of the appended chunk differs from the cached length. *)
Theorem generate_keeps_caches_contiguous calls s :
  caches_ok s →
  (∀ i, let nd := nodes (run_generates calls s) !!! i in
        partition_of (c_delayed_outputs (_delayed_outputs nd))
          (cache_len (_delayed_outputs nd)) ∧
        _generate_index nd ≤ cache_len (_delayed_outputs nd)) ∧
  (∀ rank loop_fuel fuel self n batch_size with_values,
     ranked rank s → observed_ok s → (rank self < fuel)%nat →
     0 ≤ n → (∀ k, batch_size = Some k → 0 ≤ k) → n ≤ Z.of_nat loop_fuel →
     cache_len (_delayed_outputs (nodes s !!! self)) = _generate_index (nodes s !!! self) →
     ∃ s' d, generate loop_fuel fuel self n batch_size with_values s = (s', Ok d) ∧
             _generate_index (nodes s' !!! self) = _generate_index (nodes s !!! self) + n ∧
             partition_of (c_delayed_outputs (_delayed_outputs (nodes s' !!! self)))
               (_generate_index (nodes s' !!! self))) ∧
  (∀ self output,
     start (output_slice output) ≠ cache_len (_delayed_outputs (nodes s !!! self)) →
     append self output s = (s, Err non_matching_slice)).
Proof.
  intros Hok. split; [|split].
  - intros i. pose proof (run_generates_caches_ok calls s Hok i) as Hi.
    destruct Hi as (Hc & _ & _ & Hg). split; [|done]. by apply contiguous_partition.
  - intros rank loop_fuel fuel self n batch_size with_values Hr Hobs Hfuel Hn Hbs Hloop Hsync.
    destruct (generate_terminates rank loop_fuel fuel self n batch_size with_values s)
      as (s' & d & Hgen); auto.
    exists s', d. split; [done|].
    destruct (generate_exact _ _ _ _ _ _ _ _ _ Hgen Hsync Hn Hbs) as [Hidx Hlen].
    split; [done|]. rewrite <- Hlen. apply contiguous_partition.
    by destruct (generate_caches_ok _ _ _ _ _ _ _ _ _ Hgen Hok self).
  - intros self output. apply append_mismatch.
Qed.

(** C1, witness: two [generate] calls on the chain, one on the child with
    batch size 2 and one on the parent with batch size 3. *)
Lemma generate_keeps_caches_contiguous_witness :
  let calls := [GenerateCall 1 5 (Some 2) None 5 2; GenerateCall 0 7 (Some 3) None 7 1] in
  (∀ i, let nd := nodes (run_generates calls ex_chain) !!! i in
        partition_of (c_delayed_outputs (_delayed_outputs nd))
          (cache_len (_delayed_outputs nd)) ∧
        _generate_index nd ≤ cache_len (_delayed_outputs nd)) ∧
  ∃ s' d, generate 5 2 1%nat 5 (Some 2) None ex_chain = (s', Ok d) ∧
          _generate_index (nodes s' !!! 1%nat) = 5.
Proof.
  pose proof (generate_keeps_caches_contiguous
                [GenerateCall 1 5 (Some 2) None 5 2; GenerateCall 0 7 (Some 3) None 7 1]
                ex_chain (fresh_heap_caches_ok _ ex_chain_fresh)) as (Hall & Hgen & _).
  split; [exact Hall|].
  destruct (Hgen (λ i, i) 5%nat 2%nat 1%nat 5 (Some 2) None) as (s' & d & Hd & Hidx & _).
  - apply ranked_heap_ranked, ex_chain_ranked.
  - apply no_discrepancy_observed_ok, ex_chain_no_discrepancy.
  - lia.
  - lia.
  - intros k [= <-]. lia.
  - simpl. lia.
  - reflexivity.
  - exists s', d. split; [done|]. rewrite Hidx. reflexivity.
Defined.

(** C2.  When [get_slice] has returned a description [d] for a slice, a
    second call with the same slice (and any overrides) returns the same [d]
    and leaves the state as the first call left it.  In any state in which
    the upper bound of the slice is at most the cached length, [get_slice]
    leaves the state unchanged (no chunk is appended, no call of the node's
    operation is built) and its result is [__getitem__] of the existing
    cache. *)
Theorem get_slice_idempotent fuel fuel' self sl with_values with_values' s s' d :
  get_slice fuel self sl with_values s = (s', Ok d) →
  get_slice (S fuel') self sl with_values' s' = (s', Ok d) ∧
  (∀ s0, stop sl ≤ cache_len (_delayed_outputs (nodes s0 !!! self)) →
         get_slice (S fuel') self sl with_values' s0
         = (s0, cache_getitem (_delayed_outputs (nodes s0 !!! self)) sl)).
Proof.
  intros Hgs.
  assert (∀ s0, stop sl ≤ cache_len (_delayed_outputs (nodes s0 !!! self)) →
                get_slice (S fuel') self sl with_values' s0
                = (s0, cache_getitem (_delayed_outputs (nodes s0 !!! self)) sl)) as Hcached.
  { intros s0 Hle. rewrite get_slice_unfold. simpl.
    destruct (Z.ltb_spec (cache_len (_delayed_outputs (nodes s0 !!! self))) (stop sl));
      [lia|]. apply getitem_unfold. }
  split; [|done].
  apply get_slice_ok in Hgs as (Hlen & Hd & _).
  rewrite Hcached by lia. by rewrite Hd.
Qed.

(** C2, witness: the slice 0..3 of the child of the chain, twice. *)
Lemma get_slice_idempotent_witness :
  let run := get_slice 2 1%nat (Slice 0 3) None ex_chain in
  ∃ d, run.2 = Ok d ∧
       get_slice 1 1%nat (Slice 0 3) None run.1 = (run.1, Ok d).
Proof.
  cbv zeta.
  destruct (get_slice 2 1%nat (Slice 0 3) None ex_chain) as [s' [d|e]] eqn:Hrun.
  - exists d. split; [done|].
    apply (get_slice_idempotent 2 0 1%nat (Slice 0 3) None None ex_chain s' d Hrun).
  - vm_compute in Hrun. discriminate Hrun.
Defined.

(** C3, failing input.  The child [s] of the chain has a store.  A second
    node named ["s"] is registered with the graph, which renames the child
    to ["s_old"], and three samples are generated from the child: they are
    persisted under the identity [task.s_old.0] that the node has then, while
    its cache is still bound to [task.s.0].  [reset(propagate=True)] on the
    constant returns and leaves the child with generated length 0, a higher
    version, a new identity and an empty cache, but the purge is made for
    [task.s.0]: the entry of the node's old identity [task.s_old.0] is still
    in the store, and reading the old identity returns the three samples. *)
Lemma reset_keeps_entries_of_renamed_node :
  let s := ex_renamed in
  let run := reset 2 0%nat true s in
  let old_id := NodeId "task" "s_old" 0 in
  descendants 2 s 0%nat = Ok [1%nat] ∧
  id s 1%nat = old_id ∧
  c_node_id (_delayed_outputs (nodes s !!! 1%nat)) = NodeId "task" "s" 0 ∧
  c_store (_delayed_outputs (nodes s !!! 1%nat)) = Some 0%nat ∧
  map fst (stores s !!! 0%nat) = [make_key old_id (Slice 0 3)] ∧
  run.2 = Ok tt ∧
  _generate_index (nodes run.1 !!! 1%nat) = 0 ∧
  (version (nodes s !!! 1%nat) < version (nodes run.1 !!! 1%nat))%nat ∧
  id run.1 1%nat = NodeId "task" "s_old" 1 ∧
  c_delayed_outputs (_delayed_outputs (nodes run.1 !!! 1%nat)) = [] ∧
  map fst (stores run.1 !!! 0%nat) = [make_key old_id (Slice 0 3)] ∧
  store_read_data (stores run.1 !!! 0%nat) old_id (Slice 0 3)
  = Ok (VArr (Arr [Arr [Item (SNum 3)]])).
Proof. cbv zeta. repeat split; by vm_compute. Qed.






(** C6, counterexample.  For a simulator whose function returns a
    one-dimensional array, [get_slice(slice(0, 2))] on the empty cache
    succeeds and appends the chunk of range 0..2: the cache then has length
    2.  The format error is raised only when the result is realised. *)
Lemma bad_chunk_is_appended :
  let run := get_slice 1 0%nat (Slice 0 2) None ex_bad_simulator in
  cache_len (_delayed_outputs (nodes ex_bad_simulator !!! 0%nat)) = 0 ∧
  map output_slice (c_delayed_outputs (_delayed_outputs (nodes run.1 !!! 0%nat)))
  = [Slice 0 2] ∧
  cache_len (_delayed_outputs (nodes run.1 !!! 0%nat)) = 2 ∧
  ∃ d, run.2 = Ok d ∧
       compute (stores run.1) d = Err (format_error "Simulation").
Proof.
  cbv zeta. split; [by vm_compute|]. split; [by vm_compute|]. split; [by vm_compute|].
  eexists. split; [by vm_compute|]. by vm_compute.
Qed.

(** C6, as amended.  On an acyclic graph whose caches are in order, when
    [get_slice] of an operation node has to generate (the slice ends beyond
    the cached length, the node is not overridden), it returns, and it has
    appended, as last chunk, the deferred call of the node's operation for
    the missing range: the cache covers the slice and the caches stay in
    order.  Whenever that chunk is realised and the user function of a
    simulator, summary or discrepancy returns something that is not an array
    of at least two dimensions with as many rows as the batch has samples,
    the realisation fails with a contract error (output type, output format,
    or the index error of a 0-d shape). *)
Theorem shape_contract_checked_when_realised rank fuel self sl with_values s :
  caches_ok s → ranked rank s → observed_ok s → (rank self < fuel)%nat →
  cache_len (_delayed_outputs (nodes s !!! self)) < stop sl →
  default ∅ with_values !! name (nodes s !!! self) = None →
  ∃ s' d k input_dict,
    get_slice fuel self sl with_values s = (s', Ok d) ∧
    last (c_delayed_outputs (_delayed_outputs (nodes s' !!! self)))
    = Some (DCall k (operation (nodes s !!! self)) input_dict) ∧
    output_slice (DCall k (operation (nodes s !!! self)) input_dict)
    = Slice (cache_len (_delayed_outputs (nodes s !!! self))) (stop sl) ∧
    d_n input_dict = stop sl - cache_len (_delayed_outputs (nodes s !!! self)) ∧
    cache_len (_delayed_outputs (nodes s' !!! self)) = stop sl ∧
    caches_ok s' ∧
    ∀ st data out,
      compute_all st (d_data input_dict) = Ok data →
      user_output (operation (nodes s !!! self))
        (PyDict data (d_n input_dict) (d_index input_dict)
           (d_random_state input_dict) (d_observed input_dict)) = Some (Ok out) →
      violates (d_n input_dict) out →
      ∃ e, compute st (DCall k (operation (nodes s !!! self)) input_dict) = Err e ∧
           contract_error e.
Proof.
  intros Hok Hr Hobs Hfuel Hlt Hname.
  destruct (get_slice_terminates rank fuel self sl with_values s Hok Hr Hobs Hfuel)
    as (s' & d & Hgs & _).
  destruct (get_slice_appends_call fuel self sl with_values s s' d Hgs Hlt Hname)
    as (k & input_dict & Hlast & Hsl & Hn & Hlen & Hok' & Hreal).
  exists s', d, k, input_dict.
  split; [exact Hgs|]. split; [exact Hlast|]. split; [exact Hsl|]. split; [exact Hn|].
  split; [exact Hlen|]. split; [by apply Hok'|]. exact Hreal.
Qed.

(** C6, witness: the simulator whose function returns a one-dimensional
    array. *)
Lemma shape_contract_checked_when_realised_witness :
  let op := operation (nodes ex_bad_simulator !!! 0%nat) in
  ∃ s' d k input_dict,
    get_slice 1 0%nat (Slice 0 2) None ex_bad_simulator = (s', Ok d) ∧
    last (c_delayed_outputs (_delayed_outputs (nodes s' !!! 0%nat)))
    = Some (DCall k op input_dict) ∧
    output_slice (DCall k op input_dict)
    = Slice (cache_len (_delayed_outputs (nodes ex_bad_simulator !!! 0%nat))) 2 ∧
    d_n input_dict = 2 - cache_len (_delayed_outputs (nodes ex_bad_simulator !!! 0%nat)) ∧
    cache_len (_delayed_outputs (nodes s' !!! 0%nat)) = 2 ∧
    caches_ok s' ∧
    ∀ st data out,
      compute_all st (d_data input_dict) = Ok data →
      user_output op
        (PyDict data (d_n input_dict) (d_index input_dict)
           (d_random_state input_dict) (d_observed input_dict)) = Some (Ok out) →
      violates (d_n input_dict) out →
      ∃ e, compute st (DCall k op input_dict) = Err e ∧ contract_error e.
Proof.
  cbv zeta.
  apply (shape_contract_checked_when_realised (λ _, 0%nat) 1 0%nat (Slice 0 2) None
           ex_bad_simulator).
  - apply fresh_heap_caches_ok. apply (bool_decide_unpack _). by vm_compute.
  - apply ranked_heap_ranked. apply (bool_decide_unpack _). by vm_compute.
  - intros i p Hc. exfalso. revert Hc. rewrite lookup_total_node.
    destruct (decide (i = 0%nat)) as [->|Hne]; [by vm_compute|].
    unfold ex_bad_simulator. simpl. by rewrite lookup_singleton_ne.
  - lia.
  - by vm_compute.
  - by vm_compute.
Defined.

(** C7.  In an acyclic graph whose parent and child lists mirror each
    other, if [B] is an ancestor of [A] then [B.add_parent(A)], with any
    insertion indices, raises the cycle error and leaves the whole state,
    and with it the parent and child lists of both nodes, as it was. *)
Theorem add_parent_rejects_cycle s (rank : nat → nat) fuel A B index index_child :
  consistent s →
  (∀ i c, c ∈ children (nodes s !!! i) → (rank c < rank i)%nat) →
  (rank B < fuel)%nat →
  reach (parent_edges s) A B →
  add_parent fuel B (Some A) index index_child s = (s, Err cyclic_structure).
Proof.
  intros Hcons Hrank Hfuel Hanc.
  destruct (traverse_terminates (child_edges s) rank fuel B) as [ds Hds]; [done..|].
  rewrite <- descendants_traverse in Hds.
  rewrite (add_parent_unfold _ _ _ _ _ _ ds Hds).
  rewrite bool_decide_eq_true_2; [done|].
  rewrite descendants_traverse in Hds.
  eapply traverse_complete; [exact Hds|]. by apply reach_flip.
Qed.

(** C7, witness: the constant of the chain asked to take its child as a
    parent. *)
Lemma add_parent_rejects_cycle_witness :
  add_parent 2 0%nat (Some 1%nat) None None ex_chain = (ex_chain, Err cyclic_structure).
Proof.
  apply (add_parent_rejects_cycle ex_chain (λ i, 1 - i)%nat).
  - apply consistent_heap_consistent, ex_chain_consistent.
  - apply child_ranked_heap_ranked, ex_chain_child_ranked.
  - simpl. lia.
  - apply reach_edge. apply (bool_decide_unpack _). by vm_compute.
Defined.

(** C8, counterexample.  When the node is a parent already, [add_parent]
    with out-of-range indices for both lists raises nothing and changes
    nothing. *)
Lemma add_parent_ignores_index_of_present_parent :
  (7 < 0 ∨ Z.of_nat (length (parents (nodes ex_chain !!! 1%nat))) < 7) ∧
  add_parent 2 1%nat (Some 0%nat) (Some 7) (Some 9) ex_chain = (ex_chain, Ok tt).
Proof. split; [right; by vm_compute|by vm_compute]. Qed.

(** An out-of-range index for the children list of a new parent is only
    found by [_add_child], after the parent has been inserted: the call
    raises and leaves a parent entry without its child entry. *)
Lemma add_parent_child_index_half_edge :
  let run := add_parent 2 0%nat (Some 1%nat) None (Some 5) ex_siblings in
  run.2 = Err index_out_of_bounds ∧
  parents (nodes run.1 !!! 0%nat) = [1%nat] ∧
  children (nodes run.1 !!! 1%nat) = [2%nat].
Proof. by vm_compute. Qed.

(** C8, as amended.  For a node that is not a descendant of [self]: if it
    is not yet a parent of [self], [add_parent] with an out-of-range index
    for the parents list raises the index error and leaves the state as it
    was; if it is a parent already, the index is not examined, no parent is
    inserted, and the call is [_add_child] alone. *)
Theorem add_parent_index_out_of_bounds s fuel self node index index_child ds :
  descendants fuel s self = Ok ds → node ∉ ds →
  (node ∉ parents (nodes s !!! self) →
   index < 0 ∨ Z.of_nat (length (parents (nodes s !!! self))) < index →
   add_parent fuel self (Some node) (Some index) index_child s
   = (s, Err index_out_of_bounds)) ∧
  (node ∈ parents (nodes s !!! self) →
   add_parent fuel self (Some node) (Some index) index_child s
   = _add_child node self index_child s).
Proof.
  intros Hds Hnot.
  rewrite (add_parent_unfold _ _ _ _ _ _ ds Hds).
  rewrite bool_decide_eq_false_2 by done. simpl. split.
  - intros Hp Hidx. rewrite bool_decide_eq_false_2 by done.
    destruct (Z.ltb_spec index 0); simpl; [done|].
    destruct (Z.ltb_spec (Z.of_nat (length (parents (nodes s !!! self)))) index); [done|lia].
  - intros Hp. by rewrite bool_decide_eq_true_2.
Qed.

(** C8, witness: index 5 for a new parent of [X], and for a parent that
    [Z] has already. *)
Lemma add_parent_index_out_of_bounds_witness :
  add_parent 2 0%nat (Some 1%nat) (Some 5) None ex_siblings
  = (ex_siblings, Err index_out_of_bounds) ∧
  add_parent 2 2%nat (Some 1%nat) (Some 5) None ex_siblings
  = _add_child 1%nat 2%nat None ex_siblings.
Proof.
  split.
  - apply (add_parent_index_out_of_bounds ex_siblings 2 0%nat 1%nat 5 None [2%nat]).
    + by vm_compute.
    + apply (bool_decide_unpack _). by vm_compute.
    + apply (bool_decide_unpack _). by vm_compute.
    + right. by vm_compute.
  - apply (add_parent_index_out_of_bounds ex_siblings 2 2%nat 1%nat 5 None []).
    + by vm_compute.
    + apply (bool_decide_unpack _). by vm_compute.
    + apply (bool_decide_unpack _). by vm_compute.
Defined.

(** C9.  Let graph [g] register node [X] under name [N], and let node [Y]
    be named [N].  If [Y] is not registered in [g], [add_node] returns, and
    for some [k >= 1]: the name [N] followed by [k] copies of ["_old"] was
    not a name of [g], is now the name of [X] and the name under which [g]
    registers [X]; [g] registers [Y] under [N]; every other name of [g] is
    as before; the parents and children of every node are as before, and
    every node other than [X] is unchanged.  If [Y] is registered in [g]
    already, [add_node] changes nothing. *)
Theorem add_node_renames_on_collision s fuel g X Y N :
  g_nodes (graphs s !!! g) !! N = Some X →
  name (nodes s !!! Y) = N →
  (size (g_nodes (graphs s !!! g)) ≤ fuel)%nat →
  (Y ∉ (map_to_list (g_nodes (graphs s !!! g))).*2 →
   ∃ k s', (0 < k)%nat ∧
     add_node fuel g Y s = (s', Ok tt) ∧
     g_nodes (graphs s !!! g) !! suffixed N k = None ∧
     g_nodes (graphs s' !!! g) !! suffixed N k = Some X ∧
     g_nodes (graphs s' !!! g) !! N = Some Y ∧
     (∀ n, n ≠ N → n ≠ suffixed N k →
           g_nodes (graphs s' !!! g) !! n = g_nodes (graphs s !!! g) !! n) ∧
     name (nodes s' !!! X) = suffixed N k ∧
     (∀ i, parents (nodes s' !!! i) = parents (nodes s !!! i) ∧
           children (nodes s' !!! i) = children (nodes s !!! i)) ∧
     (∀ i, i ≠ X → nodes s' !!! i = nodes s !!! i)) ∧
  (Y ∈ (map_to_list (g_nodes (graphs s !!! g))).*2 →
   add_node fuel g Y s = (s, Ok tt)).
Proof.
  intros HX HY Hfuel. split.
  - intros Hnew.
    destruct (rename_loop_finds fuel (g_nodes (graphs s !!! g)) N) as (k & Hk & Hfree & Hpos).
    { pose proof (names_from_size (g_nodes (graphs s !!! g)) N). lia. }
    assert (X ≠ Y) as Hne.
    { intros ->. apply Hnew. apply list_elem_of_fmap. exists (N, Y). split; [done|].
      by apply elem_of_map_to_list. }
    assert (N ≠ suffixed N k) as HNk.
    { intros Heq. rewrite <- Heq in Hfree. congruence. }
    eexists k, _. split; [apply Hpos; eauto|]. split.
    { unfold add_node, mbind, M_bind, gets, lift, dict_get, rename, get_node, set_node,
        set_graph, modify, mret, M_ret. simpl.
      rewrite bool_decide_eq_false_2 by done. rewrite HY.
      rewrite bool_decide_eq_true_2 by eauto. rewrite Hk, HX. simpl.
      rewrite lookup_total_insert_ne by done. rewrite HY, HX. simpl.
      rewrite lookup_total_insert_eq. simpl.
      rewrite lookup_total_insert_ne by done. rewrite HY. reflexivity. }
    simpl. rewrite lookup_total_insert_eq. simpl.
    split; [done|]. split; [by rewrite lookup_insert_ne, lookup_insert_eq|].
    split; [by rewrite lookup_insert_eq|].
    split; [intros n Hn1 Hn2; by rewrite !lookup_insert_ne|].
    split; [by rewrite lookup_total_insert_eq|].
    split.
    + intros i. destruct (decide (i = X)) as [->|Hi].
      * by rewrite lookup_total_insert_eq.
      * by rewrite lookup_total_insert_ne.
    + intros i Hi. by rewrite lookup_total_insert_ne.
  - intros Hin. unfold add_node, mbind, M_bind, gets. simpl.
    by rewrite bool_decide_eq_true_2.
Qed.

(** C9, witness: a second node named ["c"] added to the graph of the
    chain. *)
Lemma add_node_renames_on_collision_witness :
  ∃ k s', (0 < k)%nat ∧
    add_node 2 0%nat 5%nat ex_collision = (s', Ok tt) ∧
    g_nodes (graphs ex_collision !!! 0%nat) !! suffixed "c" k = None ∧
    g_nodes (graphs s' !!! 0%nat) !! suffixed "c" k = Some 0%nat ∧
    g_nodes (graphs s' !!! 0%nat) !! "c" = Some 5%nat ∧
    (∀ n, n ≠ "c" → n ≠ suffixed "c" k →
          g_nodes (graphs s' !!! 0%nat) !! n = g_nodes (graphs ex_collision !!! 0%nat) !! n) ∧
    name (nodes s' !!! 0%nat) = suffixed "c" k ∧
    (∀ i, parents (nodes s' !!! i) = parents (nodes ex_collision !!! i) ∧
          children (nodes s' !!! i) = children (nodes ex_collision !!! i)) ∧
    (∀ i, i ≠ 0%nat → nodes s' !!! i = nodes ex_collision !!! i).
Proof.
  apply (add_node_renames_on_collision ex_collision 2 0%nat 0%nat 5%nat "c").
  - by vm_compute.
  - by vm_compute.
  - by vm_compute.
  - apply (bool_decide_unpack _). by vm_compute.
Defined.

(** C10.  [get_slice], whatever it returns and whether or not it appends
    chunks, leaves the generated length and the version of every node as
    they were.  A following [generate(n)] on the node leaves every version
    and the generated length of every other node as they were, and when it
    returns it has set the node's generated length to the length before the
    [get_slice] plus [n]. *)
Theorem get_slice_keeps_counters fuel self sl with_values s s' r :
  get_slice fuel self sl with_values s = (s', r) →
  (∀ j, _generate_index (nodes s' !!! j) = _generate_index (nodes s !!! j) ∧
        _num_resets (nodes s' !!! j) = _num_resets (nodes s !!! j)) ∧
  (∀ loop_fuel fuel' n batch_size with_values' s'' r',
     generate loop_fuel fuel' self n batch_size with_values' s' = (s'', r') →
     (∀ j, _num_resets (nodes s'' !!! j) = _num_resets (nodes s !!! j)) ∧
     (∀ j, j ≠ self →
           _generate_index (nodes s'' !!! j) = _generate_index (nodes s !!! j)) ∧
     (is_ok r' = true →
      _generate_index (nodes s'' !!! self) = _generate_index (nodes s !!! self) + n)).
Proof.
  intros Hgs. apply get_slice_extends in Hgs as (Hn & _). split.
  - intros j. destruct (Hn j) as (_ & _ & _ & _ & _ & _ & _ & -> & -> & _). done.
  - intros loop_fuel fuel' n batch_size with_values' s'' r' Hgen.
    apply generate_decompose in Hgen as (s1 & (Hn1 & _) & _ & Hcase).
    assert (∀ j, _generate_index (nodes s1 !!! j) = _generate_index (nodes s !!! j) ∧
                 _num_resets (nodes s1 !!! j) = _num_resets (nodes s !!! j)) as H1.
    { intros j. destruct (Hn j) as (_ & _ & _ & _ & _ & _ & _ & Hg & Hv & _).
      destruct (Hn1 j) as (_ & _ & _ & _ & _ & _ & _ & -> & -> & _). done. }
    destruct Hcase as [[-> [e ->]]|(-> & _)].
    + repeat split; try (intros; apply H1). done.
    + destruct (Hn self) as (_ & _ & _ & _ & _ & _ & _ & Hgself & _).
      split; [|split].
      * intros j. rewrite nodes_with_generate_index. case_decide; [subst|]; simpl; apply H1.
      * intros j Hj. rewrite nodes_with_generate_index, decide_False by done. apply H1.
      * intros _. rewrite nodes_with_generate_index, decide_True by done. simpl.
        by rewrite Hgself.
Qed.

(** C10, witness: [get_slice(slice(0, 3))] on the child of the chain
    appends a chunk of three samples and leaves the generated length 0; the
    following [generate(4)] sets it to 4. *)
Lemma get_slice_keeps_counters_witness :
  let run := get_slice 2 1%nat (Slice 0 3) None ex_chain in
  let run' := generate 4 2 1%nat 4 None None run.1 in
  (cache_len (_delayed_outputs (nodes run.1 !!! 1%nat)) = 3 ∧
   _generate_index (nodes run.1 !!! 1%nat) = 0 ∧
   _num_resets (nodes run.1 !!! 1%nat) = 0%nat) ∧
  _generate_index (nodes run'.1 !!! 1%nat) = 4.
Proof.
  cbv zeta.
  destruct (get_slice_keeps_counters 2 1%nat (Slice 0 3) None ex_chain
              (get_slice 2 1%nat (Slice 0 3) None ex_chain).1
              (get_slice 2 1%nat (Slice 0 3) None ex_chain).2) as [Hframe Hgen].
  { apply surjective_pairing. }
  split.
  - destruct (Hframe 1%nat) as [-> ->]. by vm_compute.
  - destruct (Hgen 4%nat 2%nat 4 None None
                (generate 4 2 1%nat 4 None None
                   (get_slice 2 1%nat (Slice 0 3) None ex_chain).1).1
                (generate 4 2 1%nat 4 None None
                   (get_slice 2 1%nat (Slice 0 3) None ex_chain).1).2)
      as (_ & _ & Hself).
    { apply surjective_pairing. }
    rewrite Hself; [reflexivity|by vm_compute].
Defined.
(** * Further properties of the graph layer and of the engine *)

(** ** [elfi/graph.py]: traversals *)

(** X1.  When [descendants] returns, its list holds exactly the nodes that
    are reached from the node along one or more child links. *)
Theorem descendants_are_reachable fuel s self l :
  descendants fuel s self = Ok l → ∀ m, m ∈ l ↔ reach (child_edges s) self m.
Proof.
  rewrite descendants_traverse. intros Hl m. split.
  - by eapply traverse_sound.
  - by eapply traverse_complete.
Qed.

Lemma descendants_are_reachable_witness :
  descendants 2 ex_chain 0%nat = Ok [1%nat] ∧
  (1%nat ∈ [1%nat] ↔ reach (child_edges ex_chain) 0%nat 1%nat).
Proof.
  split; [reflexivity|].
  apply (descendants_are_reachable 2 ex_chain 0%nat [1%nat]). reflexivity.
Defined.

(** X2.  When [ancestors] returns, its list holds exactly the nodes that are
    reached from the node along one or more parent links. *)
Theorem ancestors_are_reachable fuel s self l :
  ancestors fuel s self = Ok l → ∀ m, m ∈ l ↔ reach (parent_edges s) self m.
Proof.
  rewrite ancestors_traverse. intros Hl m. split.
  - by eapply traverse_sound.
  - by eapply traverse_complete.
Qed.

Lemma ancestors_are_reachable_witness :
  ancestors 2 ex_chain 1%nat = Ok [0%nat] ∧
  (0%nat ∈ [0%nat] ↔ reach (parent_edges ex_chain) 1%nat 0%nat).
Proof.
  split; [reflexivity|].
  apply (ancestors_are_reachable 2 ex_chain 1%nat [0%nat]). reflexivity.
Defined.

(** X3.  In a graph whose parent and child lists mirror each other, [B] is
    among the ancestors of [A] exactly when [A] is among the descendants of
    [B]. *)
Theorem ancestors_descendants_dual fuel fuel' s A B la ld :
  consistent s →
  ancestors fuel s A = Ok la → descendants fuel' s B = Ok ld →
  B ∈ la ↔ A ∈ ld.
Proof.
  intros Hc Ha Hd. rewrite ancestors_traverse in Ha. rewrite descendants_traverse in Hd.
  split; intros H.
  - eapply traverse_complete; [exact Hd|]. apply reach_flip; [done|].
    by eapply traverse_sound.
  - eapply traverse_complete; [exact Ha|]. apply reach_flip_back; [done|].
    by eapply traverse_sound.
Qed.

Lemma ancestors_descendants_dual_witness : 0%nat ∈ [0%nat] ↔ 1%nat ∈ [1%nat].
Proof.
  apply (ancestors_descendants_dual 2 2 ex_chain 1%nat 0%nat).
  - apply consistent_heap_consistent. apply (bool_decide_unpack _). by vm_compute.
  - reflexivity.
  - reflexivity.
Defined.

(** X4.  [descendants] has no cycle guard: from a node that lies on a cycle
    of child links, or reaches one, the recursion never returns, whatever
    the depth allowed. *)
Theorem descendants_diverge_on_cycle s self k :
  (k = self ∨ reach (child_edges s) self k) → reach (child_edges s) k k →
  ∀ fuel, descendants fuel s self = Err OutOfFuel.
Proof.
  intros [->|Hk] Hkk fuel; rewrite descendants_traverse.
  - by apply traverse_cycle.
  - by eapply traverse_reaches_cycle.
Qed.

Lemma descendants_diverge_on_cycle_witness :
  descendants 1000 ex_self_loop 0%nat = Err OutOfFuel.
Proof.
  apply (descendants_diverge_on_cycle ex_self_loop 0%nat 1%nat).
  - right. apply reach_edge. apply (bool_decide_unpack _). by vm_compute.
  - apply reach_edge. apply (bool_decide_unpack _). by vm_compute.
Defined.

(** ** [elfi/graph.py]: [add_parent] *)

(** X5.  [add_parent(node)] with the default positions, for a node that is
    not a descendant: the call succeeds, the node is appended to the parent
    list unless it is there, and the caller is appended to the child list of
    the node unless it is there; no other list changes, and a graph whose
    lists mirror each other and hold no entry twice stays so. *)
Theorem add_parent_links fuel self node s ds :
  descendants fuel s self = Ok ds → node ∉ ds →
  ∃ s', add_parent fuel self (Some node) None None s = (s', Ok tt) ∧
    parents (nodes s' !!! self) =
      (if bool_decide (node ∈ parents (nodes s !!! self))
       then parents (nodes s !!! self) else parents (nodes s !!! self) ++ [node]) ∧
    children (nodes s' !!! node) =
      (if bool_decide (self ∈ children (nodes s !!! node))
       then children (nodes s !!! node) else children (nodes s !!! node) ++ [self]) ∧
    (∀ i, i ≠ self → parents (nodes s' !!! i) = parents (nodes s !!! i)) ∧
    (∀ i, i ≠ node → children (nodes s' !!! i) = children (nodes s !!! i)) ∧
    (consistent s → consistent s') ∧
    (no_repeats s → no_repeats s').
Proof.
  intros Hds Hn.
  pose proof (add_parent_default fuel self node s ds Hds Hn) as Hrun. cbn zeta in Hrun.
  set (ps := parents (nodes s !!! self)) in *.
  set (s1 := if bool_decide (node ∈ ps) then s else with_parents self (ps ++ [node]) s) in *.
  set (cs := children (nodes s1 !!! node)) in *.
  set (s' := if bool_decide (self ∈ cs) then s1 else with_children node (cs ++ [self]) s1) in *.
  exists s'. split; [done|].
  destruct (add_parent_edges _ _ _ _ _ _ _ Hrun) as (_ & Hp & Hc & Hr).
  assert (∀ i, children (nodes s1 !!! i) = children (nodes s !!! i)) as Hch1.
  { intros i. unfold s1. case_bool_decide; [done|]. rewrite nodes_with_parents.
    by destruct (decide _) as [->|]. }
  assert (∀ i, parents (nodes s' !!! i) = parents (nodes s1 !!! i)) as Hps'.
  { intros i. unfold s'. case_bool_decide; [done|]. rewrite nodes_with_children.
    by destruct (decide _) as [->|]. }
  assert (cs = children (nodes s !!! node)) as Hcs by apply Hch1.
  split; [|split; [|split; [|split; [|split]]]].
  - rewrite Hps'. unfold s1. fold ps. case_bool_decide; [done|].
    rewrite nodes_with_parents. by rewrite decide_True.
  - rewrite <- Hcs. unfold s'. case_bool_decide; [done|].
    rewrite nodes_with_children. by rewrite decide_True.
  - intros i Hi. rewrite Hps'. unfold s1. case_bool_decide; [done|].
    rewrite nodes_with_parents. by rewrite decide_False.
  - intros i Hi. rewrite <- Hch1. unfold s'. case_bool_decide; [done|].
    rewrite nodes_with_children. by rewrite decide_False.
  - by apply (edges_consistent s s' self node).
  - done.
Qed.

Lemma add_parent_links_witness :
  ∃ s', add_parent 2 2%nat (Some 0%nat) None None ex_chain = (s', Ok tt) ∧
    parents (nodes s' !!! 2%nat) = [0%nat] ∧
    children (nodes s' !!! 0%nat) = [1%nat; 2%nat].
Proof.
  destruct (add_parent_links 2 2%nat 0%nat ex_chain [] eq_refl) as (s' & H & Hp & Hc & _).
  { apply not_elem_of_nil. }
  exists s'. split; [exact H|]. split; [exact Hp|exact Hc].
Defined.



(** X7.  The cycle check of [add_parent] looks at the descendants only, so a
    node that is not its own descendant is accepted as its own parent.  The
    node then lists itself as parent and child, and from then on
    [descendants], and with it every [add_parent] on the node, never
    returns. *)
Theorem add_parent_self_loop fuel self s ds :
  descendants fuel s self = Ok ds → self ∉ ds →
  ∃ s', add_parent fuel self (Some self) None None s = (s', Ok tt) ∧
    self ∈ parents (nodes s' !!! self) ∧ self ∈ children (nodes s' !!! self) ∧
    ∀ fuel' node index index_child,
      descendants fuel' s' self = Err OutOfFuel ∧
      add_parent fuel' self (Some node) index index_child s' = (s', Err OutOfFuel).
Proof.
  intros Hds Hn.
  pose proof (add_parent_default fuel self self s ds Hds Hn) as Hrun. cbn zeta in Hrun.
  eexists. split; [exact Hrun|].
  destruct (add_parent_edges _ _ _ _ _ _ _ Hrun) as (_ & Hp & Hc & _).
  split; [apply Hp; auto|]. split; [apply Hc; auto|].
  intros fuel' node index index_child.
  match goal with |- descendants _ ?s' _ = _ ∧ _ =>
    assert (descendants fuel' s' self = Err OutOfFuel) as Hd end.
  { rewrite descendants_traverse. apply traverse_cycle. apply reach_edge. apply Hc. auto. }
  split; [exact Hd|].
  unfold add_parent. munfold. by rewrite Hd.
Qed.

Lemma add_parent_self_loop_witness :
  ∃ s', add_parent 2 1%nat (Some 1%nat) None None ex_chain = (s', Ok tt) ∧
        descendants 100 s' 1%nat = Err OutOfFuel.
Proof.
  destruct (add_parent_self_loop 2 1%nat ex_chain [] eq_refl) as (s' & H & _ & _ & Hd).
  { apply not_elem_of_nil. }
  exists s'. split; [exact H|]. apply (Hd 100%nat 0%nat None None).
Defined.

(** ** [elfi/core.py]: [reset] *)

(** X8.  When the traversal [descendants] of a node ends (the graph below it
    is acyclic), [reset(propagate=True)] returns, and the node and every one
    of its descendants then has generated length 0, a version above the old
    one and therefore a new identity, to which its cache is bound, an empty
    cache, and, if it has a store, a store without any entry for the identity
    its cache was bound to before: reading that identity fails.  For a node
    whose cache was bound to the identity of the node, this is the old
    identity of the node. *)
Theorem reset_isolation fuel self s ds :
  descendants fuel s self = Ok ds →
  ∃ s', reset fuel self true s = (s', Ok tt) ∧
        ∀ d, d = self ∨ d ∈ ds →
          let nd := nodes s !!! d in
          let nd' := nodes s' !!! d in
          _generate_index nd' = 0 ∧
          (version nd < version nd')%nat ∧
          id s' d ≠ id s d ∧
          c_node_id (_delayed_outputs nd') = id s' d ∧
          c_delayed_outputs (_delayed_outputs nd') = [] ∧
          c_stored_mask (_delayed_outputs nd') = [] ∧
          cache_len (_delayed_outputs nd') = 0 ∧
          ∀ r, c_store (_delayed_outputs nd) = Some r →
               (∀ e, e ∈ stores s' !!! r →
                     key_id e.1 ≠ c_node_id (_delayed_outputs nd)) ∧
               (∀ sl, store_read_data (stores s' !!! r)
                        (c_node_id (_delayed_outputs nd)) sl = Err KeyError) ∧
               (c_node_id (_delayed_outputs nd) = id s d →
                ∀ sl, store_read_data (stores s' !!! r) (id s d) sl = Err KeyError).
Proof.
  intros Hds. destruct (reset_ok fuel self s ds Hds) as (s' & Hreset & Hat).
  exists s'. split; [done|]. intros d Hd.
  destruct (Hat d Hd) as (Hg & Ho & Hm & Hv & Hid & Hp).
  pose proof (reset_resets _ _ _ _ _ _ Hreset) as (Hst & Hgr & _).
  cbv zeta. unfold version.
  assert (∀ r, c_store (_delayed_outputs (nodes s !!! d)) = Some r →
               ∀ sl, store_read_data (stores s' !!! r)
                       (c_node_id (_delayed_outputs (nodes s !!! d))) sl = Err KeyError)
    as Hread.
  { intros r Hr sl. unfold store_read_data.
    destruct (list_find _ _) as [[j [k v]]|] eqn:Hfind; [|done].
    apply list_find_Some in Hfind as (Hj & Hk & _). simpl in Hk.
    exfalso. apply (Hp r Hr (k, v)).
    + eapply list_elem_of_lookup_2; eauto.
    + simpl. by rewrite Hk. }
  repeat split; auto.
  - unfold id. rewrite Hgr. destruct (Hst d) as (-> & _ & _ & -> & _).
    unfold make_key_id, version. intros [= Heq]. lia.
  - unfold cache_len. by rewrite Ho.
  - by apply Hp.
  - intros <-. by apply Hread.
Qed.

Lemma reset_isolation_witness :
  ∃ s', reset 2 0%nat true ex_stored = (s', Ok tt) ∧
        ∀ d, d = 0%nat ∨ d ∈ [1%nat] →
          let nd := nodes ex_stored !!! d in
          let nd' := nodes s' !!! d in
          _generate_index nd' = 0 ∧
          (version nd < version nd')%nat ∧
          id s' d ≠ id ex_stored d ∧
          c_node_id (_delayed_outputs nd') = id s' d ∧
          c_delayed_outputs (_delayed_outputs nd') = [] ∧
          c_stored_mask (_delayed_outputs nd') = [] ∧
          cache_len (_delayed_outputs nd') = 0 ∧
          ∀ r, c_store (_delayed_outputs nd) = Some r →
               (∀ e, e ∈ stores s' !!! r →
                     key_id e.1 ≠ c_node_id (_delayed_outputs nd)) ∧
               (∀ sl, store_read_data (stores s' !!! r)
                        (c_node_id (_delayed_outputs nd)) sl = Err KeyError) ∧
               (c_node_id (_delayed_outputs nd) = id ex_stored d →
                ∀ sl, store_read_data (stores s' !!! r) (id ex_stored d) sl = Err KeyError).
Proof.
  apply (reset_isolation 2 0%nat ex_stored [1%nat]). by vm_compute.
Defined.

(** ** [elfi/graph.py]: [remove_parent] and [remove] *)

(** X9.  [remove_parent(node)] undoes [add_parent(node)]: after a parent
    that was not linked before has been added at the default positions,
    removing it returns the position it had, the end of the old parent
    list, and every node reads as before the two calls. *)
Theorem remove_parent_undoes_add_parent fuel self node s s' :
  node ∉ parents (nodes s !!! self) → self ∉ children (nodes s !!! node) →
  add_parent fuel self (Some node) None None s = (s', Ok tt) →
  ∃ s'', remove_parent self (ByNode node) s'
         = (s'', Return (Z.of_nat (length (parents (nodes s !!! self))))) ∧
         same_heap s s''.
Proof.
  intros Hp Hc Hadd.
  destruct (add_parent_edges _ _ _ _ _ _ _ Hadd) as ((ds & Hds & Hn) & _).
  rewrite (add_parent_default fuel self node s ds Hds Hn) in Hadd. cbn zeta in Hadd.
  rewrite (bool_decide_false (node ∈ parents (nodes s !!! self))) in Hadd by done.
  set (ps := parents (nodes s !!! self)) in *.
  set (s1 := with_parents self (ps ++ [node]) s) in *.
  assert (children (nodes s1 !!! node) = children (nodes s !!! node)) as Hcs.
  { unfold s1. rewrite nodes_with_parents. by destruct (decide _) as [->|]. }
  rewrite Hcs in Hadd.
  rewrite (bool_decide_false (self ∈ children (nodes s !!! node))) in Hadd by done.
  set (cs := children (nodes s !!! node)) in *.
  injection Hadd as <-.
  set (s2 := with_children node (cs ++ [self]) s1).
  assert (parents (nodes s2 !!! self) = ps ++ [node]) as Hps2.
  { assert (parents (nodes s1 !!! self) = ps ++ [node]) as H1.
    { unfold s1. rewrite nodes_with_parents, decide_True by done. done. }
    unfold s2. rewrite nodes_with_children.
    destruct (decide (self = node)) as [<-|]; [cbn zeta; cbn [parents]; exact H1|exact H1]. }
  rewrite remove_parent_by_node, Hps2, find_parent_app_new by done.
  rewrite Z.add_0_l.
  rewrite (remove_parent_at self s2 (length ps) node).
  2: { rewrite Hps2. by rewrite lookup_app_r, Nat.sub_diag. }
  cbn zeta. rewrite Hps2, delete_app_new.
  assert (children (nodes s2 !!! node) = cs ++ [self]) as ->.
  { unfold s2. rewrite nodes_with_children. by rewrite decide_True. }
  rewrite list_remove_first_app_new by done.
  eexists. split; [done|].
  split; [|split; done].
  intros i. rewrite nodes_with_children.
  destruct (decide (i = node)) as [->|Hin].
  - cbn zeta. rewrite nodes_with_parents.
    destruct (decide (node = self)) as [->|Hns]; cbn zeta.
    + unfold s2. rewrite nodes_with_children, decide_True by done. cbn zeta.
      unfold s1. rewrite nodes_with_parents, decide_True by done. simpl.
      apply node_eta.
    + unfold s2. rewrite nodes_with_children, decide_True by done. cbn zeta.
      unfold s1. rewrite nodes_with_parents, decide_False by done. simpl.
      apply node_eta.
  - rewrite nodes_with_parents.
    destruct (decide (i = self)) as [->|His]; cbn zeta.
    + unfold s2. rewrite nodes_with_children, decide_False by done.
      unfold s1. rewrite nodes_with_parents, decide_True by done. simpl.
      apply node_eta.
    + unfold s2. rewrite nodes_with_children, decide_False by done.
      unfold s1. by rewrite nodes_with_parents, decide_False by done.
Qed.

Lemma remove_parent_undoes_add_parent_witness :
  ∃ s'', remove_parent 0%nat (ByNode 1%nat)
           (add_parent 2 0%nat (Some 1%nat) None None ex_siblings).1
         = (s'', Return (Z.of_nat (length (parents (nodes ex_siblings !!! 0%nat))))) ∧
         same_heap ex_siblings s''.
Proof.
  apply (remove_parent_undoes_add_parent 2 0%nat 1%nat ex_siblings).
  - apply (bool_decide_unpack _). by vm_compute.
  - apply (bool_decide_unpack _). by vm_compute.
  - reflexivity.
Defined.

(** X10.  [remove_parent] of a node that is not among the parents raises
    the plain exception "Could not find a parent", and an index outside of
    the parent list raises [IndexError]; the graph is unchanged in both
    cases. *)
Theorem remove_parent_errors self s :
  (∀ node, node ∉ parents (nodes s !!! self) →
           remove_parent self (ByNode node) s
           = (s, RaiseException "Could not find a parent")) ∧
  (∀ index, index < - Z.of_nat (length (parents (nodes s !!! self))) ∨
            Z.of_nat (length (parents (nodes s !!! self))) ≤ index →
            remove_parent self (ByIndex index) s = (s, Raise IndexError)).
Proof.
  split.
  - intros node Hn. rewrite remove_parent_by_node.
    apply (find_parent_None node 0) in Hn. by rewrite Hn.
  - intros index Hi. unfold remove_parent, py_index. cbn zeta.
    destruct (Z.leb_spec 0 index); destruct (Z.ltb_spec index (Z.of_nat (length (parents (nodes s !!! self)))));
      destruct (Z.leb_spec (- Z.of_nat (length (parents (nodes s !!! self)))) index);
      destruct (Z.ltb_spec index 0); simpl; try done; lia.
Qed.

Lemma remove_parent_errors_witness :
  remove_parent 1%nat (ByNode 1%nat) ex_chain
  = (ex_chain, RaiseException "Could not find a parent") ∧
  remove_parent 1%nat (ByIndex 1) ex_chain = (ex_chain, Raise IndexError).
Proof.
  destruct (remove_parent_errors 1%nat ex_chain) as [Hn Hi]. split.
  - apply Hn. apply (bool_decide_unpack _). by vm_compute.
  - apply Hi. right. by vm_compute.
Defined.

(** X11.  [remove_parent] deletes the parent entry before it looks for the
    child entry: when the parent does not list the node as child, the call
    raises the [ValueError] of [list.remove], and the parent is gone from
    the parent list all the same. *)
Theorem remove_parent_half_edge self s (j : nat) p :
  parents (nodes s !!! self) !! j = Some p →
  self ∉ children (nodes s !!! p) →
  remove_parent self (ByIndex (Z.of_nat j)) s
  = (with_parents self (delete j (parents (nodes s !!! self))) s, Raise not_in_list).
Proof.
  intros Hj Hn. rewrite (remove_parent_at self s j p Hj). cbn zeta.
  apply list_remove_first_None in Hn. by rewrite Hn.
Qed.

Lemma remove_parent_half_edge_witness :
  remove_parent 0%nat (ByIndex (Z.of_nat 0)) ex_half_edge
  = (with_parents 0%nat (delete 0%nat (parents (nodes ex_half_edge !!! 0%nat)))
       ex_half_edge, Raise not_in_list).
Proof.
  apply (remove_parent_half_edge 0%nat ex_half_edge 0%nat 1%nat).
  - reflexivity.
  - apply (bool_decide_unpack _). by vm_compute.
Defined.

(** X12.  In a graph whose parent and child lists mirror each other and
    hold no entry twice, [remove_parent(p)] for a parent [p] returns the
    position of [p], deletes that entry, and removes exactly the link
    between the two nodes, in both lists; the graph stays mirrored and
    without repeated entries. *)
Theorem remove_parent_unlinks self p s :
  consistent s → no_repeats s → p ∈ parents (nodes s !!! self) →
  ∃ s' (j : nat),
    remove_parent self (ByNode p) s = (s', Return (Z.of_nat j)) ∧
    parents (nodes s !!! self) !! j = Some p ∧
    parents (nodes s' !!! self) = delete j (parents (nodes s !!! self)) ∧
    (∀ i k, k ∈ parents (nodes s' !!! i) ↔
            k ∈ parents (nodes s !!! i) ∧ ¬ (i = self ∧ k = p)) ∧
    (∀ i k, k ∈ children (nodes s' !!! i) ↔
            k ∈ children (nodes s !!! i) ∧ ¬ (i = p ∧ k = self)) ∧
    consistent s' ∧ no_repeats s'.
Proof.
  intros Hcon Hnr Hp.
  apply list_elem_of_lookup_1 in Hp as [j Hj].
  destruct (remove_parent_index_ok self s j p Hcon Hnr Hj) as (s' & Hrun & Hps & Hun).
  exists s', j. rewrite remove_parent_by_node.
  rewrite (find_parent_NoDup p _ j (proj1 (Hnr self)) Hj).
  split; [done|]. split; [done|]. split; [done|].
  pose proof (unlinked_consistent _ _ _ _ Hun Hcon).
  destruct Hun as (? & ? & ?). done.
Qed.

Lemma remove_parent_unlinks_witness :
  ∃ s' (j : nat),
    remove_parent 2%nat (ByNode 1%nat) ex_siblings = (s', Return (Z.of_nat j)) ∧
    parents (nodes ex_siblings !!! 2%nat) !! j = Some 1%nat ∧
    parents (nodes s' !!! 2%nat) = delete j (parents (nodes ex_siblings !!! 2%nat)) ∧
    (∀ i k, k ∈ parents (nodes s' !!! i) ↔
            k ∈ parents (nodes ex_siblings !!! i) ∧ ¬ (i = 2%nat ∧ k = 1%nat)) ∧
    (∀ i k, k ∈ children (nodes s' !!! i) ↔
            k ∈ children (nodes ex_siblings !!! i) ∧ ¬ (i = 1%nat ∧ k = 2%nat)) ∧
    consistent s' ∧ no_repeats s'.
Proof.
  apply (remove_parent_unlinks 2%nat 1%nat ex_siblings).
  - apply consistent_heap_consistent. apply (bool_decide_unpack _). by vm_compute.
  - apply no_repeats_heap_no_repeats. apply (bool_decide_unpack _). by vm_compute.
  - apply (bool_decide_unpack _). by vm_compute.
Defined.

(** X13.  In a graph whose parent and child lists mirror each other and
    hold no entry twice, [remove()] returns and detaches the node: it is a
    root and a leaf afterwards, no other node lists it, all links between
    other nodes are kept, and the graph stays mirrored and without repeated
    entries. *)
Theorem remove_detaches fuel self s :
  consistent s → no_repeats s →
  (length (parents (nodes s !!! self)) ≤ fuel)%nat →
  ∃ s', remove fuel self false false s = (s', Return tt) ∧
    is_root s' self = true ∧ is_leaf s' self = true ∧
    (∀ i k, k ∈ parents (nodes s' !!! i) ↔
            k ∈ parents (nodes s !!! i) ∧ i ≠ self ∧ k ≠ self) ∧
    (∀ i k, k ∈ children (nodes s' !!! i) ↔
            k ∈ children (nodes s !!! i) ∧ i ≠ self ∧ k ≠ self) ∧
    consistent s' ∧ no_repeats s'.
Proof.
  intros Hcon Hnr Hlen.
  destruct (remove_parents_loop_ok fuel self s Hcon Hnr Hlen)
    as (s1 & Hloop1 & Hnil & Hp1 & Hc1 & Hcon1 & Hnr1).
  destruct (remove_from_children_ok self (children (nodes s1 !!! self)) s1 Hcon1 Hnr1)
    as (s' & Hloop2 & Hp' & Hc' & Hcon' & Hnr').
  { apply Hnr1. }
  { intros c Hc. by apply Hcon1. }
  exists s'. split.
  { unfold remove. by rewrite Hloop1. }
  assert (∀ i k, k ∈ parents (nodes s' !!! i) ↔
                 k ∈ parents (nodes s !!! i) ∧ i ≠ self ∧ k ≠ self) as HP.
  { intros i k. rewrite Hp', Hp1. split.
    - intros [[? ?] Hn]. split; [done|]. split; [done|]. intros ->. apply Hn.
      split; [|done]. apply Hcon1. apply Hp1. done.
    - intros (? & ? & ?). split; [done|]. intros [_ ?]. done. }
  assert (∀ i k, k ∈ children (nodes s' !!! i) ↔
                 k ∈ children (nodes s !!! i) ∧ i ≠ self ∧ k ≠ self) as HC.
  { intros i k. rewrite Hc', Hc1. split.
    - intros [[? ?] Hn]. split; [done|]. split; [|done]. intros ->. apply Hn.
      split; [done|]. apply Hc1. done.
    - intros (? & ? & ?). split; [done|]. intros [? _]. done. }
  split; [|split; [|done]].
  - unfold is_root. apply bool_decide_eq_true. 
    rewrite (no_elements (parents (nodes s' !!! self))); [done|].
    intros k Hk. apply HP in Hk. tauto.
  - unfold is_leaf. apply bool_decide_eq_true.
    rewrite (no_elements (children (nodes s' !!! self))); [done|].
    intros k Hk. apply HC in Hk. tauto.
Qed.

Lemma remove_detaches_witness :
  ∃ s', remove 2 2%nat false false ex_siblings = (s', Return tt) ∧
    is_root s' 2%nat = true ∧ is_leaf s' 2%nat = true ∧
    (∀ i k, k ∈ parents (nodes s' !!! i) ↔
            k ∈ parents (nodes ex_siblings !!! i) ∧ i ≠ 2%nat ∧ k ≠ 2%nat) ∧
    (∀ i k, k ∈ children (nodes s' !!! i) ↔
            k ∈ children (nodes ex_siblings !!! i) ∧ i ≠ 2%nat ∧ k ≠ 2%nat) ∧
    consistent s' ∧ no_repeats s'.
Proof.
  apply (remove_detaches 2 2%nat ex_siblings).
  - apply consistent_heap_consistent. apply (bool_decide_unpack _). by vm_compute.
  - apply no_repeats_heap_no_repeats. apply (bool_decide_unpack _). by vm_compute.
  - by vm_compute.
Defined.
